(** * flac-to-opus: a shallow embedding of [conversion.py]

    The script walks a directory tree for [*.flac] files and hands every
    file to a worker of a process pool; a worker extracts the cover art
    and transcodes the audio by spawning [ffmpeg], and the parent process
    tallies the outcomes and derives the exit status from them.

    Layout of the development:
    - [PyStr], [PurePath]: the Python string and [pathlib] operations the
      script uses, as CPython defines them on POSIX;
    - [FS]: the file system as a tree of directories, with [rglob];
    - [Eff]: programs over the three effects of a worker (asking whether a
      path exists, spawning the external tool, logging) and their
      execution by one process;
    - the functions of the script: [extract_cover], [convert_file],
      [gather_flac_files], [main], and the process pool between them;
    - the vocabulary of the properties, and the properties.

    What the model takes as given:
    - paths have no [..] component and no symbolic link on their way, every
      directory may be searched, and a whole path is shorter than
      [PATH_MAX]: of the errors of [os.stat] that [Path.exists()] raises
      again, the one left is [ENAMETOOLONG] for a name longer than
      [NAME_MAX];
    - the root the script is started on has no name longer than
      [NAME_MAX] on its path, so that [Path.is_dir()] answers for it;
    - the captured output of the tool is decoded as UTF-8, the encoding of
      the locale;
    - the external tool is any function from the world it is started in
      and its command line to the way it ends, but it writes, if at all,
      the file named by the last argument of its command line;
    - the workers of the pool take their steps (a question to the file
      system, a spawned tool that runs to its end, a line of the log) in
      any order the size of the pool allows. *)

From Stdlib Require Import ZArith Ascii String List Bool Lia Permutation.
From stdpp Require Import base tactics option list.

Import ListNotations.
Local Open Scope string_scope.
Local Open Scope list_scope.

(** ** Python strings and pure paths *)

Module PyStr.

(** [s.startswith(prefix)] *)
Definition startswith (s prefix : string) : bool := String.prefix prefix s.

(** [len(s)] as a Python integer. *)
Definition len (s : string) : Z := Z.of_nat (String.length s).

Fixpoint rfind_from (c : ascii) (s : string) (i : Z) (last : Z) : Z :=
  match s with
  | EmptyString => last
  | String a s' => rfind_from c s' (i + 1) (if Ascii.eqb a c then i else last)
  end.

(** [s.rfind(c)]: the highest index of [c] in [s], or [-1]. *)
Definition rfind (c : ascii) (s : string) : Z := rfind_from c s 0 (-1).

(** [s[i:]] for [0 <= i]. *)
Fixpoint drop (n : nat) (s : string) : string :=
  match n, s with
  | O, _ => s
  | S n', String _ s' => drop n' s'
  | S _, EmptyString => EmptyString
  end.

(** [s[:n]] for [0 <= n]. *)
Fixpoint take (n : nat) (s : string) : string :=
  match n, s with
  | S n', String a s' => String a (take n' s')
  | _, _ => EmptyString
  end.

(** A Python [str] is kept as the bytes of its UTF-8 encoding. *)

(** The byte [a] lies between [lo] and [hi]. *)
Definition between (lo hi : nat) (a : ascii) : bool :=
  let n := nat_of_ascii a in Nat.leb lo n && Nat.leb n hi.

Definition is_byte (n : nat) (a : ascii) : bool := Nat.eqb (nat_of_ascii a) n.

(** The first two bytes of a character of three bytes: no overlong form
    and no surrogate. *)
Definition lead3 (a b : ascii) : bool :=
  (is_byte 224 a && between 160 191 b)
  || (between 225 236 a && between 128 191 b)
  || (is_byte 237 a && between 128 159 b)
  || (between 238 239 a && between 128 191 b).

(** The first two bytes of a character of four bytes: no overlong form
    and nothing above U+10FFFF. *)
Definition lead4 (a b : ascii) : bool :=
  (is_byte 240 a && between 144 191 b)
  || (between 241 243 a && between 128 191 b)
  || (is_byte 244 a && between 128 143 b).

(** The bytes [s] are well-formed UTF-8: [s.decode('utf-8')] does not
    raise. *)
Fixpoint valid_utf8 (s : string) : bool :=
  match s with
  | EmptyString => true
  | String a s1 =>
      if between 0 127 a then valid_utf8 s1
      else
        match s1 with
        | EmptyString => false
        | String b s2 =>
            if between 194 223 a then between 128 191 b && valid_utf8 s2
            else
              match s2 with
              | EmptyString => false
              | String c s3 =>
                  if lead3 a b then between 128 191 c && valid_utf8 s3
                  else
                    match s3 with
                    | EmptyString => false
                    | String d s4 =>
                        lead4 a b && between 128 191 c && between 128 191 d
                        && valid_utf8 s4
                    end
              end
        end
  end.

Definition CR : ascii := "013"%char.
Definition LF : ascii := "010"%char.

(** [s.replace("\r\n", "\n").replace("\r", "\n")] *)
Fixpoint translate_newlines (s : string) : string :=
  match s with
  | EmptyString => EmptyString
  | String a s1 =>
      if Ascii.eqb a CR then
        match s1 with
        | String b s2 =>
            if Ascii.eqb b LF then String LF (translate_newlines s2)
            else String LF (translate_newlines s1)
        | EmptyString => String LF EmptyString
        end
      else String a (translate_newlines s1)
  end.

(** What [subprocess] makes of a captured stream in text mode: the bytes
    decoded, then the line ends translated; [None] stands for the
    [UnicodeDecodeError] of bytes that are no UTF-8. *)
Definition decode (s : string) : option string :=
  if valid_utf8 s then Some (translate_newlines s) else None.

(** [c.isspace()] for an ASCII character: the space, the controls from
    tab to carriage return, and the four separators. *)
Definition is_space (a : ascii) : bool :=
  let n := nat_of_ascii a in
  Nat.eqb n 32 || (Nat.leb 9 n && Nat.leb n 13) || (Nat.leb 28 n && Nat.leb n 31).

(** [c.isspace()] for a character of two bytes: U+0085 and U+00A0. *)
Definition is_space2 (a b : ascii) : bool :=
  is_byte 194 a && (is_byte 133 b || is_byte 160 b).

(** [c.isspace()] for a character of three bytes: U+1680, U+2000 to
    U+200A, U+2028, U+2029, U+202F, U+205F and U+3000. *)
Definition is_space3 (a b c : ascii) : bool :=
  (is_byte 225 a && is_byte 154 b && is_byte 128 c)
  || (is_byte 226 a && is_byte 128 b
      && (between 128 138 c || between 168 169 c || is_byte 175 c))
  || (is_byte 226 a && is_byte 129 b && is_byte 159 c)
  || (is_byte 227 a && is_byte 128 b && is_byte 128 c).

(** The text without the whitespace it starts with, for the characters
    of two and of three bytes that [two] and [three] take as whitespace. *)
Fixpoint lstrip_with (two : ascii -> ascii -> bool) (three : ascii -> ascii -> ascii -> bool)
  (s : string) : string :=
  match s with
  | EmptyString => EmptyString
  | String a s1 =>
      if is_space a then lstrip_with two three s1
      else
        match s1 with
        | EmptyString => s
        | String b s2 =>
            if two a b then lstrip_with two three s2
            else
              match s2 with
              | EmptyString => s
              | String c s3 => if three a b c then lstrip_with two three s3 else s
              end
        end
  end.

Fixpoint rev_onto (s acc : string) : string :=
  match s with
  | EmptyString => acc
  | String a s' => rev_onto s' (String a acc)
  end.

(** The bytes of [s] from the last to the first. *)
Definition rev (s : string) : string := rev_onto s EmptyString.

(** [s.lstrip()] *)
Definition lstrip (s : string) : string := lstrip_with is_space2 is_space3 s.

(** [s.rstrip()]: the same walk from the end, where the bytes of a
    character come in the opposite order. *)
Definition rstrip (s : string) : string :=
  rev (lstrip_with (fun b a => is_space2 a b) (fun c b a => is_space3 a b c) (rev s)).

(** [s.strip()] *)
Definition strip (s : string) : string := rstrip (lstrip s).

(** [sep.join(l)] *)
Definition join (sep : string) (l : list string) : string := String.concat sep l.

(** [c in s] for a one-character [c]. *)
Fixpoint contains (c : ascii) (s : string) : bool :=
  match s with
  | EmptyString => false
  | String a s' => Ascii.eqb a c || contains c s'
  end.

(** Shell-style matching of one name against one pattern, as
    [fnmatch.fnmatchcase] does it for patterns made of literal
    characters, [?] and [*] (pathlib matches every path component this
    way, and with the case of the characters respected on POSIX). Bracket
    expressions are not covered; the script's only pattern has none. *)
Fixpoint fnmatchcase_pat (pat : string) : string -> bool :=
  match pat with
  | EmptyString => fun name => match name with EmptyString => true | _ => false end
  | String c pat' =>
      if Ascii.eqb c "*" then
        fix star (name : string) : bool :=
          fnmatchcase_pat pat' name
          || match name with
             | EmptyString => false
             | String _ name' => star name'
             end
      else if Ascii.eqb c "?" then
        fun name => match name with
                    | String _ name' => fnmatchcase_pat pat' name'
                    | EmptyString => false
                    end
      else
        fun name => match name with
                    | String a name' => Ascii.eqb a c && fnmatchcase_pat pat' name'
                    | EmptyString => false
                    end
  end.

Definition fnmatchcase (name pat : string) : bool := fnmatchcase_pat pat name.

End PyStr.

(** ** Pure paths ([pathlib.PurePath])

    A path is the list of its components, relative to the directory the
    process runs in; [[]] is [Path('.')]. *)

Definition path := list string.

(** The value of a Python exception, as far as the script looks at it:
    [subprocess.CalledProcessError] carries the command, the exit status
    and the captured error stream, [UnicodeDecodeError] the bytes that
    could not be decoded. *)
Inductive exn : Type :=
| ValueError (msg : string)
| CalledProcessError (returncode : Z) (cmd : list string) (stderr : string)
| OSError (descr : string)
| UnicodeDecodeError (object : string).

Module PurePath.

(** [p.name]: the final component, [''] for [Path('.')]. *)
Definition name (p : path) : string := List.last p "".

(** [p.parent] *)
Definition parent (p : path) : path := List.removelast p.

(** [str(p)] *)
Definition str (p : path) : string :=
  match p with
  | [] => "."
  | _ => PyStr.join "/" p
  end.

(** [p.suffix], computed on the name: the part from the last dot on,
    unless that dot is the first or the last character. *)
Definition suffix_of_name (n : string) : string :=
  let i := PyStr.rfind "." n in
  if (0 <? i)%Z && (i <? PyStr.len n - 1)%Z then PyStr.drop (Z.to_nat i) n else "".

Definition suffix (p : path) : string := suffix_of_name (name p).

Definition invalid_suffix (suffix : string) : bool :=
  PyStr.contains "/" suffix
  || (negb (String.eqb suffix "") && negb (PyStr.startswith suffix "."))
  || String.eqb suffix ".".

(** The name [with_suffix] gives to a file called [n]. *)
Definition replace_suffix (n suffix : string) : string :=
  let old_suffix := suffix_of_name n in
  if String.eqb old_suffix "" then n ++ suffix
  else PyStr.take (String.length n - String.length old_suffix) n ++ suffix.

(** [p.with_suffix(suffix)]; raises [ValueError] for an invalid suffix
    and for a path with an empty name. *)
Definition with_suffix (p : path) (suffix : string) : exn + path :=
  if invalid_suffix suffix then inl (ValueError ("Invalid suffix '" ++ suffix ++ "'"))
  else if String.eqb (name p) "" then
    inl (ValueError ("PosixPath('" ++ str p ++ "') has an empty name"))
  else inr (parent p ++ [replace_suffix (name p) suffix]).

End PurePath.

(** ** The file system

    A tree: a directory lists its entries in the order [os.scandir]
    reports them. File contents play no role in the script. *)

Module FS.

#[warnings="-register-all"]
Inductive node : Type :=
| File
| Dir (entries : list (string * node)).

Fixpoint assoc (c : string) (es : list (string * node)) : option node :=
  match es with
  | [] => None
  | (c', m) :: es' => if String.eqb c' c then Some m else assoc c es'
  end.

(** What the path [p] names, looked up from the node [n]. *)
Fixpoint lookup (n : node) (p : path) : option node :=
  match p with
  | [] => Some n
  | c :: p' =>
      match n with
      | Dir es =>
          match assoc c es with
          | Some m => lookup m p'
          | None => None
          end
      | File => None
      end
  end.

(** The path [p] names something. *)
Definition exists_ (n : node) (p : path) : bool :=
  match lookup n p with Some _ => true | None => false end.

(** [Path.is_dir()], for a path on which no name is too long. *)
Definition is_dir (n : node) (p : path) : bool :=
  match lookup n p with Some (Dir _) => true | _ => false end.

(** The longest name, in bytes, that a directory takes. *)
Definition NAME_MAX : nat := 255.

(** Resolving [p] from [n] ends in [ENAMETOOLONG]: the first name on the
    way that its directory does not list is longer than [NAME_MAX]. A
    name looked up in a file ends in [ENOTDIR] whatever its length. *)
Fixpoint name_too_long (n : node) (p : path) : bool :=
  match p with
  | [] => false
  | c :: p' =>
      match n with
      | Dir es =>
          match assoc c es with
          | Some m => name_too_long m p'
          | None => Nat.ltb NAME_MAX (String.length c)
          end
      | File => false
      end
  end.

(** [Path.exists()]: [True] for a path that names something; [False]
    when [os.stat] fails because a name is missing or because a file
    stands where a directory is needed; any other error of [os.stat]
    raised again. *)
Definition path_exists (n : node) (p : path) : exn + bool :=
  if name_too_long n p then
    inl (OSError ("[Errno 36] File name too long: '" ++ PurePath.str p ++ "'"))
  else inr (exists_ n p).

Fixpoint update (c : string) (f : node -> node) (es : list (string * node))
  : list (string * node) :=
  match es with
  | [] => []
  | (c', m) :: es' =>
      if String.eqb c' c then (c', f m) :: es' else (c', m) :: update c f es'
  end.

(** A process creates the file [p]: a new entry in the directory that is
    to hold it. Nothing happens when that directory does not exist or
    when the name is taken. *)
Fixpoint add_file (p : path) (n : node) : node :=
  match p with
  | [] => n
  | c :: p' =>
      match n with
      | File => n
      | Dir es =>
          match p' with
          | [] =>
              match assoc c es with
              | Some _ => n
              | None => Dir (es ++ [(c, File)])
              end
          | _ :: _ => Dir (update c (add_file p') es)
          end
      end
  end.

(** [Path.rglob(pat)] for a one-component pattern, relative to the
    directory [n]: the matching entries of the directory itself, then
    those of its subdirectories in turn. Files and directories are both
    reported; the directory searched is not. *)
Fixpoint rglob_rel (pat : string) (n : node) : list path :=
  match n with
  | File => []
  | Dir es =>
      List.map (fun e : string * node => [fst e])
        (List.filter (fun e : string * node => PyStr.fnmatchcase (fst e) pat) es)
      ++ List.flat_map
           (fun e : string * node =>
              let '(c, m) := e in List.map (cons c) (rglob_rel pat m))
           es
  end.

(** [root.rglob(pat)]: nothing for a [root] that is no directory. *)
Definition rglob (n : node) (root : path) (pat : string) : list path :=
  match lookup n root with
  | Some (Dir es) => List.map (app root) (rglob_rel pat (Dir es))
  | _ => []
  end.

Fixpoint nodupb (l : list string) : bool :=
  match l with
  | [] => true
  | x :: l' => negb (List.existsb (String.eqb x) l') && nodupb l'
  end.

(** No directory lists a name twice. *)
Fixpoint wf (n : node) : bool :=
  match n with
  | File => true
  | Dir es =>
      nodupb (List.map fst es)
      && List.forallb (fun e : string * node => let '(_, m) := e in wf m) es
  end.

End FS.

(** ** Effects of a worker *)

Inductive level : Type := DEBUG | INFO | WARNING | ERROR.

(** The messages of the script's logging calls, one constructor per call,
    with the values the message interpolates. *)
Inductive message : Type :=
| CoverAlreadyExists (cover_jpg : path)
| ExtractingCoverArt (flac_path cover_jpg : path)
| CommandLine (cmd : list string)
| DryRunWouldExtract (cover_jpg : path)
| CoverExtractionFailed (flac_path : path) (e : exn)
| SkippingMetadataFile (name : string)
| AlreadyExistsSkipping (opus_path : path)
| Converting (flac_path : path)
| DryRunWouldConvert (flac_path opus_path : path)
| SuccessfullyCreated (opus_path : path)
| FFmpegError (flac_path : path) (returncode : Z)
| FFmpegStderr (stderr : string)
| UnexpectedError (flac_path : path) (e : exn)
| DirectoryNotFound (root : path)
| FoundFiles (total : nat) (root : path)
| WorkerException (flac : path) (exc : exn)
| ConversionComplete (converted skipped errors : nat).

(** How a spawned [ffmpeg] ends: it could not be started, or it ran and
    exited; [stdout] and [stderr] are the bytes it wrote to the two
    captured streams, and [wrote] tells whether it created its output
    file. *)
Inductive spawn_result : Type :=
| NotStarted (descr : string)
| Exited (returncode : Z) (stdout stderr : string) (wrote : bool).

(** What happened, in order: a question whether a path exists, with its
    answer or with the exception raised instead, a spawned command, a
    line of the log. *)
Inductive obs : Type :=
| Asked (p : path) (answer : bool)
| Refused (p : path) (e : exn)
| Spawned (argv : list string) (r : spawn_result)
| Logged (l : level) (m : message).

Record world : Type := mkWorld { fs : FS.node; trace : list obs }.

(** The external tool: how an invocation ends may depend on everything
    that is and that happened. *)
Definition tool : Type := world -> list string -> spawn_result.

Module Eff.

(** [SubprocessRun argv out] is [subprocess.run(argv, check=True,
    capture_output=True, text=True)] for a command whose last argument
    is [str(out)]: the tool writes to [out] or nowhere. *)
Inductive event : Type -> Type :=
| PathExists (p : path) : event (exn + bool)
| SubprocessRun (argv : list string) (out : path) : event spawn_result
| Logging (l : level) (m : message) : event unit.

Inductive prog (A : Type) : Type :=
| Ret (a : A)
| Raise (e : exn)
| Vis {X : Type} (ev : event X) (k : X -> prog A).

Arguments Ret {A} a.
Arguments Raise {A} e.
Arguments Vis {A X} ev k.

Fixpoint bind {A B : Type} (m : prog A) (f : A -> prog B) : prog B :=
  match m with
  | Ret a => f a
  | Raise e => Raise e
  | Vis ev k => Vis ev (fun x => bind (k x) f)
  end.

(** [try: body except Exception as e: handler(e)] *)
Fixpoint try_except {A : Type} (body : prog A) (handler : exn -> prog A) : prog A :=
  match body with
  | Ret a => Ret a
  | Raise e => handler e
  | Vis ev k => Vis ev (fun x => try_except (k x) handler)
  end.

Definition lift {A : Type} (r : exn + A) : prog A :=
  match r with inl e => Raise e | inr a => Ret a end.

(** [p.exists()] *)
Definition path_exists (p : path) : prog bool := Vis (PathExists p) lift.

Definition logging (l : level) (m : message) : prog unit := Vis (Logging l m) Ret.

(** What [subprocess.run] makes of the way the child ended: the
    [OSError] of a child that could not be started; with [text=True],
    the [UnicodeDecodeError] of a captured stream that cannot be decoded,
    the standard output first; with [check=True], the
    [CalledProcessError] of a non-zero exit status. *)
Definition run_result (argv : list string) (r : spawn_result) : exn + unit :=
  match r with
  | NotStarted descr => inl (OSError descr)
  | Exited rc stdout stderr _ =>
      match PyStr.decode stdout with
      | None => inl (UnicodeDecodeError stdout)
      | Some _ =>
          match PyStr.decode stderr with
          | None => inl (UnicodeDecodeError stderr)
          | Some text =>
              if (rc =? 0)%Z then inr tt else inl (CalledProcessError rc argv text)
          end
      end
  end.

Definition subprocess_run (argv : list string) (out : path) : prog unit :=
  Vis (SubprocessRun argv out) (fun r => lift (run_result argv r)).

(** [logging.basicConfig(level=logging.INFO)] *)
Definition enabled (l : level) : bool :=
  match l with DEBUG => false | _ => true end.

Definition record (o : obs) (w : world) : world :=
  {| fs := fs w; trace := trace w ++ [o] |}.

Definition log (l : level) (m : message) (w : world) : world :=
  if enabled l then record (Logged l m) w else w.

Definition wrote (r : spawn_result) : bool :=
  match r with Exited _ _ _ b => b | NotStarted _ => false end.

(** What a question whether [p] exists leaves on record. *)
Definition asked (p : path) (r : exn + bool) : obs :=
  match r with inr b => Asked p b | inl e => Refused p e end.

Definition handle (ffmpeg : tool) {X : Type} (ev : event X) (w : world) : X * world :=
  match ev in event X return X * world with
  | PathExists p =>
      let r := FS.path_exists (fs w) p in (r, record (asked p r) w)
  | SubprocessRun argv out =>
      let r := ffmpeg w argv in
      (r, {| fs := if wrote r then FS.add_file out (fs w) else fs w;
             trace := trace w ++ [Spawned argv r] |})
  | Logging l m => (tt, log l m w)
  end.

(** One process running a program to its end. *)
Fixpoint exec (ffmpeg : tool) {A : Type} (m : prog A) (w : world) : (exn + A) * world :=
  match m with
  | Ret a => (inr a, w)
  | Raise e => (inl e, w)
  | Vis ev k => let '(x, w') := handle ffmpeg ev w in exec ffmpeg (k x) w'
  end.

End Eff.

Import Eff.

#[global] Instance prog_ret : MRet prog := fun A a => Ret a.
#[global] Instance prog_bind : MBind prog := fun A B f m => bind m f.

(** ** The script *)

(** [extract_cover(flac_path, dry_run)]: extract embedded cover art (if
    present) to a [.jpg] alongside the FLAC file. *)
Definition extract_cover (flac_path : path) (dry_run : bool) : prog bool :=
  cover_jpg ← lift (PurePath.with_suffix flac_path ".jpg");
  already ← path_exists cover_jpg;
  if already : bool then
    logging DEBUG (CoverAlreadyExists cover_jpg);;
    mret false
  else
    let cmd :=
      ["ffmpeg";
       "-hide_banner"; "-loglevel"; "warning";
       "-i"; PurePath.str flac_path;
       "-map"; "0:v?";
       "-c:v"; "mjpeg";
       PurePath.str cover_jpg] in
    logging INFO (ExtractingCoverArt flac_path cover_jpg);;
    logging DEBUG (CommandLine cmd);;
    if dry_run then
      logging INFO (DryRunWouldExtract cover_jpg);;
      mret true
    else
      try_except
        (subprocess_run cmd cover_jpg;;
         mret true)
        (fun e =>
           logging WARNING (CoverExtractionFailed flac_path e);;
           mret false).

(** The command line of the audio conversion. *)
Definition transcode_cmd (flac_path opus_path : path) (bitrate : string) : list string :=
  ["ffmpeg";
   "-hide_banner"; "-loglevel"; "warning";
   "-f"; "flac";
   "-analyzeduration"; "10000000";
   "-probesize"; "20000000";
   "-i"; PurePath.str flac_path;
   "-map"; "0:a";
   "-map_metadata"; "0";
   "-c:a"; "libopus";
   "-b:a"; bitrate;
   "-vbr"; "on";
   "-threads"; "0";
   PurePath.str opus_path].

(** [convert_file(flac_path, bitrate, dry_run)]: transcode a single FLAC
    file to Opus; returns [(converted, skipped, error)]. *)
Definition convert_file (flac_path : path) (bitrate : string) (dry_run : bool)
  : prog (bool * bool * bool) :=
  opus_path ← lift (PurePath.with_suffix flac_path ".opus");
  if PyStr.startswith (PurePath.name flac_path) "._" then
    logging DEBUG (SkippingMetadataFile (PurePath.name flac_path));;
    mret (false, true, false)
  else
    already ← path_exists opus_path;
    if already : bool then
      logging DEBUG (AlreadyExistsSkipping opus_path);;
      mret (false, true, false)
    else
      extract_cover flac_path dry_run;;
      let cmd := transcode_cmd flac_path opus_path bitrate in
      logging INFO (Converting flac_path);;
      logging DEBUG (CommandLine cmd);;
      if dry_run then
        logging INFO (DryRunWouldConvert flac_path opus_path);;
        mret (true, false, false)
      else
        try_except
          (subprocess_run cmd opus_path;;
           logging INFO (SuccessfullyCreated opus_path);;
           mret (true, false, false))
          (fun e =>
             match e with
             | CalledProcessError returncode _ stderr =>
                 logging ERROR (FFmpegError flac_path returncode);;
                 (if String.eqb stderr "" then mret tt
                  else logging ERROR (FFmpegStderr (PyStr.strip stderr)));;
                 mret (false, false, true)
             | _ =>
                 logging ERROR (UnexpectedError flac_path e);;
                 mret (false, false, true)
             end).

(** [gather_flac_files(root)]: recursively collect all [.flac] files under
    the root directory. *)
Definition gather_flac_files (n : FS.node) (root : path) : list path :=
  FS.rglob n root "*.flac".

(** ** The process pool

    Every submitted task is a worker process running [convert_file]; the
    processes share the file system and take their steps in any order. A
    task waits in the queue until a worker is free and the tasks
    submitted before it have started. A schedule names the task that
    moves next. The parent handles a future when its task ends. *)

Inductive task : Type :=
| Waiting (m : prog (bool * bool * bool))
| Running (m : prog (bool * bool * bool))
| Finished.

(** What is left to run of a task. *)
Definition program (t : task) : option (prog (bool * bool * bool)) :=
  match t with
  | Waiting m => Some m
  | Running m => Some m
  | Finished => None
  end.

Definition is_running (t : task) : bool :=
  match t with Running _ => true | _ => false end.

Definition is_waiting (t : task) : bool :=
  match t with Waiting _ => true | _ => false end.

Record pool : Type := mkPool {
  max_workers : nat;
  files : list path;
  tasks : list task;
  completed : list (nat * (exn + bool * bool * bool));
  converted : nat;
  skipped : nat;
  errors : nat;
  now : world
}.

(** The body of the loop over [as_completed(futures)], for the future of
    [flac] with the result [r]. *)
Definition collect (flac : path) (r : exn + bool * bool * bool) (c : nat * nat * nat * world)
  : nat * nat * nat * world :=
  let '(converted, skipped, errors, w) := c in
  match r with
  | inr (did_convert, did_skip, did_error) =>
      if did_convert : bool then (converted + 1, skipped, errors, w)
      else if did_skip : bool then (converted, skipped + 1, errors, w)
      else if did_error : bool then (converted, skipped, errors + 1, w)
      else (converted, skipped, errors, w)
  | inl exc =>
      (converted, skipped, errors + 1, log ERROR (WorkerException flac exc) w)
  end.

(** [futures[future]] for the future of task [i]. *)
Definition file_of (flac_list : list path) (i : nat) : path :=
  match flac_list !! i with Some flac => flac | None => [] end.

(** The pool with task [i] in the state [t] and the world [w]. *)
Definition moved (i : nat) (t : task) (w : world) (st : pool) : pool :=
  {| max_workers := max_workers st;
     files := files st;
     tasks := <[i := t]> (tasks st);
     completed := completed st;
     converted := converted st; skipped := skipped st; errors := errors st;
     now := w |}.

(** Task [i] ends with [r] in the world [w]. *)
Definition complete (i : nat) (r : exn + bool * bool * bool) (w : world) (st : pool) : pool :=
  let flac := file_of (files st) i in
  let '(c, s, e, w') := collect flac r (converted st, skipped st, errors st, w) in
  {| max_workers := max_workers st;
     files := files st;
     tasks := <[i := Finished]> (tasks st);
     completed := completed st ++ [(i, r)];
     converted := c; skipped := s; errors := e;
     now := w' |}.

(** The number of tasks a worker is running. *)
Definition in_flight (st : pool) : nat := length (List.filter is_running (tasks st)).

(** Task [i] may leave the queue: a worker is free, and no task submitted
    before it still waits. *)
Definition may_start (st : pool) (i : nat) : bool :=
  Nat.ltb (in_flight st) (max_workers st)
  && List.forallb (fun t => negb (is_waiting t)) (List.firstn i (tasks st)).

(** Task [i] moves: it leaves the queue if it may, or takes one step. *)
Definition step (ffmpeg : tool) (st : pool) (i : nat) : pool :=
  match tasks st !! i with
  | Some (Waiting m) => if may_start st i then moved i (Running m) (now st) st else st
  | Some (Running m) =>
      match m with
      | Ret a => complete i (inr a) (now st) st
      | Raise e => complete i (inl e) (now st) st
      | Vis ev k =>
          let '(x, w') := handle ffmpeg ev (now st) in moved i (Running (k x)) w' st
      end
  | _ => st
  end.

(** Task [i] runs to its end. *)
Definition finish (ffmpeg : tool) (st : pool) (i : nat) : pool :=
  match tasks st !! i with
  | Some t =>
      match program t with
      | Some m => let '(r, w') := exec ffmpeg m (now st) in complete i r w' st
      | None => st
      end
  | None => st
  end.

(** [futures = {pool.submit(worker, flac): flac for flac in flac_list}]
    on a pool of [n] workers, with [converted = skipped = errors = 0]. *)
Definition submit (n : nat) (flac_list : list path) (bitrate : string) (dry_run : bool)
  (w : world) : pool :=
  {| max_workers := n;
     files := flac_list;
     tasks := List.map (fun flac => Waiting (convert_file flac bitrate dry_run)) flac_list;
     completed := [];
     converted := 0; skipped := 0; errors := 0;
     now := w |}.

(** The [with ProcessPoolExecutor(...)] block: the tasks move as the
    schedule says; leaving the block waits for the tasks not yet ended,
    which here run to their end one after the other. *)
Definition run_pool (ffmpeg : tool) (sched : list nat) (st : pool) : pool :=
  let st' := List.fold_left (step ffmpeg) sched st in
  List.fold_left (finish ffmpeg) (seq 0 (length (tasks st'))) st'.

(** [ProcessPoolExecutor(max_workers=jobs)]: the number of workers, or
    the [ValueError] for a count below one. *)
Definition ProcessPoolExecutor (jobs : Z) : exn + nat :=
  if (jobs <=? 0)%Z then inl (ValueError "max_workers must be greater than 0")
  else inr (Z.to_nat jobs).

Record args : Type := mkArgs {
  root : path;
  bitrate : string;
  jobs : Z;
  dry_run : bool
}.

(** How the process ends: its exit status, the number of files found (if
    the search was made), the counters of the summary line (if the line
    was reached), the exception that ended the process (if one did), and
    the world it leaves. *)
Record ending : Type := mkEnding {
  exit_status : Z;
  found : option nat;
  summary : option (nat * nat * nat);
  uncaught : option exn;
  final : world
}.

(** [main()], after the arguments are parsed. *)
Definition main (ffmpeg : tool) (a : args) (sched : list nat) (w : world) : ending :=
  if negb (FS.is_dir (fs w) (root a)) then
    {| exit_status := 1; found := None; summary := None; uncaught := None;
       final := log ERROR (DirectoryNotFound (root a)) w |}
  else
    let flac_list := gather_flac_files (fs w) (root a) in
    let total := length flac_list in
    let w1 := log INFO (FoundFiles total (root a)) w in
    if Nat.eqb total 0 then
      {| exit_status := 0; found := Some total; summary := None; uncaught := None;
         final := w1 |}
    else
      match ProcessPoolExecutor (jobs a) with
      | inl e =>
          {| exit_status := 1; found := Some total; summary := None; uncaught := Some e;
             final := w1 |}
      | inr n =>
          let st :=
            run_pool ffmpeg sched (submit n flac_list (bitrate a) (dry_run a) w1) in
          let w2 :=
            log INFO (ConversionComplete (converted st) (skipped st) (errors st)) (now st) in
          {| exit_status := if Nat.ltb 0 (errors st) then 1 else 0;
             found := Some total;
             summary := Some (converted st, skipped st, errors st);
             uncaught := None;
             final := w2 |}
      end.

(** ** Vocabulary of the properties *)

(** What a task hands to the parent: a raised exception or the returned
    tuple. *)
Definition result : Type := exn + bool * bool * bool.

Definition CONVERTED : bool * bool * bool := (true, false, false).
Definition SKIPPED : bool * bool * bool := (false, true, false).
Definition ERRORED : bool * bool * bool := (false, false, true).

(** Exactly one of the three booleans is [True]. *)
Definition exactly_one (t : bool * bool * bool) : bool :=
  let '(c, s, e) := t in
  Nat.eqb (Nat.b2n c + Nat.b2n s + Nat.b2n e) 1.

(** The state the parent files a result under. *)
Inductive state : Type := Converted | Skipped | Errored.

Definition classify (r : result) : option state :=
  match r with
  | inl _ => Some Errored
  | inr (did_convert, did_skip, did_error) =>
      if did_convert : bool then Some Converted
      else if did_skip : bool then Some Skipped
      else if did_error : bool then Some Errored
      else None
  end.

(** One more in the counter of a state. *)
Definition bump (s : state) (c : nat * nat * nat) : nat * nat * nat :=
  let '(converted, skipped, errors) := c in
  match s with
  | Converted => (converted + 1, skipped, errors)
  | Skipped => (converted, skipped + 1, errors)
  | Errored => (converted, skipped, errors + 1)
  end.

Definition counters (st : pool) : nat * nat * nat := (converted st, skipped st, errors st).

(** The counters after the results [rs], from zero. *)
Definition tally (rs : list result) : nat * nat * nat :=
  List.fold_left
    (fun c r => match classify r with Some s => bump s c | None => c end)
    rs (0, 0, 0).

(** The commands a world has seen spawned. *)
Definition spawned (w : world) : list (list string) :=
  List.flat_map (fun o => match o with Spawned argv _ => [argv] | _ => [] end) (trace w).

(** A program's promise for running next to other processes: started in
    [w], and with the others changing the world only along [R] between
    its steps, every step it takes changes the world along [G], and it
    ends with a result and in a world that [Q] accepts. *)
Fixpoint safe (ffmpeg : tool) (R G : world -> world -> Prop) (Q : world -> result -> Prop)
  (m : prog (bool * bool * bool)) (w : world) : Prop :=
  match m with
  | Ret a => Q w (inr a)
  | Raise e => Q w (inl e)
  | Vis ev k =>
      forall w1, R w w1 ->
        G w1 (snd (handle ffmpeg ev w1))
        /\ safe ffmpeg R G Q (k (fst (handle ffmpeg ev w1))) (snd (handle ffmpeg ev w1))
  end.

(** The invariant of a pool whose tasks keep such promises: [I] holds of
    the world, every running task is safe, every result is accepted. *)
Definition pool_inv (ffmpeg : tool) (R G : nat -> world -> world -> Prop)
  (Q : nat -> world -> result -> Prop) (I : world -> Prop) (st : pool) : Prop :=
  I (now st)
  /\ (forall i t m, tasks st !! i = Some t -> program t = Some m ->
        safe ffmpeg (R i) (G i) (Q i) m (now st))
  /\ (forall i r, In (i, r) (completed st) -> Q i (now st) r).

(** The bookkeeping of a pool: one task per file, every ended task has
    exactly one result on record, and the counters are those of the
    results. *)
Definition pool_book (st : pool) : Prop :=
  length (tasks st) = length (files st)
  /\ NoDup (List.map fst (completed st))
  /\ (forall i, In i (List.map fst (completed st)) <-> tasks st !! i = Some Finished)
  /\ counters st = tally (List.map snd (completed st)).

Definition valid (r : result) : Prop :=
  match r with inr t => exactly_one t = true | inl _ => True end.

(** What the rest of the pool needs of a task [i] that moves the world. *)
Definition bystanders (ffmpeg : tool) (R G : nat -> world -> world -> Prop)
  (Q : nat -> world -> result -> Prop) (I : world -> Prop)
  (i : nat) (st : pool) (w : world) : Prop :=
  I w
  /\ (forall j t m, j <> i -> tasks st !! j = Some t -> program t = Some m ->
        safe ffmpeg (R j) (G j) (Q j) m w)
  /\ (forall j r, In (j, r) (completed st) -> Q j w r).

Fixpoint last_char (s : string) : option ascii :=
  match s with
  | EmptyString => None
  | String a s' => match last_char s' with Some b => Some b | None => Some a end
  end.

Definition kind (o : option FS.node) : option bool :=
  match o with
  | Some (FS.Dir _) => Some true
  | Some FS.File => Some false
  | None => None
  end.

(** [add_file q n] creates something. *)
Definition created (q : path) (n : FS.node) : bool :=
  negb (FS.exists_ n q) && FS.is_dir n (PurePath.parent q).

(** The output path of the conversion of [flac], and its cover path. *)
Definition opus_of (flac : path) : path :=
  match PurePath.with_suffix flac ".opus" with inr p => p | inl _ => [] end.

Definition jpg_of (flac : path) : path :=
  match PurePath.with_suffix flac ".jpg" with inr p => p | inl _ => [] end.

(** The two checks that make [convert_file] skip a file. *)
Definition would_skip (n : FS.node) (flac : path) : bool :=
  PyStr.startswith (PurePath.name flac) "._" || FS.exists_ n (opus_of flac).

(** Nothing but the log and the record of questions changes. *)
Definition quiet (w w' : world) : Prop := fs w' = fs w /\ spawned w' = spawned w.

Definition same_files (w w' : world) : Prop := fs w' = fs w.

(** What [convert_file] hands back for [flac] in the tree [n] when it
    runs no tool: the tuple of a skipped file for a sidecar file and for
    a file whose output exists, the exception of the check for the
    output when that check raises, the tuple of a converted file
    otherwise. *)
Definition quiet_result (n : FS.node) (flac : path) : result :=
  if PyStr.startswith (PurePath.name flac) "._" then inr SKIPPED
  else
    match FS.path_exists n (opus_of flac) with
    | inl e => inl e
    | inr true => inr SKIPPED
    | inr false => inr CONVERTED
    end.

Definition is_state (s : state) (r : result) : bool :=
  match classify r, s with
  | Some Converted, Converted => true
  | Some Skipped, Skipped => true
  | Some Errored, Errored => true
  | _, _ => false
  end.

(** How many of the results the parent files under [s]. *)
Definition count (s : state) (rs : list result) : nat :=
  length (List.filter (is_state s) rs).

(** The world moves on without a change at [p]. *)
Definition keeps (p : path) (w w' : world) : Prop :=
  FS.exists_ (fs w') p = FS.exists_ (fs w) p.

(** The world moves on with changes at the paths [ps] at most. *)
Definition touches (ps : list path) (w w' : world) : Prop :=
  forall q, FS.exists_ (fs w') q <> FS.exists_ (fs w) q -> In q ps.

(** An exception, or a returned tuple with one flag: the tuple of a
    skipped file exactly when [would_skip] says so. *)
Definition skip_iff (n : FS.node) (flac : path) (r : result) : Prop :=
  valid r /\ (r = inr SKIPPED <-> would_skip n flac = true).

(** The world moves on by new files that the search from [root] does not
    report: what existed exists, directories are the same, the search
    finds the same. *)
Definition grows (root : path) (w w' : world) : Prop :=
  (forall q, FS.exists_ (fs w) q = true -> FS.exists_ (fs w') q = true)
  /\ (forall q, FS.is_dir (fs w') q = FS.is_dir (fs w) q)
  /\ gather_flac_files (fs w') root = gather_flac_files (fs w) root.

(** The tool's part of the bargain: a conversion that exits with status
    0 has written its output file. *)
Definition creates_output (ffmpeg : tool) : Prop :=
  forall w flac opus br stdout stderr b,
    ffmpeg w (transcode_cmd flac opus br) = Exited 0 stdout stderr b -> b = true.

(** After a result other than an error the file is one to skip. *)
Definition settled (flac : path) (w : world) (r : result) : Prop :=
  r = inr CONVERTED \/ r = inr SKIPPED -> would_skip (fs w) flac = true.

(** The counters of an ending; zero where the summary was not reached. *)
Definition n_converted (e : ending) : nat :=
  match summary e with Some (c, _, _) => c | None => 0 end.
Definition n_skipped (e : ending) : nat :=
  match summary e with Some (_, s, _) => s | None => 0 end.
Definition n_errors (e : ending) : nat :=
  match summary e with Some (_, _, x) => x | None => 0 end.

(** The world in which [main] starts its pool, and the pool it ends
    with. *)
Definition pool_start (a : args) (w : world) : world :=
  log INFO (FoundFiles (length (gather_flac_files (fs w) (root a))) (root a)) w.

Definition pool_end (ffmpeg : tool) (a : args) (sched : list nat) (w : world) : pool :=
  run_pool ffmpeg sched
    (submit (Z.to_nat (jobs a)) (gather_flac_files (fs w) (root a)) (bitrate a) (dry_run a)
       (pool_start a w)).

(** The command line of the cover extraction. *)
Definition cover_cmd (flac_path cover_jpg : path) : list string :=
  ["ffmpeg";
   "-hide_banner"; "-loglevel"; "warning";
   "-i"; PurePath.str flac_path;
   "-map"; "0:v?";
   "-c:v"; "mjpeg";
   PurePath.str cover_jpg].

(** [subprocess.run] raises for a child that ended as [r]: it was not
    started, what it wrote is no text, or its exit status is not 0. *)
Definition failed (r : spawn_result) : bool :=
  match r with
  | NotStarted _ => true
  | Exited rc stdout stderr _ =>
      negb (PyStr.valid_utf8 stdout && PyStr.valid_utf8 stderr && (rc =? 0)%Z)
  end.

(** What the handlers of [convert_file] log for the exception [e] of the
    conversion. *)
Definition report_failure (flac : path) (e : exn) (w : world) : world :=
  match e with
  | CalledProcessError rc _ stderr =>
      let w1 := log ERROR (FFmpegError flac rc) w in
      if String.eqb stderr "" then w1
      else log ERROR (FFmpegStderr (PyStr.strip stderr)) w1
  | _ => log ERROR (UnexpectedError flac e) w
  end.

(** The arguments with the [--dry-run] flag set or cleared. *)
Definition set_dry_run (a : args) (b : bool) : args :=
  {| root := root a; bitrate := bitrate a; jobs := jobs a; dry_run := b |}.

(** The check for the output of [flac] is made, and raises. *)
Definition refused (n : FS.node) (flac : path) : bool :=
  negb (PyStr.startswith (PurePath.name flac) "._")
  && match FS.path_exists n (opus_of flac) with inl _ => true | inr _ => false end.

(** What is on record stays on record. *)
Definition remembers (w w' : world) : Prop :=
  forall o, In o (trace w) -> In o (trace w').

(** The world moves on by new files only, at the paths [ps] at most, and
    no search finds anything else than before. *)
Definition adds_within (ps : list path) (w w' : world) : Prop :=
  (forall dir, grows dir w w') /\ touches ps w w'.

(** The conversion of [flac] is on record, ended well ([ok]) or not. *)
Definition transcoded (flac : path) (br : string) (ok : bool) (w : world) : Prop :=
  exists r,
    In (Spawned (transcode_cmd flac (opus_of flac) br) r) (trace w) /\ failed r = negb ok.

(** One of the two checks of [flac], for its output or for its cover, is
    on record with the exception [exc] it raised. *)
Definition check_refused (flac : path) (exc : exn) (w : world) : Prop :=
  exists p, (p = opus_of flac \/ p = jpg_of flac) /\ In (Refused p exc) (trace w).

(** A result with its cause behind it: an exception is what a check
    raised, an error tuple comes from a run that is not dry and a
    conversion for which [subprocess.run] raised, a converted tuple from
    a dry run or a conversion for which it returned. *)
Definition accounted (flac : path) (br : string) (dry : bool) (w : world) (r : result)
  : Prop :=
  valid r
  /\ (forall exc, r = inl exc -> check_refused flac exc w)
  /\ (r = inr ERRORED -> dry = false /\ transcoded flac br false w)
  /\ (r = inr CONVERTED -> dry = true \/ transcoded flac br true w).

(** The result is filed as converted or as skipped. *)
Definition done (r : result) : bool := is_state Converted r || is_state Skipped r.

(** The loop [for flac in flac_list: count(convert_file(flac, bitrate,
    dry_run))] in one process: the counters and the world it leaves. *)
Definition one_by_one (ffmpeg : tool) (br : string) (dry : bool) (flac_list : list path)
  (c : nat * nat * nat * world) : nat * nat * nat * world :=
  List.fold_left
    (fun (c : nat * nat * nat * world) flac =>
       let '(cv, sk, er, w) := c in
       let '(r, w') := exec ffmpeg (convert_file flac br dry) w in
       collect flac r (cv, sk, er, w'))
    flac_list c.

(** Leaving the [with] block: every task not yet ended runs to its end. *)
Definition drain (ffmpeg : tool) (st : pool) : pool :=
  List.fold_left (finish ffmpeg) (seq 0 (length (tasks st))) st.

(** The counters of a pool and its world. *)
Definition outcome (st : pool) : nat * nat * nat * world :=
  (converted st, skipped st, errors st, now st).

(** The tasks of a pool with one worker: the tasks before [k] have ended,
    the tasks after [k] wait, and task [k] waits or runs. *)
Definition queue_at (k : nat) (ts : list task) : Prop :=
  (forall j, j < k -> ts !! j = Some Finished)
  /\ (forall j t, k < j -> ts !! j = Some t -> is_waiting t = true)
  /\ (forall t, ts !! k = Some t -> t <> Finished).

(** Tasks leave the queue in the order of submission. *)
Definition in_order (ts : list task) : Prop :=
  forall i j t t', i < j -> ts !! i = Some t -> ts !! j = Some t' ->
    is_waiting t = true -> is_waiting t' = true.

(** The world moves on with no other command spawned than the two of
    [flac]. *)
Definition spawns_for (flac : path) (br : string) (w w' : world) : Prop :=
  forall argv, In argv (spawned w') ->
    In argv (spawned w)
    \/ argv = cover_cmd flac (jpg_of flac)
    \/ argv = transcode_cmd flac (opus_of flac) br.

(** The record of [w'] is the record of [w] with more at its end. *)
Definition extends (w w' : world) : Prop := exists more, trace w' = trace w ++ more.


(** A tree to run the script on: an album with a file to convert, a file
    already converted, a file the tool fails on, a sidecar file, a file
    with an upper-case extension, and a subdirectory. *)
Definition demo_tree : FS.node :=
  FS.Dir
    [("music",
      FS.Dir
        [("a.flac", FS.File);
         ("b.flac", FS.File);
         ("b.opus", FS.File);
         ("c.flac", FS.File);
         ("._d.flac", FS.File);
         ("song.FLAC", FS.File);
         ("live", FS.Dir [("e.flac", FS.File)])])].

Definition demo_world : world := mkWorld demo_tree [].

(** A tool that fails on [c.flac] and does its work on every other file. *)
Definition demo_tool : tool :=
  fun _ argv =>
    if List.existsb (String.eqb "music/c.flac") argv
    then Exited 1 "" "Invalid data found when processing input" false
    else Exited 0 "" "" true.

(** A tool that finds no cover to extract but converts the audio. *)
Definition no_cover_tool : tool :=
  fun _ argv =>
    if List.existsb (String.eqb "mjpeg") argv
    then Exited 1 "" "Output file does not contain any stream" false
    else Exited 0 "" "" true.

(** A tool that does its work on every file. *)
Definition good_tool : tool := fun _ _ => Exited 0 "" "" true.

(** A tool that does its work and exits with status 0, but writes a
    byte that is no UTF-8 to its error stream. *)
Definition garbled_tool : tool :=
  fun _ _ => Exited 0 "" (String "255"%char "") true.

(** A name of 255 bytes, the longest a directory takes: with a suffix
    added it is too long. *)
Definition long_name : string := String.concat "" (List.repeat "x" 255).

(** A tree with a file whose output names are too long. *)
Definition long_tree : FS.node :=
  FS.Dir [("music", FS.Dir [((long_name ++ ".flac")%string, FS.File); ("a.flac", FS.File)])].

Definition long_world : world := mkWorld long_tree [].

(** The error of [os.stat] for a name too long. *)
Definition ENAMETOOLONG (p : path) : exn :=
  OSError ("[Errno 36] File name too long: '" ++ PurePath.str p ++ "'").

Definition demo_args : args :=
  {| root := ["music"]; bitrate := "192k"; jobs := 4; dry_run := false |}.

(** Workers taking turns, then ending one after the other. *)
Definition demo_sched : list nat := [0; 1; 2; 3; 4; 4; 3; 2; 1; 0; 0; 2; 4].

(** The same arguments with a worker count no pool accepts. *)
Definition no_worker_args : args :=
  {| root := ["music"]; bitrate := "192k"; jobs := 0; dry_run := false |}.

(** A directory with the two files whose outputs collide. *)
Definition dotfile_tree : FS.node :=
  FS.Dir [("music", FS.Dir [(".flac", FS.File); (".flac.flac", FS.File)])].

(** The arguments of the demonstration with one worker. *)
Definition one_worker_args : args :=
  {| root := ["music"]; bitrate := "192k"; jobs := 1; dry_run := false |}.

(** * Proofs *)

(** ** The bookkeeping of the pool *)

Lemma collect_counters flac r c s e w :
  fst (collect flac r (c, s, e, w))
  = match classify r with Some x => bump x (c, s, e) | None => (c, s, e) end.
Proof.
  destruct r as [exc | [[[] []] []]]; reflexivity.
Qed.

Lemma tally_snoc rs r :
  tally (rs ++ [r])
  = match classify r with Some x => bump x (tally rs) | None => tally rs end.
Proof. unfold tally. rewrite fold_left_app. reflexivity. Qed.

Lemma complete_tasks i r w st : tasks (complete i r w st) = <[i := Finished]> (tasks st).
Proof.
  unfold complete. destruct (collect _ _ _) as [[[c s] e] w']. reflexivity.
Qed.

Lemma complete_completed i r w st :
  completed (complete i r w st) = completed st ++ [(i, r)].
Proof.
  unfold complete. destruct (collect _ _ _) as [[[c s] e] w']. reflexivity.
Qed.

Lemma complete_files i r w st : files (complete i r w st) = files st.
Proof.
  unfold complete. destruct (collect _ _ _) as [[[c s] e] w']. reflexivity.
Qed.

Lemma complete_counters i r w st :
  counters (complete i r w st)
  = match classify r with Some x => bump x (counters st) | None => counters st end.
Proof.
  unfold complete, counters.
  pose proof (collect_counters (file_of (files st) i) r
                (converted st) (skipped st) (errors st) w) as H.
  destruct (collect _ _ _) as [[[c s] e] w']. simpl in *. exact H.
Qed.

Lemma complete_now i r w st :
  now (complete i r w st) = w
  \/ exists flac exc,
       r = inl exc /\ now (complete i r w st) = log ERROR (WorkerException flac exc) w.
Proof.
  unfold complete, collect.
  destruct r as [exc | [[[] []] []]]; simpl; eauto.
Qed.

Lemma moved_tasks i t w st : tasks (moved i t w st) = <[i := t]> (tasks st).
Proof. reflexivity. Qed.

Lemma complete_book i r w t m st :
  pool_book st -> tasks st !! i = Some t -> program t = Some m ->
  pool_book (complete i r w st).
Proof.
  intros (Hlen & Hnd & Hfin & Hcnt) Hi Hm.
  assert (Hlt : i < length (tasks st)) by (eapply lookup_lt_Some; eauto).
  unfold pool_book.
  rewrite complete_tasks, complete_completed, complete_files, complete_counters.
  rewrite !map_app. cbn [List.map fst snd]. split; [| split; [| split]].
  - rewrite length_insert. exact Hlen.
  - apply NoDup_app. split; [exact Hnd|]. split.
    + intros j Hj Hj'. apply list_elem_of_In in Hj. apply list_elem_of_singleton in Hj'.
      subst j. apply Hfin in Hj. rewrite Hi in Hj. inversion Hj; subst. discriminate.
    + apply NoDup_singleton.
  - intros j. rewrite in_app_iff. cbn [In]. destruct (decide (j = i)) as [-> | Hne].
    + rewrite list_lookup_insert_eq by exact Hlt. tauto.
    + rewrite list_lookup_insert_ne by congruence. rewrite Hfin. intuition congruence.
  - rewrite tally_snoc, Hcnt. reflexivity.
Qed.

Lemma moved_book i t t' w m st :
  pool_book st -> tasks st !! i = Some t -> program t = Some m -> t' <> Finished ->
  pool_book (moved i t' w st).
Proof.
  intros (Hlen & Hnd & Hfin & Hcnt) Hi Hm Ht'.
  unfold pool_book, counters in *. simpl.
  split; [| split; [| split]]; try assumption.
  - rewrite length_insert. exact Hlen.
  - intros j. rewrite Hfin. destruct (decide (j = i)) as [-> | Hne].
    + rewrite list_lookup_insert_eq by (eapply lookup_lt_Some; eauto).
      rewrite Hi. split; intros H; inversion H; subst; [discriminate | congruence].
    + rewrite list_lookup_insert_ne by congruence. reflexivity.
Qed.

Lemma step_book ffmpeg st i : pool_book st -> pool_book (step ffmpeg st i).
Proof.
  intros Hb. unfold step.
  destruct (tasks st !! i) as [[m | m |] |] eqn:Hi; try exact Hb.
  - destruct (may_start st i); [| exact Hb].
    apply (moved_book i _ _ _ m st Hb Hi eq_refl). discriminate.
  - destruct m as [a | e | X ev k].
    + apply (complete_book i _ _ _ _ st Hb Hi eq_refl).
    + apply (complete_book i _ _ _ _ st Hb Hi eq_refl).
    + destruct (handle ffmpeg ev (now st)) as [x w'].
      apply (moved_book i _ _ _ _ st Hb Hi eq_refl). discriminate.
Qed.

Lemma finish_book ffmpeg st i : pool_book st -> pool_book (finish ffmpeg st i).
Proof.
  intros Hb. unfold finish.
  destruct (tasks st !! i) as [t |] eqn:Hi; [| exact Hb].
  destruct (program t) as [m |] eqn:Hm; [| exact Hb].
  destruct (exec ffmpeg m (now st)) as [r w'].
  eapply complete_book; eauto.
Qed.

Lemma fold_step_book ffmpeg sched st :
  pool_book st -> pool_book (fold_left (step ffmpeg) sched st).
Proof.
  revert st. induction sched as [| i sched IH]; intros st Hb; simpl; [exact Hb|].
  apply IH, step_book, Hb.
Qed.

Lemma fold_finish_book ffmpeg l st :
  pool_book st -> pool_book (fold_left (finish ffmpeg) l st).
Proof.
  revert st. induction l as [| i l IH]; intros st Hb; simpl; [exact Hb|].
  apply IH, finish_book, Hb.
Qed.

Lemma finish_length ffmpeg st i : length (tasks (finish ffmpeg st i)) = length (tasks st).
Proof.
  unfold finish. destruct (tasks st !! i) as [t |]; [| reflexivity].
  destruct (program t) as [m |]; [| reflexivity].
  destruct (exec ffmpeg m (now st)) as [r w'].
  rewrite complete_tasks, length_insert. reflexivity.
Qed.

Lemma finish_finished ffmpeg st i j :
  tasks st !! j = Some Finished -> tasks (finish ffmpeg st i) !! j = Some Finished.
Proof.
  intros Hj. unfold finish. destruct (tasks st !! i) as [t |] eqn:Hi; [| exact Hj].
  destruct (program t) as [m |] eqn:Hm; [| exact Hj].
  destruct (exec ffmpeg m (now st)) as [r w'].
  rewrite complete_tasks. destruct (decide (i = j)) as [-> | Hne].
  - apply list_lookup_insert_eq. eapply lookup_lt_Some; eauto.
  - rewrite list_lookup_insert_ne by exact Hne. exact Hj.
Qed.

Lemma finish_self ffmpeg st i :
  i < length (tasks st) -> tasks (finish ffmpeg st i) !! i = Some Finished.
Proof.
  intros Hlt. unfold finish.
  destruct (tasks st !! i) as [t |] eqn:Hi.
  - destruct (program t) as [m |] eqn:Hm.
    + destruct (exec ffmpeg m (now st)) as [r w'].
      rewrite complete_tasks. apply list_lookup_insert_eq. exact Hlt.
    + destruct t; try discriminate. exact Hi.
  - apply lookup_ge_None in Hi. lia.
Qed.

Lemma fold_finish_finished ffmpeg l st j :
  tasks st !! j = Some Finished ->
  tasks (fold_left (finish ffmpeg) l st) !! j = Some Finished.
Proof.
  revert st. induction l as [| i l IH]; intros st Hj; simpl; [exact Hj|].
  apply IH, finish_finished, Hj.
Qed.

Lemma fold_finish_length ffmpeg l st :
  length (tasks (fold_left (finish ffmpeg) l st)) = length (tasks st).
Proof.
  revert st. induction l as [| i l IH]; intros st; simpl; [reflexivity|].
  rewrite IH. apply finish_length.
Qed.

Lemma fold_finish_all ffmpeg l st j :
  In j l -> j < length (tasks st) ->
  tasks (fold_left (finish ffmpeg) l st) !! j = Some Finished.
Proof.
  revert st. induction l as [| i l IH]; intros st Hin Hlt; simpl; [destruct Hin|].
  destruct Hin as [-> | Hin].
  - apply fold_finish_finished, finish_self, Hlt.
  - apply IH; [exact Hin|]. rewrite finish_length. exact Hlt.
Qed.

Lemma step_length ffmpeg st i : length (tasks (step ffmpeg st i)) = length (tasks st).
Proof.
  unfold step. destruct (tasks st !! i) as [[m | m |] |]; try reflexivity.
  - destruct (may_start st i); [apply length_insert | reflexivity].
  - destruct m as [a | e | X ev k].
    + rewrite complete_tasks. apply length_insert.
    + rewrite complete_tasks. apply length_insert.
    + destruct (handle ffmpeg ev (now st)). apply length_insert.
Qed.

Lemma fold_step_length ffmpeg sched st :
  length (tasks (fold_left (step ffmpeg) sched st)) = length (tasks st).
Proof.
  revert st. induction sched as [| i l IH]; intros st; simpl; [reflexivity|].
  rewrite IH. apply step_length.
Qed.

Lemma run_pool_length ffmpeg sched st :
  length (tasks (run_pool ffmpeg sched st)) = length (tasks st).
Proof. unfold run_pool. rewrite fold_finish_length. apply fold_step_length. Qed.

Lemma run_pool_book ffmpeg sched st : pool_book st -> pool_book (run_pool ffmpeg sched st).
Proof. intros Hb. unfold run_pool. apply fold_finish_book, fold_step_book, Hb. Qed.

Lemma run_pool_all_finished ffmpeg sched st j :
  j < length (tasks st) -> tasks (run_pool ffmpeg sched st) !! j = Some Finished.
Proof.
  intros Hlt. unfold run_pool. apply fold_finish_all.
  - apply in_seq. rewrite fold_step_length. lia.
  - rewrite fold_step_length. exact Hlt.
Qed.

Lemma submit_book n flac_list br dry w : pool_book (submit n flac_list br dry w).
Proof.
  unfold pool_book, submit, counters. simpl. split; [| split; [| split]].
  - apply length_map.
  - constructor.
  - intros i. split; [intros []|]. intros Hi.
    rewrite list_lookup_fmap in Hi. destruct (flac_list !! i); discriminate.
  - reflexivity.
Qed.

(** Every task of a pool that has run has exactly one result on record. *)
Lemma run_pool_completed ffmpeg sched n flac_list br dry w :
  let st := run_pool ffmpeg sched (submit n flac_list br dry w) in
  Permutation (List.map fst (completed st)) (seq 0 (length flac_list))
  /\ counters st = tally (List.map snd (completed st)).
Proof.
  intros st.
  pose proof (run_pool_book ffmpeg sched _ (submit_book n flac_list br dry w)) as Hb.
  fold st in Hb. destruct Hb as (Hlen & Hnd & Hfin & Hcnt).
  split; [| exact Hcnt].
  apply NoDup_Permutation; [exact Hnd | apply NoDup_seq |].
  intros i. rewrite !list_elem_of_In, Hfin, in_seq.
  assert (Hl : length (tasks st) = length flac_list).
  { unfold st. rewrite run_pool_length. unfold submit. simpl. apply length_map. }
  split.
  - intros Hi. apply lookup_lt_Some in Hi. lia.
  - intros Hi. apply run_pool_all_finished. unfold submit. simpl. rewrite length_map. lia.
Qed.

(** *** The bound on the workers *)

Lemma in_flight_insert ts : forall i t t',
  ts !! i = Some t ->
  length (List.filter is_running (<[i := t']> ts)) + Nat.b2n (is_running t)
  = length (List.filter is_running ts) + Nat.b2n (is_running t').
Proof.
  induction ts as [| t0 ts IH]; intros i t t' Hi; [discriminate|].
  destruct i as [| i]; simpl in *.
  - inversion Hi; subst. destruct (is_running t), (is_running t'); simpl; lia.
  - specialize (IH i t t' Hi). destruct (is_running t0); simpl; lia.
Qed.

Lemma complete_max_workers i r w st : max_workers (complete i r w st) = max_workers st.
Proof.
  unfold complete. destruct (collect _ _ _) as [[[c s] e] w']. reflexivity.
Qed.

Lemma complete_in_flight i r w t st :
  tasks st !! i = Some t -> in_flight (complete i r w st) <= in_flight st.
Proof.
  intros Hi. unfold in_flight. rewrite complete_tasks.
  pose proof (in_flight_insert (tasks st) i t Finished Hi) as H. simpl in H. lia.
Qed.

Lemma step_bounded ffmpeg st i :
  in_flight st <= max_workers st ->
  in_flight (step ffmpeg st i) <= max_workers (step ffmpeg st i).
Proof.
  intros Hb. unfold step.
  destruct (tasks st !! i) as [[m | m |] |] eqn:Hi; try exact Hb.
  - destruct (may_start st i) eqn:Hs; [| exact Hb].
    unfold may_start in Hs. apply andb_true_iff in Hs. destruct Hs as [Hlt _].
    apply Nat.ltb_lt in Hlt. unfold in_flight in *. simpl.
    pose proof (in_flight_insert (tasks st) i _ (Running m) Hi) as H. simpl in H. lia.
  - destruct m as [a | e | X ev k].
    + rewrite complete_max_workers. pose proof (complete_in_flight i (inr a) (now st) _ st Hi).
      lia.
    + rewrite complete_max_workers. pose proof (complete_in_flight i (inl e) (now st) _ st Hi).
      lia.
    + destruct (handle ffmpeg ev (now st)) as [x w']. unfold in_flight in *. simpl.
      pose proof (in_flight_insert (tasks st) i _ (Running (k x)) Hi) as H. simpl in H. lia.
Qed.

Lemma step_max_workers ffmpeg st i : max_workers (step ffmpeg st i) = max_workers st.
Proof.
  unfold step. destruct (tasks st !! i) as [[m | m |] |]; try reflexivity.
  - destruct (may_start st i); reflexivity.
  - destruct m as [a | e | X ev k]; try apply complete_max_workers.
    destruct (handle ffmpeg ev (now st)). reflexivity.
Qed.

Lemma submit_in_flight n flac_list br dry w : in_flight (submit n flac_list br dry w) = 0.
Proof.
  unfold in_flight, submit. simpl. induction flac_list as [| f l IH]; simpl; auto.
Qed.

(** Whatever the schedule, no more tasks are in the hands of a worker
    than the pool has workers. *)
Lemma pool_bounded ffmpeg n flac_list br dry w sched :
  in_flight (fold_left (step ffmpeg) sched (submit n flac_list br dry w)) <= n.
Proof.
  assert (H : forall l st, in_flight st <= max_workers st ->
                in_flight (fold_left (step ffmpeg) l st) <= max_workers st).
  { induction l as [| i l IH]; intros st Hb; simpl; [exact Hb|].
    rewrite <- (step_max_workers ffmpeg st i). apply IH, step_bounded, Hb. }
  apply (H sched (submit n flac_list br dry w)).
  rewrite submit_in_flight. simpl. lia.
Qed.

(** ** Promises kept in a pool *)

(** The three ways a question whether a path exists ends. *)
Lemma path_exists_cases n p :
  (exists e, FS.path_exists n p = inl e
             /\ FS.exists_ n p = false /\ FS.name_too_long n p = true)
  \/ (FS.path_exists n p = inr true
      /\ FS.exists_ n p = true /\ FS.name_too_long n p = false)
  \/ (FS.path_exists n p = inr false
      /\ FS.exists_ n p = false /\ FS.name_too_long n p = false).
Proof.
  assert (Hlong : FS.name_too_long n p = true -> FS.exists_ n p = false).
  { unfold FS.exists_. revert n.
    induction p as [|c p IH]; intros n H; simpl in *; [discriminate|].
    destruct n as [|es]; [reflexivity|].
    destruct (FS.assoc c es) as [m|]; [apply IH, H | reflexivity]. }
  unfold FS.path_exists. destruct (FS.name_too_long n p) eqn:Hl.
  - left. eexists. split; [reflexivity|]. split; [apply Hlong | ]; reflexivity.
  - right. destruct (FS.exists_ n p); [left | right]; auto.
Qed.

Ltac unfold_script :=
  unfold convert_file, extract_cover, subprocess_run, logging, path_exists, lift,
    mbind, mret, prog_bind, prog_ret.

Ltac script_cbn := cbn [safe bind try_except handle fst snd asked].

Ltac destruct_head t :=
  lazymatch t with
  | bind ?m _ => destruct_head m
  | try_except ?m _ => destruct_head m
  | match ?x with _ => _ end => destruct x eqn:?
  end.

(** The cases of the question the program asks next. *)
Ltac asked_cases :=
  lazymatch goal with
  | |- context [FS.path_exists ?n ?p] =>
      let H := fresh "Hask" in
      destruct (path_exists_cases n p) as [(? & H & ? & ?) | [(H & ? & ?) | (H & ? & ?)]];
      rewrite !H; script_cbn
  end.

(** Walks a program of the script under [safe]: case by case, with [tac]
    for what every step and every result have to satisfy, and for the
    cases that the hypotheses rule out. *)
Ltac safe_walk tac :=
  script_cbn;
  lazymatch goal with
  | |- safe _ _ _ _ (Vis _ _) _ => fail "stuck"
  | |- safe _ _ _ _ ?m _ => destruct_head m; first [ solve [exfalso; tac] | safe_walk tac ]
  | |- forall w1, _ -> _ /\ _ =>
      intros ? ?; script_cbn; try asked_cases;
      first [ solve [exfalso; tac] | split; [tac | safe_walk tac] ]
  | |- _ => tac
  end.

Lemma convert_file_valid ffmpeg flac br dry w :
  safe ffmpeg (fun _ _ => True) (fun _ _ => True) (fun _ r => valid r)
    (convert_file flac br dry) w.
Proof.
  unfold_script.
  safe_walk ltac:(first [ exact I | reflexivity ]).
Qed.

Section Promises.

Variable ffmpeg : tool.
Variables R G : nat -> world -> world -> Prop.
Variable Q : nat -> world -> result -> Prop.
Variable I : world -> Prop.

Hypothesis R_refl : forall i w, R i w w.
Hypothesis R_trans : forall i w1 w2 w3, R i w1 w2 -> R i w2 w3 -> R i w1 w3.
Hypothesis R_log : forall i w l m, R i w (log l m w).
Hypothesis G_R : forall i j w w', i <> j -> G j w w' -> R i w w'.
Hypothesis Q_stable : forall i w w' r, Q i w r -> R i w w' -> Q i w' r.
Hypothesis I_G : forall i w w', I w -> G i w w' -> I w'.
Hypothesis I_log : forall w l m, I w -> I (log l m w).

Lemma safe_stable i m w w' :
  safe ffmpeg (R i) (G i) (Q i) m w -> R i w w' -> safe ffmpeg (R i) (G i) (Q i) m w'.
Proof.
  destruct m as [a | e | X ev k]; simpl; intros Hs Hr; eauto.
Qed.

Local Abbreviation others := (bystanders ffmpeg R G Q I).

Lemma bystanders_now i st :
  pool_inv ffmpeg R G Q I st -> others i st (now st).
Proof. intros (HI & Hs & Hc). split; [exact HI|]. split; eauto. Qed.

Lemma bystanders_G i st t m w w' :
  pool_book st -> tasks st !! i = Some t -> program t = Some m ->
  others i st w -> G i w w' -> others i st w'.
Proof.
  intros (_ & _ & Hfin & _) Hi Hm (HI & Hs & Hc) Hg. split; [eauto|]. split.
  - intros j t' m' Hne Hj Hm'. eapply safe_stable; eauto.
  - intros j r Hin. eapply Q_stable; [eauto|]. eapply G_R; [|exact Hg].
    intros <-. assert (Hf : tasks st !! j = Some Finished).
    { apply Hfin. apply in_map_iff. exists (j, r). auto. }
    rewrite Hi in Hf. inversion Hf; subst. discriminate.
Qed.

Lemma bystanders_log i st w l m : others i st w -> others i st (log l m w).
Proof.
  intros (HI & Hs & Hc). split; [eauto|]. split.
  - intros j t m' Hne Hj Hm'. eapply safe_stable; eauto.
  - intros j r Hin. eapply Q_stable; eauto.
Qed.

Lemma complete_inv i r w st :
  others i st w -> Q i w r -> pool_inv ffmpeg R G Q I (complete i r w st).
Proof.
  intros Hby Hq.
  assert (Hw : others i st (now (complete i r w st))
               /\ Q i (now (complete i r w st)) r).
  { destruct (complete_now i r w st) as [-> | (flac & exc & _ & ->)].
    - auto.
    - split; [apply bystanders_log, Hby | eapply Q_stable; eauto]. }
  destruct Hw as ((HI & Hs & Hc) & Hq').
  unfold pool_inv. rewrite complete_tasks, complete_completed.
  split; [exact HI|]. split.
  - intros j t m Hj Hm. destruct (decide (j = i)) as [-> | Hne].
    + destruct (decide (i < length (tasks st))) as [Hlt | Hge].
      * rewrite list_lookup_insert_eq in Hj by exact Hlt.
        inversion Hj; subst. discriminate.
      * rewrite list_insert_ge in Hj by lia. apply lookup_lt_Some in Hj. lia.
    + rewrite list_lookup_insert_ne in Hj by congruence. eauto.
  - intros j r' Hin. apply in_app_iff in Hin. destruct Hin as [Hin | [Heq | []]].
    + eauto.
    + inversion Heq; subst. exact Hq'.
Qed.

Lemma moved_inv i t w m st :
  others i st w -> program t = Some m -> safe ffmpeg (R i) (G i) (Q i) m w ->
  pool_inv ffmpeg R G Q I (moved i t w st).
Proof.
  intros (HI & Hs & Hc) Hm Hsafe. unfold pool_inv. simpl.
  split; [exact HI|]. split; [| exact Hc].
  intros j t' m' Hj Hm'. destruct (decide (j = i)) as [-> | Hne].
  - destruct (decide (i < length (tasks st))) as [Hlt | Hge].
    + rewrite list_lookup_insert_eq in Hj by exact Hlt. inversion Hj; subst. congruence.
    + rewrite list_insert_ge in Hj by lia. apply lookup_lt_Some in Hj. lia.
  - rewrite list_lookup_insert_ne in Hj by congruence. eauto.
Qed.

Lemma step_inv st i :
  pool_book st -> pool_inv ffmpeg R G Q I st -> pool_inv ffmpeg R G Q I (step ffmpeg st i).
Proof.
  intros Hb Hinv. unfold step.
  destruct (tasks st !! i) as [[m | m |] |] eqn:Hi; try exact Hinv.
  - destruct (may_start st i); [| exact Hinv].
    apply (moved_inv i _ _ m); [apply bystanders_now, Hinv | reflexivity |].
    destruct Hinv as (_ & Hs & _). exact (Hs i _ m Hi eq_refl).
  - pose proof (bystanders_now i st Hinv) as Hby.
    destruct Hinv as (HI & Hs & Hc). specialize (Hs i _ m Hi eq_refl).
    destruct m as [a | e | X ev k].
    + apply complete_inv; assumption.
    + apply complete_inv; assumption.
    + simpl in Hs. specialize (Hs (now st) (R_refl _ _)).
      destruct (handle ffmpeg ev (now st)) as [x w'] eqn:Hh. simpl in Hs.
      destruct Hs as [Hg Hs'].
      apply (moved_inv i _ _ (k x)); [| reflexivity | exact Hs'].
      exact (bystanders_G i st _ _ _ _ Hb Hi eq_refl Hby Hg).
Qed.

Lemma exec_promise i m : forall w (P : world -> Prop),
  (forall w1 w2, P w1 -> G i w1 w2 -> P w2) ->
  safe ffmpeg (R i) (G i) (Q i) m w -> P w ->
  Q i (snd (exec ffmpeg m w)) (fst (exec ffmpeg m w)) /\ P (snd (exec ffmpeg m w)).
Proof.
  induction m as [a | e | X ev k IH]; intros w P HP Hs Hw; simpl.
  - auto.
  - auto.
  - simpl in Hs. specialize (Hs w (R_refl _ _)).
    destruct (handle ffmpeg ev w) as [x w'] eqn:Hh. simpl in Hs.
    destruct Hs as [Hg Hs]. apply IH; eauto.
Qed.

Lemma finish_inv st i :
  pool_book st -> pool_inv ffmpeg R G Q I st ->
  pool_inv ffmpeg R G Q I (finish ffmpeg st i).
Proof.
  intros Hb Hinv. unfold finish.
  destruct (tasks st !! i) as [t |] eqn:Hi; [| exact Hinv].
  destruct (program t) as [m |] eqn:Hm; [| exact Hinv].
  pose proof (bystanders_now i st Hinv) as Hby.
  destruct Hinv as (HI & Hs & Hc). specialize (Hs i t m Hi Hm).
  destruct (exec_promise i m (now st) (others i st)) as [Hq Hby']; auto.
  { intros w1 w2. apply bystanders_G with (t := t) (m := m); assumption. }
  destruct (exec ffmpeg m (now st)) as [r w']. simpl in *.
  apply complete_inv; assumption.
Qed.

Lemma run_pool_inv sched st :
  pool_book st -> pool_inv ffmpeg R G Q I st ->
  pool_inv ffmpeg R G Q I (run_pool ffmpeg sched st).
Proof.
  intros Hb Hinv. unfold run_pool.
  assert (Hsteps : forall l s, pool_book s -> pool_inv ffmpeg R G Q I s ->
            pool_book (fold_left (step ffmpeg) l s)
            /\ pool_inv ffmpeg R G Q I (fold_left (step ffmpeg) l s)).
  { induction l as [| j l IH]; intros s Hbs Hs; simpl; [auto|].
    apply IH; [apply step_book, Hbs | apply step_inv; assumption]. }
  assert (Hfin : forall l s, pool_book s -> pool_inv ffmpeg R G Q I s ->
            pool_inv ffmpeg R G Q I (fold_left (finish ffmpeg) l s)).
  { induction l as [| j l IH]; intros s Hbs Hs; simpl; [auto|].
    apply IH; [apply finish_book, Hbs | apply finish_inv; assumption]. }
  destruct (Hsteps sched st Hb Hinv) as [Hb' Hinv'].
  apply Hfin; assumption.
Qed.

(** A pool whose tasks all keep their promises ends in a world that
    [I] accepts, with results that [Q] accepts. *)
Lemma pool_promises n flac_list br dry sched w :
  I w ->
  (forall i flac, flac_list !! i = Some flac ->
     safe ffmpeg (R i) (G i) (Q i) (convert_file flac br dry) w) ->
  let st := run_pool ffmpeg sched (submit n flac_list br dry w) in
  I (now st) /\ (forall i r, In (i, r) (completed st) -> Q i (now st) r).
Proof.
  intros HI Hsafe st.
  assert (Hinv : pool_inv ffmpeg R G Q I (submit n flac_list br dry w)).
  { split; [exact HI|]. split.
    - intros i t m Hi Hm. simpl in Hi. rewrite list_lookup_fmap in Hi.
      destruct (flac_list !! i) as [flac |] eqn:Hf; [| discriminate].
      simpl in Hi. inversion Hi; subst. simpl in Hm. inversion Hm; subst. simpl. eauto.
    - intros i r []. }
  destruct (run_pool_inv sched _ (submit_book n flac_list br dry w) Hinv) as (H1 & _ & H3).
  split; assumption.
Qed.

End Promises.

(** ** Strings and paths *)

(** *** Strings *)

Lemma string_eqb_true (a b : string) : String.eqb a b = true <-> a = b.
Proof. apply String.eqb_eq. Qed.

Lemma string_eqb_false (a b : string) : String.eqb a b = false <-> a <> b.
Proof. apply String.eqb_neq. Qed.

Lemma append_nil_r (s : string) : (s ++ "")%string = s.
Proof. induction s as [| a s IH]; simpl; congruence. Qed.

Lemma append_assoc (s t u : string) : ((s ++ t) ++ u = s ++ (t ++ u))%string.
Proof. induction s as [| a s IH]; simpl; congruence. Qed.

Lemma append_length (s t : string) :
  String.length (s ++ t)%string = String.length s + String.length t.
Proof. induction s as [| a s IH]; simpl; congruence. Qed.

(** Two ways to split a string before a tail of the same length agree. *)
Lemma append_same_length_tail (s s' t t' : string) :
  (s ++ t = s' ++ t')%string -> String.length t = String.length t' -> s = s' /\ t = t'.
Proof.
  revert s'. induction s as [| a s IH]; intros s' Heq Hlen.
  - destruct s' as [| a' s']; [auto|].
    simpl in Heq. subst t. simpl in Hlen. rewrite append_length in Hlen. lia.
  - destruct s' as [| a' s'].
    + simpl in Heq. subst t'. simpl in Hlen. rewrite append_length in Hlen. lia.
    + simpl in Heq. inversion Heq; subst. destruct (IH s' H1 Hlen). subst. auto.
Qed.

(** A pattern that is a star and a literal tail matches the names that
    end in the tail. *)
Lemma fnmatch_star (pat' name : string) :
  PyStr.fnmatchcase_pat (String "*" pat') name = true
  <-> exists a b, name = (a ++ b)%string /\ PyStr.fnmatchcase_pat pat' b = true.
Proof.
  change (PyStr.fnmatchcase_pat (String "*" pat') name)
    with ((fix star (name : string) : bool :=
             PyStr.fnmatchcase_pat pat' name
             || match name with
                | EmptyString => false
                | String _ name' => star name'
                end) name).
  induction name as [| c name IH].
  - rewrite orb_false_r. split.
    + intros H. exists "", "". auto.
    + intros (a & b & Hab & Hm). destruct a; [| discriminate]. simpl in Hab. subst b. exact Hm.
  - rewrite orb_true_iff, IH. split.
    + intros [H | (a & b & -> & Hm)].
      * exists "", (String c name). auto.
      * exists (String c a), b. auto.
    + intros (a & b & Hab & Hm). destruct a as [| c' a].
      * simpl in Hab. subst b. auto.
      * simpl in Hab. inversion Hab; subst. right. eauto.
Qed.

Lemma fnmatch_dot_flac (b : string) :
  PyStr.fnmatchcase_pat ".flac" b = true <-> b = ".flac".
Proof.
  split; [| intros ->; reflexivity].
  intros H.
  repeat (destruct b as [| ?c b]; [discriminate H |];
          simpl in H; apply andb_true_iff in H; destruct H as [?Hc H];
          apply Ascii.eqb_eq in Hc; subst).
  destruct b; [reflexivity | discriminate].
Qed.

(** The names [*.flac] matches. *)
Lemma fnmatch_flac (name : string) :
  PyStr.fnmatchcase name "*.flac" = true <-> exists stem, name = (stem ++ ".flac")%string.
Proof.
  unfold PyStr.fnmatchcase. rewrite fnmatch_star. split.
  - intros (a & b & -> & Hm). apply fnmatch_dot_flac in Hm. subst. eauto.
  - intros (stem & ->). exists stem, ".flac". split; reflexivity.
Qed.

Lemma fnmatch_flac_not_empty (name : string) :
  PyStr.fnmatchcase name "*.flac" = true -> name <> "".
Proof.
  intros H. apply fnmatch_flac in H. destruct H as (stem & ->).
  destruct stem; discriminate.
Qed.

(** A name with another five-character extension is not matched. *)
Lemma fnmatch_flac_other_extension (stem ext : string) :
  String.length ext = 5 -> ext <> ".flac" ->
  PyStr.fnmatchcase (stem ++ ext)%string "*.flac" = false.
Proof.
  intros Hlen Hne. apply not_true_is_false. intros H.
  apply fnmatch_flac in H. destruct H as (stem' & Heq).
  apply append_same_length_tail in Heq; [| exact Hlen]. tauto.
Qed.

Lemma last_char_append (s t : string) :
  t <> "" -> last_char (s ++ t)%string = last_char t.
Proof.
  intros Ht. induction s as [| a s IH]; [reflexivity|].
  simpl. rewrite IH. destruct t as [| b t]; [congruence|].
  simpl. destruct (last_char t); reflexivity.
Qed.

Lemma replace_suffix_ends (n suffix : string) :
  exists stem, PurePath.replace_suffix n suffix = (stem ++ suffix)%string.
Proof. unfold PurePath.replace_suffix. destruct (String.eqb _ _); eauto. Qed.

Lemma replace_suffix_no_flac (n suffix : string) :
  suffix <> "" -> last_char suffix <> Some "c"%char ->
  PyStr.fnmatchcase (PurePath.replace_suffix n suffix) "*.flac" = false.
Proof.
  intros Hne Hlast. apply not_true_is_false. intros H.
  apply fnmatch_flac in H. destruct H as (stem & Heq).
  destruct (replace_suffix_ends n suffix) as (stem' & Heq'). rewrite Heq' in Heq.
  apply (f_equal last_char) in Heq.
  rewrite !last_char_append in Heq by (assumption || discriminate).
  simpl in Heq. congruence.
Qed.

(** *** Paths *)

Lemma name_snoc (p : path) (c : string) : PurePath.name (p ++ [c]) = c.
Proof. unfold PurePath.name. apply last_last. Qed.

Lemma parent_snoc (p : path) (c : string) : PurePath.parent (p ++ [c]) = p.
Proof. unfold PurePath.parent. apply removelast_last. Qed.

Lemma with_suffix_inr (p out : path) (suffix : string) :
  PurePath.with_suffix p suffix = inr out ->
  PurePath.name p <> ""
  /\ out = PurePath.parent p ++ [PurePath.replace_suffix (PurePath.name p) suffix].
Proof.
  unfold PurePath.with_suffix.
  destruct (PurePath.invalid_suffix suffix); [discriminate|].
  destruct (String.eqb (PurePath.name p) "") eqn:Hn; [discriminate|].
  intros H. inversion H. split; [| reflexivity]. apply String.eqb_neq, Hn.
Qed.

Lemma with_suffix_opus (p : path) :
  PurePath.name p <> "" ->
  PurePath.with_suffix p ".opus"
  = inr (PurePath.parent p ++ [PurePath.replace_suffix (PurePath.name p) ".opus"]).
Proof.
  intros Hn. unfold PurePath.with_suffix. simpl.
  apply String.eqb_neq in Hn. rewrite Hn. reflexivity.
Qed.

Lemma with_suffix_jpg (p : path) :
  PurePath.name p <> "" ->
  PurePath.with_suffix p ".jpg"
  = inr (PurePath.parent p ++ [PurePath.replace_suffix (PurePath.name p) ".jpg"]).
Proof.
  intros Hn. unfold PurePath.with_suffix. simpl.
  apply String.eqb_neq in Hn. rewrite Hn. reflexivity.
Qed.

(** A cover path is never an output path of the conversion. *)
Lemma jpg_not_opus (p q a b : path) :
  PurePath.with_suffix p ".jpg" = inr a -> PurePath.with_suffix q ".opus" = inr b -> a <> b.
Proof.
  intros Ha Hb Heq. apply with_suffix_inr in Ha, Hb.
  destruct Ha as [_ ->], Hb as [_ ->].
  apply (f_equal PurePath.name) in Heq. rewrite !name_snoc in Heq.
  destruct (replace_suffix_ends (PurePath.name p) ".jpg") as (s1 & H1).
  destruct (replace_suffix_ends (PurePath.name q) ".opus") as (s2 & H2).
  rewrite H1, H2 in Heq. apply (f_equal last_char) in Heq.
  rewrite !last_char_append in Heq by discriminate. discriminate.
Qed.

(** ** Suffixes *)

Lemma rfind_from_app c s : forall t i last,
  PyStr.rfind_from c (s ++ t)%string i last
  = PyStr.rfind_from c t (i + Z.of_nat (String.length s)) (PyStr.rfind_from c s i last).
Proof.
  induction s as [|a s IH]; intros t i last; simpl String.length.
  - simpl. f_equal. lia.
  - cbn [String.append PyStr.rfind_from]. rewrite IH. f_equal. lia.
Qed.

Lemma rfind_from_absent c s : forall i last,
  PyStr.contains c s = false -> PyStr.rfind_from c s i last = last.
Proof.
  induction s as [|a s IH]; intros i last H; simpl in *; [reflexivity|].
  apply orb_false_iff in H as [Ha Hs]. rewrite Ha. apply IH, Hs.
Qed.

Lemma rfind_dot stem ext :
  PyStr.contains "." ext = false ->
  PyStr.rfind "." (stem ++ String "." ext)%string = Z.of_nat (String.length stem).
Proof.
  intros H. unfold PyStr.rfind. rewrite rfind_from_app.
  cbn [PyStr.rfind_from]. rewrite Ascii.eqb_refl. rewrite rfind_from_absent by exact H. lia.
Qed.

Lemma drop_app_length s t : PyStr.drop (String.length s) (s ++ t)%string = t.
Proof. induction s as [|a s IH]; simpl; [destruct t|]; auto. Qed.

Lemma take_app_length s t : PyStr.take (String.length s) (s ++ t)%string = s.
Proof. induction s as [|a s IH]; simpl; [destruct t|]; congruence. Qed.

(** The suffix of a name that ends in a dot and an extension without a
    dot: that ending, unless nothing precedes it. *)
Lemma suffix_of_name_dot stem ext :
  PyStr.contains "." ext = false -> ext <> "" ->
  PurePath.suffix_of_name (stem ++ String "." ext)%string
  = if String.eqb stem "" then "" else String "." ext.
Proof.
  intros Hdot Hext. unfold PurePath.suffix_of_name. rewrite rfind_dot by exact Hdot.
  unfold PyStr.len. rewrite append_length. simpl String.length.
  destruct (String.eqb stem "") eqn:Hs.
  - apply String.eqb_eq in Hs. subst stem. reflexivity.
  - apply String.eqb_neq in Hs.
    assert (0 < String.length stem)
      by (destruct stem; simpl; [congruence | lia]).
    assert (0 < String.length ext)
      by (destruct ext; simpl; [congruence | lia]).
    replace (0 <? Z.of_nat (String.length stem))%Z with true
      by (symmetry; apply Z.ltb_lt; lia).
    replace (Z.of_nat (String.length stem)
             <? Z.of_nat (String.length stem + S (String.length ext)) - 1)%Z
      with true by (symmetry; apply Z.ltb_lt; lia).
    cbn [andb]. rewrite Nat2Z.id. apply drop_app_length.
Qed.

Lemma replace_suffix_dot stem ext suffix :
  PyStr.contains "." ext = false -> ext <> "" -> stem <> "" ->
  PurePath.replace_suffix (stem ++ String "." ext)%string suffix = (stem ++ suffix)%string.
Proof.
  intros Hdot Hext Hstem. unfold PurePath.replace_suffix.
  rewrite suffix_of_name_dot by assumption.
  apply String.eqb_neq in Hstem. rewrite Hstem. cbn [String.eqb].
  rewrite append_length.
  replace (String.length stem + String.length (String "." ext)
           - String.length (String "." ext)) with (String.length stem) by lia.
  rewrite take_app_length. reflexivity.
Qed.

Lemma replace_suffix_dotfile ext suffix :
  PyStr.contains "." ext = false -> ext <> "" ->
  PurePath.replace_suffix (String "." ext) suffix = (String "." ext ++ suffix)%string.
Proof.
  intros Hdot Hext. unfold PurePath.replace_suffix.
  pose proof (suffix_of_name_dot "" ext Hdot Hext) as H.
  cbn [String.append String.eqb] in H. rewrite H. reflexivity.
Qed.

Lemma drop_length n : forall s,
  n <= String.length s -> String.length (PyStr.drop n s) = String.length s - n.
Proof.
  induction n as [|n IH]; intros [|a s] H; simpl in *; try lia. apply IH. lia.
Qed.

Lemma take_length n : forall s, n <= String.length s -> String.length (PyStr.take n s) = n.
Proof.
  induction n as [|n IH]; intros [|a s] H; simpl in *; try lia. f_equal. apply IH. lia.
Qed.

(** What [with_suffix] keeps of a name: a non-empty base that does not
    depend on the new suffix. *)
Lemma replace_suffix_base n :
  n <> "" ->
  exists base, base <> "" /\ forall suffix,
    PurePath.replace_suffix n suffix = (base ++ suffix)%string.
Proof.
  intros Hn. unfold PurePath.replace_suffix, PurePath.suffix_of_name.
  set (i := PyStr.rfind "." n).
  destruct ((0 <? i)%Z && (i <? PyStr.len n - 1)%Z) eqn:Hi.
  - apply andb_true_iff in Hi as [H0 H1].
    apply Z.ltb_lt in H0. apply Z.ltb_lt in H1. unfold PyStr.len in H1.
    assert (Hle : Z.to_nat i <= String.length n) by lia.
    destruct (String.eqb (PyStr.drop (Z.to_nat i) n) "") eqn:Hd.
    + apply String.eqb_eq in Hd.
      pose proof (drop_length _ _ Hle) as Hl. rewrite Hd in Hl. simpl in Hl. lia.
    + exists (PyStr.take (Z.to_nat i) n). split.
      * intros Ht. pose proof (take_length _ _ Hle) as Hl. rewrite Ht in Hl. simpl in Hl. lia.
      * intros suffix. rewrite drop_length by exact Hle.
        replace (String.length n - (String.length n - Z.to_nat i)) with (Z.to_nat i) by lia.
        reflexivity.
  - exists n. split; [exact Hn | reflexivity].
Qed.

Lemma path_snoc (p : path) : p <> [] -> p = PurePath.parent p ++ [PurePath.name p].
Proof. intros H. apply app_removelast_last, H. Qed.

Lemma name_not_empty_path (p : path) : PurePath.name p <> "" -> p <> [].
Proof. intros H ->. apply H. reflexivity. Qed.

(** ** Files in the tree *)

Lemma exists_kind n p :
  FS.exists_ n p = match kind (FS.lookup n p) with Some _ => true | None => false end.
Proof. unfold FS.exists_. destruct (FS.lookup n p) as [[] |]; reflexivity. Qed.

Lemma is_dir_kind n p :
  FS.is_dir n p = match kind (FS.lookup n p) with Some true => true | _ => false end.
Proof. unfold FS.is_dir. destruct (FS.lookup n p) as [[] |]; reflexivity. Qed.

Lemma assoc_app c es es' :
  FS.assoc c (es ++ es') = match FS.assoc c es with Some m => Some m | None => FS.assoc c es' end.
Proof.
  induction es as [| [c' m] es IH]; simpl; [reflexivity|].
  destruct (String.eqb c' c); [reflexivity | exact IH].
Qed.

Lemma assoc_update d c f es :
  FS.assoc d (FS.update c f es)
  = if String.eqb d c then option_map f (FS.assoc d es) else FS.assoc d es.
Proof.
  induction es as [| [c' m] es IH]; simpl.
  - destruct (String.eqb d c); reflexivity.
  - destruct (String.eqb c' c) eqn:Hc; simpl.
    + apply String.eqb_eq in Hc. subst c'.
      destruct (String.eqb c d) eqn:Hd.
      * apply String.eqb_eq in Hd. subst d. rewrite String.eqb_refl. reflexivity.
      * rewrite String.eqb_sym, Hd. reflexivity.
    + destruct (String.eqb c' d) eqn:Hd.
      * apply String.eqb_eq in Hd. subst d. rewrite Hc. reflexivity.
      * exact IH.
Qed.

Lemma lookup_file_cons c p : FS.lookup FS.File (c :: p) = None.
Proof. reflexivity. Qed.

(** Creating a file leaves what every other path names as it is. *)
Lemma lookup_add_file_other q : forall n p,
  p <> q -> kind (FS.lookup (FS.add_file q n) p) = kind (FS.lookup n p).
Proof.
  induction q as [| c q' IH]; intros n p Hne; [reflexivity|].
  destruct n as [| es]; [reflexivity|].
  destruct q' as [| c' q''].
  - simpl. destruct (FS.assoc c es) eqn:Hc; [reflexivity|].
    destruct p as [| d p']; [reflexivity|].
    simpl. rewrite assoc_app. destruct (FS.assoc d es); [reflexivity|].
    simpl. destruct (String.eqb c d) eqn:Hd; [| reflexivity].
    apply String.eqb_eq in Hd. subst d.
    destruct p'; [congruence | reflexivity].
  - destruct p as [| d p']; [reflexivity|].
    change (FS.add_file (c :: c' :: q'') (FS.Dir es))
      with (FS.Dir (FS.update c (FS.add_file (c' :: q'')) es)).
    simpl FS.lookup. rewrite assoc_update.
    destruct (String.eqb d c) eqn:Hd; [| reflexivity].
    apply String.eqb_eq in Hd. subst d.
    destruct (FS.assoc c es) as [m |]; [| reflexivity].
    simpl. apply IH. congruence.
Qed.

Lemma lookup_dir_cons es c p :
  FS.lookup (FS.Dir es) (c :: p)
  = match FS.assoc c es with Some m => FS.lookup m p | None => None end.
Proof. reflexivity. Qed.

Lemma add_file_deeper c c' q es :
  FS.add_file (c :: c' :: q) (FS.Dir es)
  = FS.Dir (FS.update c (FS.add_file (c' :: q)) es).
Proof. reflexivity. Qed.

Lemma parent_deeper c c' (q : path) :
  PurePath.parent (c :: c' :: q) = c :: PurePath.parent (c' :: q).
Proof. reflexivity. Qed.

(** The path itself then names a file if one was created, and what it
    named before if not. *)
Lemma lookup_add_file_self q : forall n,
  kind (FS.lookup (FS.add_file q n) q)
  = if created q n then Some false else kind (FS.lookup n q).
Proof.
  unfold created, FS.exists_, FS.is_dir. induction q as [| c q' IH]; intros n.
  - reflexivity.
  - destruct n as [| es].
    { destruct q'; reflexivity. }
    destruct q' as [| c' q''].
    + simpl. destruct (FS.assoc c es) eqn:Hc; simpl.
      * rewrite Hc. reflexivity.
      * rewrite assoc_app, Hc. simpl. rewrite String.eqb_refl. reflexivity.
    + rewrite add_file_deeper, parent_deeper, !lookup_dir_cons.
      rewrite assoc_update, String.eqb_refl.
      destruct (FS.assoc c es) as [m |]; [| reflexivity].
      apply IH.
Qed.

Lemma exists_add_file_other q n p :
  p <> q -> FS.exists_ (FS.add_file q n) p = FS.exists_ n p.
Proof. intros H. rewrite !exists_kind, lookup_add_file_other by exact H. reflexivity. Qed.

Lemma exists_add_file_mono q n p :
  FS.exists_ n p = true -> FS.exists_ (FS.add_file q n) p = true.
Proof.
  intros H. destruct (List.list_eq_dec string_dec p q) as [-> | Hne].
  - rewrite exists_kind, lookup_add_file_self. unfold created. rewrite H. simpl.
    rewrite <- exists_kind. exact H.
  - rewrite exists_add_file_other by exact Hne. exact H.
Qed.

Lemma exists_add_file_self q n :
  FS.is_dir n (PurePath.parent q) = true -> q <> [] ->
  FS.exists_ (FS.add_file q n) q = true.
Proof.
  intros Hd Hq. rewrite exists_kind, lookup_add_file_self. unfold created. rewrite Hd.
  rewrite andb_true_r. destruct (FS.exists_ n q) eqn:He; simpl; [| reflexivity].
  rewrite <- exists_kind. exact He.
Qed.

Lemma is_dir_add_file q n p : FS.is_dir (FS.add_file q n) p = FS.is_dir n p.
Proof.
  destruct (List.list_eq_dec string_dec p q) as [-> | Hne].
  - rewrite !is_dir_kind, lookup_add_file_self. unfold created.
    destruct (FS.exists_ n q) eqn:He; simpl; [reflexivity|].
    destruct (FS.is_dir n (PurePath.parent q)); [| reflexivity].
    rewrite exists_kind in He. destruct (kind (FS.lookup n q)) as [[] |]; congruence.
  - rewrite !is_dir_kind, lookup_add_file_other by exact Hne. reflexivity.
Qed.

(** *** Names too long *)

Lemma name_too_long_snoc (P : path) (x : string) : forall n,
  FS.name_too_long n (P ++ [x])
  = match FS.lookup n P with
    | Some (FS.Dir es) =>
        match FS.assoc x es with
        | Some _ => false
        | None => Nat.ltb FS.NAME_MAX (String.length x)
        end
    | Some FS.File => false
    | None => FS.name_too_long n P
    end.
Proof.
  induction P as [|c P IH]; intros n.
  - destruct n as [|es]; [reflexivity|]. cbn [app FS.name_too_long FS.lookup].
    destruct (FS.assoc x es); reflexivity.
  - destruct n as [|es]; [reflexivity|]. cbn [app FS.name_too_long FS.lookup].
    destruct (FS.assoc c es) as [m|]; [apply IH | reflexivity].
Qed.

Lemma exists_snoc (P : path) (x : string) n :
  FS.exists_ n (P ++ [x])
  = match FS.lookup n P with
    | Some (FS.Dir es) => match FS.assoc x es with Some _ => true | None => false end
    | _ => false
    end.
Proof.
  unfold FS.exists_. revert n. induction P as [|c P IH]; intros n.
  - destruct n as [|es]; [reflexivity|]. cbn [app FS.lookup].
    destruct (FS.assoc x es); reflexivity.
  - destruct n as [|es]; [reflexivity|]. cbn [app FS.lookup].
    destruct (FS.assoc c es) as [m|]; [apply IH | reflexivity].
Qed.

(** In the directory of a missing name that is not too long, no shorter
    name is too long. *)
Lemma shorter_name_fits (P : path) (x y : string) n :
  FS.exists_ n (P ++ [x]) = false ->
  FS.name_too_long n (P ++ [x]) = false ->
  String.length y <= String.length x ->
  FS.name_too_long n (P ++ [y]) = false.
Proof.
  rewrite exists_snoc, !name_too_long_snoc. intros Hex Hx Hle.
  destruct (FS.lookup n P) as [[|es]|]; auto.
  destruct (FS.assoc y es); [reflexivity|].
  destruct (FS.assoc x es); [discriminate|].
  apply Nat.ltb_ge. apply Nat.ltb_ge in Hx. lia.
Qed.

(** ** The search *)

Lemma rglob_rel_dir pat es :
  FS.rglob_rel pat (FS.Dir es)
  = List.map (fun e : string * FS.node => [fst e])
      (List.filter (fun e : string * FS.node => PyStr.fnmatchcase (fst e) pat) es)
    ++ List.flat_map
         (fun e : string * FS.node =>
            let '(c, m) := e in List.map (cons c) (FS.rglob_rel pat m))
         es.
Proof. reflexivity. Qed.

Lemma matches_update pat c f es :
  List.map (fun e : string * FS.node => [fst e])
    (List.filter (fun e : string * FS.node => PyStr.fnmatchcase (fst e) pat) (FS.update c f es))
  = List.map (fun e : string * FS.node => [fst e])
      (List.filter (fun e : string * FS.node => PyStr.fnmatchcase (fst e) pat) es).
Proof.
  induction es as [| [c' m] es IH]; [reflexivity|].
  simpl. destruct (String.eqb c' c); simpl.
  - destruct (PyStr.fnmatchcase c' pat); reflexivity.
  - destruct (PyStr.fnmatchcase c' pat); simpl; rewrite IH; reflexivity.
Qed.

Lemma flat_map_update pat c f es :
  (forall m, FS.rglob_rel pat (f m) = FS.rglob_rel pat m) ->
  List.flat_map
    (fun e : string * FS.node => let '(c, m) := e in List.map (cons c) (FS.rglob_rel pat m))
    (FS.update c f es)
  = List.flat_map
      (fun e : string * FS.node => let '(c, m) := e in List.map (cons c) (FS.rglob_rel pat m))
      es.
Proof.
  intros Hf. induction es as [| [c' m] es IH]; [reflexivity|].
  simpl. destruct (String.eqb c' c); simpl.
  - rewrite Hf. reflexivity.
  - rewrite IH. reflexivity.
Qed.

Lemma name_deeper c c' (q : path) : PurePath.name (c :: c' :: q) = PurePath.name (c' :: q).
Proof. reflexivity. Qed.

(** A new file whose name the pattern does not match is not reported. *)
Lemma rglob_rel_add_file pat q : forall n,
  PyStr.fnmatchcase (PurePath.name q) pat = false ->
  FS.rglob_rel pat (FS.add_file q n) = FS.rglob_rel pat n.
Proof.
  induction q as [| c q' IH]; intros n Hq; [reflexivity|].
  destruct n as [| es]; [reflexivity|].
  destruct q' as [| c' q''].
  - simpl FS.add_file. destruct (FS.assoc c es); [reflexivity|].
    rewrite !rglob_rel_dir, List.filter_app, List.map_app, List.flat_map_app.
    simpl. unfold PurePath.name in Hq. simpl in Hq. rewrite Hq.
    simpl. rewrite !app_nil_r. reflexivity.
  - rewrite add_file_deeper, !rglob_rel_dir, matches_update, flat_map_update; [reflexivity|].
    intros m. apply IH. rewrite name_deeper in Hq. exact Hq.
Qed.

Lemma rglob_here n pat : FS.rglob n [] pat = FS.rglob_rel pat n.
Proof.
  unfold FS.rglob. simpl. destruct n as [| es]; [reflexivity|].
  transitivity (List.map (fun x : path => x) (FS.rglob_rel pat (FS.Dir es))).
  - apply List.map_ext. reflexivity.
  - apply List.map_id.
Qed.

Lemma rglob_file root pat : FS.rglob FS.File root pat = [].
Proof. unfold FS.rglob. destruct root; reflexivity. Qed.

Lemma rglob_below es c r pat :
  FS.rglob (FS.Dir es) (c :: r) pat
  = match FS.assoc c es with
    | Some m => List.map (cons c) (FS.rglob m r pat)
    | None => []
    end.
Proof.
  unfold FS.rglob. rewrite lookup_dir_cons.
  destruct (FS.assoc c es) as [m |]; [| reflexivity].
  destruct (FS.lookup m r) as [[| es'] |]; try reflexivity.
  rewrite map_map. reflexivity.
Qed.

Lemma rglob_add_file pat root : forall q n,
  PyStr.fnmatchcase (PurePath.name q) pat = false ->
  FS.rglob (FS.add_file q n) root pat = FS.rglob n root pat.
Proof.
  induction root as [| c r IH]; intros q n Hq.
  - rewrite !rglob_here. apply rglob_rel_add_file, Hq.
  - destruct q as [| d q']; [reflexivity|].
    destruct n as [| es]; [reflexivity|].
    destruct q' as [| d' q''].
    + simpl FS.add_file. destruct (FS.assoc d es) eqn:Hd; [reflexivity|].
      rewrite !rglob_below, assoc_app.
      destruct (FS.assoc c es); [reflexivity|].
      simpl. destruct (String.eqb d c); [| reflexivity].
      rewrite rglob_file. reflexivity.
    + rewrite add_file_deeper, !rglob_below, assoc_update.
      destruct (String.eqb c d); [| reflexivity].
      destruct (FS.assoc c es) as [m |]; [| reflexivity].
      cbn [option_map]. f_equal. apply IH. rewrite name_deeper in Hq. exact Hq.
Qed.

(** *** Well-formed trees *)

Lemma assoc_In c m es : FS.assoc c es = Some m -> In (c, m) es.
Proof.
  induction es as [| [c' m'] es IH]; simpl; [discriminate|].
  destruct (String.eqb c' c) eqn:Hc.
  - apply String.eqb_eq in Hc. intros H. inversion H; subst. auto.
  - auto.
Qed.

Lemma In_assoc c m es :
  FS.nodupb (List.map fst es) = true -> In (c, m) es -> FS.assoc c es = Some m.
Proof.
  induction es as [| [c' m'] es IH]; simpl; [tauto|].
  intros Hnd Hin. apply andb_true_iff in Hnd. destruct Hnd as [Hfresh Hnd].
  destruct Hin as [Heq | Hin].
  - inversion Heq; subst. rewrite String.eqb_refl. reflexivity.
  - destruct (String.eqb c' c) eqn:Hc.
    + apply String.eqb_eq in Hc. subst c'. exfalso.
      apply negb_true_iff in Hfresh.
      assert (Hex : List.existsb (String.eqb c) (List.map fst es) = true).
      { apply existsb_exists. exists c. split; [| apply String.eqb_refl].
        apply in_map_iff. exists (c, m). auto. }
      congruence.
    + auto.
Qed.

Lemma wf_dir es :
  FS.wf (FS.Dir es) = true ->
  FS.nodupb (List.map fst es) = true /\ (forall c m, In (c, m) es -> FS.wf m = true).
Proof.
  simpl. intros H. apply andb_true_iff in H. destruct H as [Hnd Hall].
  split; [exact Hnd|]. intros c m Hin.
  rewrite forallb_forall in Hall. apply (Hall (c, m) Hin).
Qed.

Lemma wf_lookup p : forall n m, FS.wf n = true -> FS.lookup n p = Some m -> FS.wf m = true.
Proof.
  induction p as [| c p IH]; intros n m Hwf Hl.
  - simpl in Hl. congruence.
  - destruct n as [| es]; [discriminate|].
    rewrite lookup_dir_cons in Hl. destruct (FS.assoc c es) as [m' |] eqn:Hc; [| discriminate].
    apply wf_dir in Hwf. destruct Hwf as [_ Hall].
    eapply IH; [| exact Hl]. eapply Hall, assoc_In, Hc.
Qed.

Lemma lookup_app p : forall n q,
  FS.lookup n (p ++ q)
  = match FS.lookup n p with Some m => FS.lookup m q | None => None end.
Proof.
  induction p as [| c p IH]; intros n q; [reflexivity|].
  destruct n as [| es]; [reflexivity|].
  simpl. destruct (FS.assoc c es); [apply IH | reflexivity].
Qed.

Lemma rglob_rel_not_nil pat n : ~ In [] (FS.rglob_rel pat n).
Proof.
  destruct n as [| es]; [intros []|].
  rewrite rglob_rel_dir, in_app_iff, in_map_iff, in_flat_map.
  intros [(e & He & _) | ([c m] & _ & Hin)]; [discriminate|].
  apply in_map_iff in Hin. destruct Hin as (x & Hx & _). discriminate.
Qed.

(** What [rglob] reports, in a well-formed tree: the paths below the
    directory that exist and whose name matches. *)
Lemma in_rglob_rel pat p : forall n,
  FS.wf n = true ->
  In p (FS.rglob_rel pat n)
  <-> p <> [] /\ FS.exists_ n p = true /\ PyStr.fnmatchcase (PurePath.name p) pat = true.
Proof.
  induction p as [| c p' IH]; intros n Hwf.
  - split; [intros H; destruct (rglob_rel_not_nil _ _ H) | tauto].
  - destruct n as [| es].
    { split; [intros [] | intros (_ & H & _); discriminate]. }
    destruct (wf_dir es Hwf) as [Hnd Hall].
    unfold FS.exists_. rewrite lookup_dir_cons.
    rewrite rglob_rel_dir, in_app_iff, in_map_iff, in_flat_map. split.
    + intros [([c0 m0] & Heq & Hin) | ([c0 m0] & Hin & Hin')].
      * apply filter_In in Hin. destruct Hin as [Hin Hm]. simpl in *.
        inversion Heq; subst. rewrite (In_assoc _ _ _ Hnd Hin).
        split; [discriminate|]. split; [reflexivity | exact Hm].
      * apply in_map_iff in Hin'. destruct Hin' as (x & Hx & Hin').
        inversion Hx; subst. rewrite (In_assoc _ _ _ Hnd Hin).
        apply IH in Hin'; [| eapply Hall; eauto].
        destruct Hin' as (Hne & Hex & Hm). split; [discriminate|].
        split; [exact Hex|]. destruct p'; [congruence | exact Hm].
    + intros (_ & Hex & Hm).
      destruct (FS.assoc c es) as [m |] eqn:Hc; [| discriminate].
      apply assoc_In in Hc. destruct p' as [| c' p''].
      * left. exists (c, m). split; [reflexivity|]. apply filter_In. auto.
      * right. exists (c, m). split; [exact Hc|]. apply in_map_iff.
        exists (c' :: p''). split; [reflexivity|].
        apply IH; [eapply Hall; eauto|]. split; [discriminate|]. auto.
Qed.

(** Without the assumption, what [rglob] reports still has a matching
    name. *)
Lemma rglob_rel_name pat p : forall n,
  In p (FS.rglob_rel pat n) -> PyStr.fnmatchcase (PurePath.name p) pat = true.
Proof.
  induction p as [| c p' IH]; intros n Hin.
  - destruct (rglob_rel_not_nil _ _ Hin).
  - destruct n as [| es]; [destruct Hin|].
    rewrite rglob_rel_dir, in_app_iff, in_map_iff, in_flat_map in Hin.
    destruct Hin as [([c0 m0] & Heq & Hin) | ([c0 m0] & Hin & Hin')].
    + apply filter_In in Hin. destruct Hin as [_ Hm]. simpl in *.
      inversion Heq; subst. exact Hm.
    + apply in_map_iff in Hin'. destruct Hin' as (x & Hx & Hin').
      inversion Hx; subst. pose proof (IH _ Hin') as Hm.
      destruct p'; [destruct (rglob_rel_not_nil _ _ Hin') | exact Hm].
Qed.

Lemma name_app (root rel : path) : rel <> [] -> PurePath.name (root ++ rel) = PurePath.name rel.
Proof.
  intros Hne. unfold PurePath.name.
  induction root as [| c root IH]; [reflexivity|].
  simpl. destruct (root ++ rel) eqn:Happ; [| exact IH].
  apply app_eq_nil in Happ. tauto.
Qed.

Lemma rglob_name n root pat p :
  In p (FS.rglob n root pat) -> PyStr.fnmatchcase (PurePath.name p) pat = true.
Proof.
  unfold FS.rglob. destruct (FS.lookup n root) as [[| es] |]; try (intros []).
  intros Hin. apply in_map_iff in Hin. destruct Hin as (rel & <- & Hin).
  rewrite name_app; [eapply rglob_rel_name; eauto|].
  intros ->. exact (rglob_rel_not_nil _ _ Hin).
Qed.

Lemma in_rglob n root pat p :
  FS.wf n = true ->
  In p (FS.rglob n root pat)
  <-> FS.is_dir n root = true
      /\ exists rel, p = root ++ rel /\ rel <> []
           /\ FS.exists_ n p = true /\ PyStr.fnmatchcase (PurePath.name p) pat = true.
Proof.
  intros Hwf. unfold FS.rglob, FS.is_dir.
  destruct (FS.lookup n root) as [[| es] |] eqn:Hroot.
  - split; [intros [] | intros [H _]; discriminate].
  - pose proof (wf_lookup _ _ _ Hwf Hroot) as Hwf'.
    rewrite in_map_iff. split.
    + intros (rel & <- & Hin). apply (in_rglob_rel pat rel _ Hwf') in Hin.
      destruct Hin as (Hne & Hex & Hm). split; [reflexivity|].
      exists rel. split; [reflexivity|]. split; [exact Hne|].
      unfold FS.exists_ in *. rewrite lookup_app, Hroot, name_app by exact Hne. auto.
    + intros (_ & rel & -> & Hne & Hex & Hm). exists rel. split; [reflexivity|].
      apply (in_rglob_rel pat rel _ Hwf').
      unfold FS.exists_ in *. rewrite lookup_app, Hroot, name_app in * by exact Hne. auto.
  - split; [intros [] | intros [H _]; discriminate].
Qed.

(** What exists lies in a directory. *)
Lemma exists_parent n p :
  FS.exists_ n p = true -> p <> [] -> FS.is_dir n (PurePath.parent p) = true.
Proof.
  intros Hex Hne. destruct (exists_last Hne) as (p0 & c & ->).
  rewrite parent_snoc. unfold FS.exists_, FS.is_dir in *.
  rewrite lookup_app in Hex. destruct (FS.lookup n p0) as [[| es] |]; try discriminate.
  reflexivity.
Qed.

(** ** Workers that leave the files alone *)

Lemma spawned_record_asked p b w : spawned (record (Asked p b) w) = spawned w.
Proof. unfold spawned, record. simpl. rewrite flat_map_app. simpl. apply app_nil_r. Qed.

Lemma spawned_record_refused p e w : spawned (record (Refused p e) w) = spawned w.
Proof. unfold spawned, record. simpl. rewrite flat_map_app. simpl. apply app_nil_r. Qed.

Lemma spawned_log l m w : spawned (log l m w) = spawned w.
Proof.
  unfold log. destruct (enabled l); [| reflexivity].
  unfold spawned, record. simpl. rewrite flat_map_app. simpl. apply app_nil_r.
Qed.

Lemma fs_log l m w : fs (log l m w) = fs w.
Proof. unfold log. destruct (enabled l); reflexivity. Qed.

Lemma quiet_refl w : quiet w w.
Proof. split; reflexivity. Qed.

Lemma quiet_trans w1 w2 w3 : quiet w1 w2 -> quiet w2 w3 -> quiet w1 w3.
Proof. unfold quiet. intros [] []. split; congruence. Qed.

Lemma quiet_asked p b w : quiet w (record (Asked p b) w).
Proof. split; [reflexivity | apply spawned_record_asked]. Qed.

Lemma quiet_refused p e w : quiet w (record (Refused p e) w).
Proof. split; [reflexivity | apply spawned_record_refused]. Qed.

Lemma quiet_log l m w : quiet w (log l m w).
Proof. split; [apply fs_log | apply spawned_log]. Qed.

Lemma opus_of_inr flac p : PurePath.with_suffix flac ".opus" = inr p -> opus_of flac = p.
Proof. unfold opus_of. intros ->. reflexivity. Qed.

Lemma jpg_of_inr flac p : PurePath.with_suffix flac ".jpg" = inr p -> jpg_of flac = p.
Proof. unfold jpg_of. intros ->. reflexivity. Qed.

Lemma with_suffix_opus_inl flac e :
  PurePath.name flac <> "" -> PurePath.with_suffix flac ".opus" = inl e -> False.
Proof. intros Hn. rewrite with_suffix_opus by exact Hn. discriminate. Qed.

Lemma with_suffix_jpg_inl flac e :
  PurePath.name flac <> "" -> PurePath.with_suffix flac ".jpg" = inl e -> False.
Proof. intros Hn. rewrite with_suffix_jpg by exact Hn. discriminate. Qed.

(** The two output paths of a file share their directory and the base
    of their name. *)
Lemma outputs_share flac :
  PurePath.name flac <> "" ->
  exists base,
    base <> ""
    /\ opus_of flac = PurePath.parent flac ++ [(base ++ ".opus")%string]
    /\ jpg_of flac = PurePath.parent flac ++ [(base ++ ".jpg")%string].
Proof.
  intros Hn. destruct (replace_suffix_base _ Hn) as (base & Hb & Hrep).
  exists base. unfold opus_of, jpg_of.
  rewrite with_suffix_opus, with_suffix_jpg, !Hrep by exact Hn. auto.
Qed.

(** After the check for the output answered that there is none, the
    check for the cover answers too: its name is the shorter one. *)
Lemma cover_check_answers n flac :
  PurePath.name flac <> "" ->
  FS.exists_ n (opus_of flac) = false ->
  FS.name_too_long n (opus_of flac) = false ->
  FS.name_too_long n (jpg_of flac) = false.
Proof.
  intros Hn Hex Hfit. destruct (outputs_share flac Hn) as (base & _ & Ho & Hj).
  rewrite Ho in Hex, Hfit. rewrite Hj.
  apply (shorter_name_fits _ _ _ _ Hex Hfit).
  rewrite !append_length. simpl. lia.
Qed.

Lemma cover_check_raises n flac opus jpg :
  PurePath.with_suffix flac ".opus" = inr opus ->
  PurePath.with_suffix flac ".jpg" = inr jpg ->
  FS.exists_ n opus = false ->
  FS.name_too_long n opus = false ->
  FS.name_too_long n jpg = true -> False.
Proof.
  intros Ho Hj Hex Hfit Hlong.
  pose proof (with_suffix_inr _ _ _ Ho) as [Hn _].
  apply opus_of_inr in Ho. apply jpg_of_inr in Hj. subst opus jpg.
  rewrite (cover_check_answers n flac Hn Hex Hfit) in Hlong. discriminate.
Qed.

Ltac norm_fs :=
  unfold record in *; cbn [fs] in *; rewrite ?fs_log in *;
  repeat match goal with
         | H : fs ?a = ?b |- _ => rewrite H in *; clear H
         end;
  repeat match goal with
         | H : PurePath.with_suffix ?f ".opus" = inr ?p |- _ =>
             rewrite ?(opus_of_inr f p H) in *; revert H
         end;
  intros;
  repeat match goal with
         | H : FS.exists_ _ _ = _ |- _ => rewrite ?H in *; revert H
         end;
  intros;
  repeat match goal with
         | H : FS.path_exists _ _ = _ |- _ => rewrite ?H in *; revert H
         end;
  intros.

Ltac quiet_tac :=
  first [ apply quiet_asked | apply quiet_refused | apply quiet_log
        | eapply with_suffix_opus_inl; eassumption
        | eapply with_suffix_jpg_inl; eassumption
        | solve [ norm_fs; eapply cover_check_raises; eassumption ]
        | solve [ norm_fs; simpl in *; first [ reflexivity | intuition congruence ] ] ].

(** A worker that is told to run dry, or that finds its file done, asks
    and logs, and ends with the result that the tree decides. *)
Lemma convert_file_quiet ffmpeg n flac br dry w :
  PurePath.name flac <> "" -> fs w = n ->
  dry = true \/ would_skip n flac = true ->
  safe ffmpeg same_files quiet (fun _ r => r = quiet_result n flac)
    (convert_file flac br dry) w.
Proof.
  intros Hname Hw Hdry. unfold quiet_result, would_skip, same_files in *.
  unfold_script.
  safe_walk quiet_tac.
Qed.

Lemma file_of_lookup flac_list i flac :
  flac_list !! i = Some flac -> file_of flac_list i = flac.
Proof. unfold file_of. intros ->. reflexivity. Qed.

(** A pool of workers that run dry, or that find their files done. *)
Lemma pool_quiet ffmpeg n flac_list br dry sched w :
  Forall (fun flac => PurePath.name flac <> "") flac_list ->
  dry = true \/ Forall (fun flac => would_skip (fs w) flac = true) flac_list ->
  let st := run_pool ffmpeg sched (submit n flac_list br dry w) in
  quiet w (now st)
  /\ (forall i r, In (i, r) (completed st) ->
        r = quiet_result (fs w) (file_of flac_list i)).
Proof.
  intros Hnames Hdry.
  apply (pool_promises ffmpeg (fun _ => same_files) (fun _ => quiet)
           (fun i _ r => r = quiet_result (fs w) (file_of flac_list i)) (quiet w)).
  - reflexivity.
  - unfold same_files. congruence.
  - intros. apply fs_log.
  - intros i j w1 w2 _ [H _]. exact H.
  - auto.
  - intros i w1 w2. apply quiet_trans.
  - intros w1 l m H. eapply quiet_trans; [exact H | apply quiet_log].
  - apply quiet_refl.
  - intros i flac Hi. rewrite (file_of_lookup _ _ _ Hi).
    apply convert_file_quiet; [| reflexivity |].
    + rewrite Forall_forall in Hnames. apply Hnames. eapply list_elem_of_lookup_2, Hi.
    + destruct Hdry as [Hd | Hall]; [auto | right].
      rewrite Forall_forall in Hall. apply Hall. eapply list_elem_of_lookup_2, Hi.
Qed.

(** *** Counting *)

Lemma count_snoc s rs r :
  count s (rs ++ [r]) = count s rs + (if is_state s r then 1 else 0).
Proof.
  unfold count. rewrite List.filter_app, length_app. simpl.
  destruct (is_state s r); reflexivity.
Qed.

Lemma tally_counts rs :
  tally rs = (count Converted rs, count Skipped rs, count Errored rs).
Proof.
  induction rs as [| r rs IH] using rev_ind; [reflexivity|].
  rewrite tally_snoc, IH, !count_snoc. unfold is_state.
  destruct (classify r) as [[] |]; simpl; f_equal; try f_equal; lia.
Qed.

Lemma counts_total rs :
  (forall r, In r rs -> classify r <> None) ->
  count Converted rs + count Skipped rs + count Errored rs = length rs.
Proof.
  unfold count. induction rs as [| r rs IH]; intros Hall; [reflexivity|].
  assert (Hr : classify r <> None) by (apply Hall; left; reflexivity).
  assert (IH' := IH (fun r' H => Hall r' (or_intror H))).
  simpl.
  assert (Hone : (if is_state Converted r then 1 else 0) + (if is_state Skipped r then 1 else 0)
                 + (if is_state Errored r then 1 else 0) = 1).
  { unfold is_state. destruct (classify r) as [[] |]; [reflexivity .. | congruence]. }
  destruct (is_state Converted r), (is_state Skipped r), (is_state Errored r);
    simpl in *; lia.
Qed.

Lemma filter_length_perm {A} (f : A -> bool) (l l' : list A) :
  Permutation l l' -> length (List.filter f l) = length (List.filter f l').
Proof.
  induction 1; simpl; try congruence.
  - destruct (f x); simpl; congruence.
  - destruct (f x), (f y); reflexivity.
Qed.

Lemma filter_length_map {A B} (f : B -> bool) (g : A -> B) (l : list A) :
  length (List.filter f (List.map g l)) = length (List.filter (fun a => f (g a)) l).
Proof.
  induction l as [| a l IH]; [reflexivity|].
  simpl. destruct (f (g a)); simpl; congruence.
Qed.

(** The count of a state, from what is known of every task's result. *)
Lemma count_by_index s (cs : list (nat * result)) n (P : nat -> bool) :
  Permutation (List.map fst cs) (seq 0 n) ->
  (forall i r, In (i, r) cs -> is_state s r = P i) ->
  count s (List.map snd cs) = length (List.filter P (seq 0 n)).
Proof.
  intros Hperm Hall. unfold count.
  rewrite filter_length_map, <- (filter_length_perm P _ _ Hperm), filter_length_map.
  f_equal. apply List.filter_ext_in. intros [i r] Hin. simpl. auto.
Qed.

(** ** Workers with output paths of their own *)

Lemma safe_weaken ffmpeg (R R' G G' : world -> world -> Prop)
  (Q Q' : world -> result -> Prop) m :
  (forall w w', R' w w' -> R w w') ->
  (forall w w', G w w' -> G' w w') ->
  (forall w r, Q w r -> Q' w r) ->
  forall w, safe ffmpeg R G Q m w -> safe ffmpeg R' G' Q' m w.
Proof.
  intros HR HG HQ. induction m as [a | e | X ev k IH]; intros w Hs; simpl in *; auto.
  intros w1 Hw1. destruct (Hs w1 (HR _ _ Hw1)) as [Hg Hk]. auto.
Qed.

Lemma touches_same ps w w' : fs w' = fs w -> touches ps w w'.
Proof. intros H q Hq. rewrite H in Hq. congruence. Qed.

Lemma touches_spawn ps out argv r w :
  In out ps ->
  touches ps w
    {| fs := if wrote r then FS.add_file out (fs w) else fs w;
       trace := trace w ++ [Spawned argv r] |}.
Proof.
  intros Hin q Hq. simpl in Hq. destruct (wrote r); [| congruence].
  destruct (List.list_eq_dec string_dec q out) as [-> | Hne]; [exact Hin|].
  rewrite exists_add_file_other in Hq by exact Hne. congruence.
Qed.

Ltac touches_leaf :=
  split; [first [ exact I | reflexivity ] |];
  unfold would_skip, keeps in *; norm_fs;
  repeat match goal with
         | H : PyStr.startswith _ _ = _ |- _ => rewrite ?H in *; revert H
         end;
  intros;
  try match goal with
      | |- context [FS.exists_ ?n ?p] =>
          match goal with
          | H : FS.exists_ _ p = ?b |- _ => replace (FS.exists_ n p) with b by congruence
          end
      end;
  simpl; unfold SKIPPED; split; intros; congruence.

Ltac touches_tac :=
  first [ solve [ apply touches_same; first [ reflexivity | apply fs_log ] ]
        | solve [ apply touches_spawn;
                  repeat match goal with
                         | H : PurePath.with_suffix ?f ".opus" = inr ?p |- _ =>
                             rewrite ?(opus_of_inr f p H); revert H
                         | H : PurePath.with_suffix ?f ".jpg" = inr ?p |- _ =>
                             rewrite ?(jpg_of_inr f p H); revert H
                         end;
                  intros; simpl; tauto ]
        | eapply with_suffix_opus_inl; eassumption
        | eapply with_suffix_jpg_inl; eassumption
        | solve [ touches_leaf ] ].

(** A worker changes the file system at its two output paths at most,
    and, as long as the others leave its output path alone, it skips
    exactly the files that [would_skip] names. *)
Lemma convert_file_touches ffmpeg n flac br dry w :
  PurePath.name flac <> "" ->
  FS.exists_ (fs w) (opus_of flac) = FS.exists_ n (opus_of flac) ->
  safe ffmpeg (keeps (opus_of flac)) (touches [opus_of flac; jpg_of flac])
    (fun _ r => skip_iff n flac r)
    (convert_file flac br dry) w.
Proof.
  intros Hname Hw. unfold skip_iff.
  unfold_script.
  safe_walk touches_tac.
Qed.

Lemma opus_of_jpg_of flac flac' :
  PurePath.name flac <> "" -> PurePath.name flac' <> "" -> opus_of flac <> jpg_of flac'.
Proof.
  intros H H' Heq. unfold opus_of, jpg_of in Heq.
  pose proof (with_suffix_opus flac H) as Ho. pose proof (with_suffix_jpg flac' H') as Hj.
  rewrite Ho, Hj in Heq. symmetry in Heq. revert Heq. eapply jpg_not_opus; eassumption.
Qed.

(** A pool of workers whose output paths differ. *)
Lemma pool_touches ffmpeg n flac_list br dry sched w :
  Forall (fun flac => PurePath.name flac <> "") flac_list ->
  NoDup (List.map opus_of flac_list) ->
  let st := run_pool ffmpeg sched (submit n flac_list br dry w) in
  forall i r, In (i, r) (completed st) -> skip_iff (fs w) (file_of flac_list i) r.
Proof.
  intros Hnames Hnd st.
  assert (Hname : forall i flac, flac_list !! i = Some flac -> PurePath.name flac <> "").
  { intros i flac Hi. rewrite Forall_forall in Hnames. apply Hnames.
    eapply list_elem_of_lookup_2, Hi. }
  apply (pool_promises ffmpeg
           (fun i w1 w2 => i < length flac_list -> keeps (opus_of (file_of flac_list i)) w1 w2)
           (fun i w1 w2 =>
              i < length flac_list
              /\ touches [opus_of (file_of flac_list i); jpg_of (file_of flac_list i)] w1 w2)
           (fun i _ r => skip_iff (fs w) (file_of flac_list i) r) (fun _ => True)).
  - intros i w1 _. reflexivity.
  - unfold keeps. intros i w1 w2 w3 H12 H23 Hi. rewrite H23, H12 by exact Hi. reflexivity.
  - intros i w1 l m _. unfold keeps. rewrite fs_log. reflexivity.
  - intros i j w1 w2 Hne [Hj Ht] Hi. unfold keeps.
    destruct (Bool.bool_dec (FS.exists_ (fs w2) (opus_of (file_of flac_list i)))
                (FS.exists_ (fs w1) (opus_of (file_of flac_list i)))) as [Heq | Hneq];
      [exact Heq|].
    exfalso. apply Ht in Hneq.
    destruct (lookup_lt_is_Some_2 flac_list i Hi) as [fi Hfi].
    destruct (lookup_lt_is_Some_2 flac_list j Hj) as [fj Hfj].
    rewrite (file_of_lookup _ _ _ Hfi), (file_of_lookup _ _ _ Hfj) in Hneq.
    destruct Hneq as [Heq | [Heq | []]].
    + apply Hne. eapply (NoDup_lookup _ i j (opus_of fi) Hnd).
      * rewrite list_lookup_fmap, Hfi. reflexivity.
      * rewrite list_lookup_fmap, Hfj. simpl. congruence.
    + symmetry in Heq. revert Heq. apply opus_of_jpg_of; eauto.
  - auto.
  - auto.
  - auto.
  - exact I.
  - intros i flac Hi.
    assert (Hlt : i < length flac_list) by (eapply lookup_lt_Some; eauto).
    rewrite (file_of_lookup _ _ _ Hi).
    eapply safe_weaken; [| | | apply convert_file_touches; [eauto | reflexivity]].
    + intros w1 w2 H. exact (H Hlt).
    + intros w1 w2 H. split; [exact Hlt | exact H].
    + auto.
Qed.

(** ** Workers that let the tree grow *)

Lemma grows_same root w w' : fs w' = fs w -> grows root w w'.
Proof. intros H. unfold grows. rewrite H. auto. Qed.

Lemma grows_refl root w : grows root w w.
Proof. apply grows_same. reflexivity. Qed.

Lemma grows_trans root w1 w2 w3 : grows root w1 w2 -> grows root w2 w3 -> grows root w1 w3.
Proof.
  intros (He & Hd & Hg) (He' & Hd' & Hg'). split; [auto|]. split.
  - intros q. rewrite Hd', Hd. reflexivity.
  - congruence.
Qed.

Lemma grows_log root w l m : grows root w (log l m w).
Proof. apply grows_same, fs_log. Qed.

Lemma grows_spawn root out argv r w :
  PyStr.fnmatchcase (PurePath.name out) "*.flac" = false ->
  grows root w
    {| fs := if wrote r then FS.add_file out (fs w) else fs w;
       trace := trace w ++ [Spawned argv r] |}.
Proof.
  intros Hout. destruct (wrote r); [| apply grows_same; reflexivity].
  split; [| split]; simpl.
  - intros q. apply exists_add_file_mono.
  - intros q. apply is_dir_add_file.
  - unfold gather_flac_files. apply rglob_add_file, Hout.
Qed.

Lemma with_suffix_no_flac flac out suffix :
  PurePath.with_suffix flac suffix = inr out ->
  suffix <> "" -> last_char suffix <> Some "c"%char ->
  PyStr.fnmatchcase (PurePath.name out) "*.flac" = false.
Proof.
  intros H Hne Hl. apply with_suffix_inr in H. destruct H as [_ ->].
  rewrite name_snoc. apply replace_suffix_no_flac; assumption.
Qed.

Lemma with_suffix_parent flac out suffix :
  PurePath.with_suffix flac suffix = inr out ->
  PurePath.parent out = PurePath.parent flac /\ out <> [].
Proof.
  intros H. apply with_suffix_inr in H. destruct H as [_ ->].
  rewrite parent_snoc. split; [reflexivity|]. destruct (PurePath.parent flac); discriminate.
Qed.

Lemma settled_grows root flac w w' r : settled flac w r -> grows root w w' -> settled flac w' r.
Proof.
  unfold settled, would_skip. intros Hs (He & _) Hr. specialize (Hs Hr).
  apply orb_true_iff in Hs. apply orb_true_iff. destruct Hs; auto.
Qed.

Lemma would_skip_sidecar n flac :
  PyStr.startswith (PurePath.name flac) "._" = true -> would_skip n flac = true.
Proof. unfold would_skip. intros ->. reflexivity. Qed.

Lemma would_skip_exists n flac p :
  PurePath.with_suffix flac ".opus" = inr p -> FS.exists_ n p = true ->
  would_skip n flac = true.
Proof.
  unfold would_skip. intros H He. rewrite (opus_of_inr _ _ H), He. apply orb_true_r.
Qed.

Ltac grows_split :=
  repeat match goal with
         | H : grows _ _ _ |- _ => destruct H as (? & ? & ?)
         end;
  unfold record in *; cbn [fs wrote] in *; rewrite ?fs_log in *.

Ltac chain_exists :=
  repeat match goal with
         | H : forall q, FS.exists_ ?a q = true -> FS.exists_ ?b q = true,
           H' : FS.exists_ ?a ?p = true |- _ =>
             lazymatch goal with
             | _ : FS.exists_ b p = true |- _ => fail
             | _ => pose proof (H p H')
             end
         end.

Ltac chain_is_dir :=
  repeat first
    [ rewrite is_dir_add_file
    | match goal with
      | H : forall q, FS.is_dir _ q = FS.is_dir _ q |- _ => rewrite H
      | |- context [if ?b then _ else _] => destruct b
      end ].

(** [subprocess.run] returns for a child that wrote text and exited with
    status 0, and for no other. *)
Lemma run_result_ok argv r u :
  run_result argv r = inr u ->
  exists stdout stderr b,
    r = Exited 0 stdout stderr b
    /\ PyStr.decode stdout <> None /\ PyStr.decode stderr <> None.
Proof.
  destruct r as [descr | rc out err b]; simpl; [discriminate|].
  destruct (PyStr.decode out) eqn:Ho; [| discriminate].
  destruct (PyStr.decode err) eqn:He; [| discriminate].
  destruct (rc =? 0)%Z eqn:Hz; [| discriminate].
  apply Z.eqb_eq in Hz. subst rc. intros _. exists out, err, b.
  rewrite Ho, He. repeat split; discriminate.
Qed.

Ltac made_leaf Htool :=
  intros _; eapply would_skip_exists; [eassumption|];
  match goal with
  | Hrun : run_result _ (_ _ (transcode_cmd _ _ _)) = inr _ |- _ =>
      let Hex := fresh "Hex" in
      destruct (run_result_ok _ _ _ Hrun) as (? & ? & ? & Hex & _ & _);
      pose proof (Htool _ _ _ _ _ _ _ Hex); subst; rewrite Hex in *
  end;
  grows_split;
  match goal with
  | Hs : PurePath.with_suffix _ ".opus" = inr _ |- _ =>
      let Hpar := fresh "Hpar" in
      let Hnil := fresh "Hnil" in
      destruct (with_suffix_parent _ _ _ Hs) as [Hpar Hnil];
      match goal with
      | H : forall q, FS.exists_ (FS.add_file ?p ?n) q = true -> _ |- _ =>
          assert (FS.exists_ (FS.add_file p n) p = true)
            by (apply exists_add_file_self;
                [rewrite Hpar; chain_is_dir; assumption | assumption])
      end
  end;
  chain_exists; assumption.

Ltac grows_tac Htool :=
  first [ solve [ apply grows_same; first [ reflexivity | apply fs_log ] ]
        | solve [ apply grows_spawn; eapply with_suffix_no_flac;
                  [ eassumption | discriminate | discriminate ] ]
        | eapply with_suffix_opus_inl; eassumption
        | eapply with_suffix_jpg_inl; eassumption
        | solve [ intros [? | ?]; discriminate ]
        | solve [ intros _; apply would_skip_sidecar; assumption ]
        | solve [ intros _; eapply would_skip_exists; [ eassumption |];
                  grows_split; chain_exists; assumption ]
        | solve [ made_leaf Htool ] ].

(** A worker that does convert lets the world grow, and leaves its file
    as one to skip unless it ends with an error. *)
Lemma convert_file_grows ffmpeg root flac br w :
  creates_output ffmpeg ->
  PurePath.name flac <> "" ->
  FS.is_dir (fs w) (PurePath.parent flac) = true ->
  safe ffmpeg (grows root) (grows root) (settled flac) (convert_file flac br false) w.
Proof.
  intros Htool Hname Hdir. unfold settled.
  unfold_script.
  safe_walk ltac:(grows_tac Htool).
Qed.

(** A pool of workers that do convert, with a tool that keeps its part
    of the bargain. *)
Lemma pool_grows ffmpeg root n flac_list br sched w :
  creates_output ffmpeg ->
  Forall (fun flac => PurePath.name flac <> "") flac_list ->
  Forall (fun flac => FS.is_dir (fs w) (PurePath.parent flac) = true) flac_list ->
  let st := run_pool ffmpeg sched (submit n flac_list br false w) in
  grows root w (now st)
  /\ (forall i r, In (i, r) (completed st) -> settled (file_of flac_list i) (now st) r).
Proof.
  intros Htool Hnames Hdirs.
  apply (pool_promises ffmpeg (fun _ => grows root) (fun _ => grows root)
           (fun i w1 r => settled (file_of flac_list i) w1 r) (grows root w)).
  - intros. apply grows_refl.
  - intros i. apply grows_trans.
  - intros. apply grows_log.
  - auto.
  - intros i w1 w2 r. apply settled_grows.
  - intros i w1 w2. apply grows_trans.
  - intros w1 l m H. eapply grows_trans; [exact H | apply grows_log].
  - apply grows_refl.
  - intros i flac Hi. rewrite (file_of_lookup _ _ _ Hi).
    rewrite Forall_forall in Hnames, Hdirs.
    apply convert_file_grows; [exact Htool | |].
    + apply Hnames. eapply list_elem_of_lookup_2, Hi.
    + apply Hdirs. eapply list_elem_of_lookup_2, Hi.
Qed.

(** Whatever the interleaving, a result is an exception or a tuple with
    exactly one flag. *)
Lemma pool_valid ffmpeg n flac_list br dry sched w :
  let st := run_pool ffmpeg sched (submit n flac_list br dry w) in
  forall i r, In (i, r) (completed st) -> valid r.
Proof.
  intros st.
  apply (pool_promises ffmpeg (fun _ _ _ => True) (fun _ _ _ => True)
           (fun _ _ r => valid r) (fun _ => True)); auto.
  intros i flac _. apply convert_file_valid.
Qed.

(** *** One process *)

Lemma exec_bind ffmpeg {A B} (m : prog A) (f : A -> prog B) : forall w,
  exec ffmpeg (bind m f) w
  = let '(r, w') := exec ffmpeg m w in
    match r with
    | inr a => exec ffmpeg (f a) w'
    | inl e => (inl e, w')
    end.
Proof.
  induction m as [a | e | X ev k IH]; intros w; simpl; try reflexivity.
  destruct (handle ffmpeg ev w) as [x w']. apply IH.
Qed.

(** A program that keeps a promise when run next to others keeps it when
    run alone. *)
Lemma exec_safe ffmpeg (R G : world -> world -> Prop) (Q : world -> result -> Prop) m :
  (forall w, R w w) ->
  forall w (P : world -> Prop),
    (forall w1 w2, P w1 -> G w1 w2 -> P w2) ->
    safe ffmpeg R G Q m w -> P w ->
    Q (snd (exec ffmpeg m w)) (fst (exec ffmpeg m w)) /\ P (snd (exec ffmpeg m w)).
Proof.
  intros HR. induction m as [a | e | X ev k IH]; intros w P HP Hs Hw; simpl; auto.
  simpl in Hs. specialize (Hs w (HR w)).
  destruct (handle ffmpeg ev w) as [x w'] eqn:Hh. simpl in Hs.
  destruct Hs as [Hg Hs]. eauto.
Qed.

Lemma valid_cases t :
  exactly_one t = true <-> t = CONVERTED \/ t = SKIPPED \/ t = ERRORED.
Proof.
  unfold CONVERTED, SKIPPED, ERRORED.
  destruct t as [[[] []] []]; simpl; split; intros H;
    try discriminate; try reflexivity; intuition congruence.
Qed.

Lemma valid_classify r : valid r -> classify r <> None.
Proof.
  destruct r as [e | [[[] []] []]]; simpl; intros H; try discriminate.
Qed.

(** ** How [main] ends *)

Lemma main_invalid_root ffmpeg a sched w :
  FS.is_dir (fs w) (root a) = false ->
  main ffmpeg a sched w
  = {| exit_status := 1; found := None; summary := None; uncaught := None;
       final := log ERROR (DirectoryNotFound (root a)) w |}.
Proof. intros H. unfold main. rewrite H. reflexivity. Qed.

Lemma main_nothing_found ffmpeg a sched w :
  FS.is_dir (fs w) (root a) = true ->
  gather_flac_files (fs w) (root a) = [] ->
  main ffmpeg a sched w
  = {| exit_status := 0; found := Some 0; summary := None; uncaught := None;
       final := pool_start a w |}.
Proof. intros H Hg. unfold main, pool_start. rewrite H, Hg. reflexivity. Qed.

Lemma main_no_workers ffmpeg a sched w :
  FS.is_dir (fs w) (root a) = true ->
  gather_flac_files (fs w) (root a) <> [] ->
  (jobs a <= 0)%Z ->
  main ffmpeg a sched w
  = {| exit_status := 1;
       found := Some (length (gather_flac_files (fs w) (root a)));
       summary := None;
       uncaught := Some (ValueError "max_workers must be greater than 0");
       final := pool_start a w |}.
Proof.
  intros H Hg Hj. unfold main, pool_start, ProcessPoolExecutor. rewrite H. simpl.
  destruct (gather_flac_files (fs w) (root a)) as [| f l]; [congruence|].
  simpl. apply Z.leb_le in Hj. rewrite Hj. reflexivity.
Qed.

Lemma main_pool ffmpeg a sched w :
  FS.is_dir (fs w) (root a) = true ->
  gather_flac_files (fs w) (root a) <> [] ->
  (0 < jobs a)%Z ->
  let st := pool_end ffmpeg a sched w in
  main ffmpeg a sched w
  = {| exit_status := if Nat.ltb 0 (errors st) then 1 else 0;
       found := Some (length (gather_flac_files (fs w) (root a)));
       summary := Some (converted st, skipped st, errors st);
       uncaught := None;
       final := log INFO (ConversionComplete (converted st) (skipped st) (errors st)) (now st) |}.
Proof.
  intros H Hg Hj. unfold main, pool_end, pool_start, ProcessPoolExecutor. rewrite H. simpl.
  destruct (gather_flac_files (fs w) (root a)) as [| f l] eqn:Hl; [congruence|].
  simpl Nat.eqb. cbv iota.
  destruct (jobs a <=? 0)%Z eqn:Hle; [apply Z.leb_le in Hle; lia|].
  reflexivity.
Qed.

(** The four ways [main] ends. *)
Lemma main_cases (a : args) (w : world) :
  (FS.is_dir (fs w) (root a) = false)
  \/ (FS.is_dir (fs w) (root a) = true /\ gather_flac_files (fs w) (root a) = [])
  \/ (FS.is_dir (fs w) (root a) = true /\ gather_flac_files (fs w) (root a) <> []
      /\ (jobs a <= 0)%Z)
  \/ (FS.is_dir (fs w) (root a) = true /\ gather_flac_files (fs w) (root a) <> []
      /\ (0 < jobs a)%Z).
Proof.
  destruct (FS.is_dir (fs w) (root a)); [| auto].
  destruct (gather_flac_files (fs w) (root a)); [auto|].
  destruct (Z_le_gt_dec (jobs a) 0); [right; right; left | right; right; right];
    repeat split; (discriminate || lia).
Qed.

(** A pool accounts for every file it was given. *)
Lemma pool_total ffmpeg n flac_list br dry sched w :
  let st := run_pool ffmpeg sched (submit n flac_list br dry w) in
  converted st + skipped st + errors st = length flac_list.
Proof.
  intros st. unfold st.
  destruct (run_pool_completed ffmpeg sched n flac_list br dry w) as [Hperm Hcnt].
  pose proof (pool_valid ffmpeg n flac_list br dry sched w) as Hv.
  simpl in Hv. unfold counters in Hcnt. rewrite tally_counts in Hcnt.
  inversion Hcnt as [[Hc Hs He]]. rewrite Hc, Hs, He, counts_total.
  - rewrite length_map, <- (length_map fst). rewrite (Permutation_length Hperm).
    apply length_seq.
  - intros r Hin. apply in_map_iff in Hin. destruct Hin as ([i r'] & <- & Hin).
    apply valid_classify. eapply Hv, Hin.
Qed.

Lemma summary_found ffmpeg a sched w c s e :
  summary (main ffmpeg a sched w) = Some (c, s, e) ->
  FS.is_dir (fs w) (root a) = true
  /\ gather_flac_files (fs w) (root a) <> []
  /\ (0 < jobs a)%Z
  /\ c = converted (pool_end ffmpeg a sched w)
  /\ s = skipped (pool_end ffmpeg a sched w)
  /\ e = errors (pool_end ffmpeg a sched w).
Proof.
  intros Hsum.
  destruct (main_cases a w) as [H | [[H Hg] | [(H & Hg & Hj) | (H & Hg & Hj)]]].
  - rewrite main_invalid_root in Hsum by exact H. discriminate.
  - rewrite main_nothing_found in Hsum by assumption. discriminate.
  - rewrite main_no_workers in Hsum by assumption. discriminate.
  - rewrite main_pool in Hsum by assumption. simpl in Hsum. inversion Hsum. auto 10.
Qed.

(** C1. Every submitted task is handled exactly once and adds one to
    exactly one counter (to the error counter when its future raises),
    whatever the order in which the workers take their steps and end; so
    the counters of the summary add up to the number of files found. *)
Theorem C1_counters_account_for_every_task (ffmpeg : tool) :
  (forall flac r c s e w x,
      classify r = Some x -> fst (collect flac r (c, s, e, w)) = bump x (c, s, e))
  /\ (forall n flac_list br dry sched w,
        let st := run_pool ffmpeg sched (submit n flac_list br dry w) in
        Permutation (List.map fst (completed st)) (seq 0 (length flac_list))
        /\ (forall i r, In (i, r) (completed st) ->
              exists x, classify r = Some x /\ (forall exc, r = inl exc -> x = Errored))
        /\ counters st = tally (List.map snd (completed st))
        /\ converted st + skipped st + errors st = length flac_list)
  /\ (forall a sched w c s e,
        summary (main ffmpeg a sched w) = Some (c, s, e) ->
        found (main ffmpeg a sched w) = Some (c + s + e)
        /\ c + s + e = length (gather_flac_files (fs w) (root a))).
Proof.
  split; [| split].
  - intros flac r c s e w x Hx. rewrite collect_counters, Hx. reflexivity.
  - intros n flac_list br dry sched w st.
    destruct (run_pool_completed ffmpeg sched n flac_list br dry w) as [Hperm Hcnt].
    split; [exact Hperm|]. split; [| split; [exact Hcnt | apply pool_total]].
    intros i r Hin.
    pose proof (pool_valid ffmpeg n flac_list br dry sched w i r Hin) as Hv.
    destruct (classify r) as [x |] eqn:Hx; [| destruct (valid_classify r Hv Hx)].
    exists x. split; [reflexivity|]. intros exc ->. simpl in Hx. congruence.
  - intros a sched w c s e Hsum.
    destruct (summary_found _ _ _ _ _ _ _ Hsum) as (H & Hg & Hj & -> & -> & ->).
    rewrite main_pool by assumption. simpl.
    unfold pool_end. rewrite pool_total. auto.
Qed.

(** ** The properties of the worker *)

(** C7. A tuple that [convert_file] returns has exactly one flag set, run
    alone or next to other workers; the parent files it under the state of
    that flag, and files a future that raised under Errored. *)
Theorem C7_exactly_one_outcome (ffmpeg : tool) :
  (forall flac br dry w t,
      fst (exec ffmpeg (convert_file flac br dry) w) = inr t ->
      exactly_one t = true /\ (t = CONVERTED \/ t = SKIPPED \/ t = ERRORED))
  /\ (forall n flac_list br dry sched w i t,
        In (i, inr t) (completed (run_pool ffmpeg sched (submit n flac_list br dry w))) ->
        exactly_one t = true)
  /\ classify (inr CONVERTED) = Some Converted
  /\ classify (inr SKIPPED) = Some Skipped
  /\ classify (inr ERRORED) = Some Errored
  /\ (forall exc flac c s e w,
        classify (inl exc) = Some Errored
        /\ fst (collect flac (inl exc) (c, s, e, w)) = (c, s, e + 1)).
Proof.
  split; [| split; [| repeat split]].
  - intros flac br dry w t Ht.
    destruct (exec_safe ffmpeg (fun _ _ => True) (fun _ _ => True) (fun _ r => valid r)
                (convert_file flac br dry) (fun _ => I) w (fun _ => True)) as [Hv _]; auto.
    { apply convert_file_valid. }
    rewrite Ht in Hv. simpl in Hv. split; [exact Hv | apply valid_cases, Hv].
  - intros n flac_list br dry sched w i t Hin.
    exact (pool_valid ffmpeg n flac_list br dry sched w i (inr t) Hin).
Qed.



(** C8. When the cover path exists, [extract_cover] returns [False] at
    once: it has asked that one question, and has spawned nothing and
    raised nothing. *)
Theorem C8_existing_cover_is_a_noop (ffmpeg : tool) (flac cover_jpg : path) (dry : bool)
  (w : world) :
  PurePath.with_suffix flac ".jpg" = inr cover_jpg ->
  FS.exists_ (fs w) cover_jpg = true ->
  exec ffmpeg (extract_cover flac dry) w = (inr false, record (Asked cover_jpg true) w)
  /\ spawned (snd (exec ffmpeg (extract_cover flac dry) w)) = spawned w
  /\ fs (snd (exec ffmpeg (extract_cover flac dry) w)) = fs w.
Proof.
  intros Hjpg Hex.
  assert (Hrun : exec ffmpeg (extract_cover flac dry) w
                 = (inr false, record (Asked cover_jpg true) w)).
  { unfold extract_cover, lift, path_exists, logging, mbind, mret, prog_bind, prog_ret.
    rewrite Hjpg. cbn [exec bind handle].
    destruct (path_exists_cases (fs w) cover_jpg)
      as [(e & _ & Hno & _) | [(-> & _) | (_ & Hno & _)]]; [congruence | | congruence].
    reflexivity. }
  rewrite Hrun. split; [reflexivity|]. split; [apply spawned_record_asked | reflexivity].
Qed.

Lemma failed_run_result argv r :
  failed r = match run_result argv r with inl _ => true | inr _ => false end.
Proof.
  destruct r as [descr | rc out err b]; [reflexivity|].
  unfold failed, run_result, PyStr.decode.
  destruct (PyStr.valid_utf8 out); [| reflexivity].
  destruct (PyStr.valid_utf8 err); [| reflexivity].
  destruct (rc =? 0)%Z; reflexivity.
Qed.

Lemma spawned_spawn argv r n w :
  spawned {| fs := n; trace := trace w ++ [Spawned argv r] |} = spawned w ++ [argv].
Proof. unfold spawned. simpl. rewrite flat_map_app. reflexivity. Qed.

Lemma log_debug m w : log DEBUG m w = w.
Proof. reflexivity. Qed.

Lemma fs_record o w : fs (record o w) = fs w.
Proof. reflexivity. Qed.

Lemma trace_log l m w :
  trace (log l m w) = trace w ++ (if enabled l then [Logged l m] else []).
Proof. unfold log. destruct (enabled l); simpl; [reflexivity | symmetry; apply app_nil_r]. Qed.

(** ** The worker, step by step *)

(** [extract_cover], decision by decision. *)
Lemma extract_cover_table ffmpeg flac cover_jpg dry w :
  PurePath.with_suffix flac ".jpg" = inr cover_jpg ->
  let answer := FS.path_exists (fs w) cover_jpg in
  let checked := record (asked cover_jpg answer) w in
  let announced := log INFO (ExtractingCoverArt flac cover_jpg) checked in
  let cmd := cover_cmd flac cover_jpg in
  let ran := snd (handle ffmpeg (SubprocessRun cmd cover_jpg) announced) in
  exec ffmpeg (extract_cover flac dry) w
  = match answer with
    | inl e => (inl e, checked)
    | inr true => (inr false, checked)
    | inr false =>
        if dry then (inr true, log INFO (DryRunWouldExtract cover_jpg) announced)
        else
          match run_result cmd (ffmpeg announced cmd) with
          | inr _ => (inr true, ran)
          | inl e => (inr false, log WARNING (CoverExtractionFailed flac e) ran)
          end
    end.
Proof.
  intros Hjpg. cbv zeta. unfold cover_cmd.
  unfold extract_cover, path_exists, logging, subprocess_run, lift,
    mbind, mret, prog_bind, prog_ret.
  rewrite Hjpg. cbn [bind exec handle].
  destruct (FS.path_exists (fs w) cover_jpg) as [e | []]; cbn [asked bind exec handle];
    try reflexivity.
  destruct dry; [reflexivity|].
  cbn [exec bind try_except handle fst snd]. rewrite ?log_debug.
  match goal with
  | |- context [run_result ?c ?r] => destruct (run_result c r) as [e | []]
  end; cbn [exec bind try_except handle fst snd]; rewrite ?log_debug; reflexivity.
Qed.

(** What [extract_cover] leaves of the commands spawned. *)
Lemma extract_cover_spawned ffmpeg flac cover_jpg dry w :
  PurePath.with_suffix flac ".jpg" = inr cover_jpg ->
  spawned (snd (exec ffmpeg (extract_cover flac dry) w))
  = spawned w
    ++ (if dry then []
        else match FS.path_exists (fs w) cover_jpg with
             | inr false => [cover_cmd flac cover_jpg]
             | _ => []
             end).
Proof.
  intros Hjpg. rewrite (extract_cover_table ffmpeg flac cover_jpg dry w Hjpg).
  destruct (FS.path_exists (fs w) cover_jpg) as [e | []]; cbn [snd asked].
  - rewrite spawned_record_refused. destruct dry; rewrite app_nil_r; reflexivity.
  - rewrite spawned_record_asked. destruct dry; rewrite app_nil_r; reflexivity.
  - destruct dry.
    + cbn [snd]. rewrite !spawned_log, spawned_record_asked, app_nil_r. reflexivity.
    + destruct (run_result _ _); cbn [snd handle];
        rewrite ?spawned_log, spawned_spawn, ?spawned_log, spawned_record_asked; reflexivity.
Qed.


(** Inside [convert_file], where the check for the output has answered
    that there is none, [extract_cover] returns. *)
Lemma cover_returns ffmpeg flac opus_path dry w :
  PurePath.with_suffix flac ".opus" = inr opus_path ->
  FS.path_exists (fs w) opus_path = inr false ->
  exists b,
    fst (exec ffmpeg (extract_cover flac dry) (record (Asked opus_path false) w)) = inr b.
Proof.
  intros Hopus Hask.
  assert (Hname : PurePath.name flac <> "") by (apply with_suffix_inr in Hopus; tauto).
  pose proof (with_suffix_jpg flac Hname) as Hjpg.
  rewrite (extract_cover_table ffmpeg flac _ dry _ Hjpg). rewrite fs_record.
  destruct (path_exists_cases (fs w) opus_path)
    as [(e & He & _) | [(He & _) | (_ & Hno & Hfit)]]; try congruence.
  destruct (path_exists_cases (fs w)
              (PurePath.parent flac ++ [PurePath.replace_suffix (PurePath.name flac) ".jpg"]))
    as [(e & _ & _ & Hlong) | [(-> & _) | (-> & _)]].
  - exfalso. eapply cover_check_raises; eauto.
  - simpl. eauto.
  - destruct dry; [simpl; eauto|]. destruct (run_result _ _); simpl; eauto.
Qed.

(** [convert_file], decision by decision. *)
Lemma convert_file_table (ffmpeg : tool) (flac : path) (br : string) (dry : bool) (w : world)
  (opus_path : path) :
  PurePath.with_suffix flac ".opus" = inr opus_path ->
  let answer := FS.path_exists (fs w) opus_path in
  let checked := record (asked opus_path answer) w in
  let cover := exec ffmpeg (extract_cover flac dry) checked in
  let started := log INFO (Converting flac) (snd cover) in
  let cmd := transcode_cmd flac opus_path br in
  let ran := snd (handle ffmpeg (SubprocessRun cmd opus_path) started) in
  exec ffmpeg (convert_file flac br dry) w
  = if PyStr.startswith (PurePath.name flac) "._" then (inr SKIPPED, w)
    else
      match answer with
      | inl e => (inl e, checked)
      | inr true => (inr SKIPPED, checked)
      | inr false =>
          match fst cover with
          | inl e => (inl e, snd cover)
          | inr _ =>
              if dry then
                (inr CONVERTED, log INFO (DryRunWouldConvert flac opus_path) started)
              else
                match run_result cmd (ffmpeg started cmd) with
                | inr _ => (inr CONVERTED, log INFO (SuccessfullyCreated opus_path) ran)
                | inl e => (inr ERRORED, report_failure flac e ran)
                end
          end
      end.
Proof.
  intros Hopus. cbv zeta.
  unfold convert_file, path_exists, logging, subprocess_run, lift,
    mbind, mret, prog_bind, prog_ret.
  rewrite Hopus. cbn [bind].
  destruct (PyStr.startswith (PurePath.name flac) "._"); [reflexivity|].
  cbn [exec bind handle].
  destruct (FS.path_exists (fs w) opus_path) as [e | []]; cbn [asked bind exec handle];
    try reflexivity.
  rewrite exec_bind.
  destruct (exec ffmpeg (extract_cover flac dry) (record (Asked opus_path false) w))
    as [[e | b] wc]; cbn [fst snd]; [reflexivity|].
  destruct dry; [reflexivity|].
  cbn [exec bind try_except handle fst snd]. rewrite ?log_debug.
  match goal with
  | |- context [run_result ?c ?r] => destruct (run_result c r) as [e | []]
  end; cbn [exec bind try_except handle fst snd]; [| reflexivity].
  destruct e as [msg | rc argv stderr | descr | object];
    cbn [exec bind try_except handle fst snd report_failure]; try reflexivity.
  destruct (String.eqb stderr ""); reflexivity.
Qed.



(** ** Discovery and exit status *)

Lemma step_files ffmpeg st i : files (step ffmpeg st i) = files st.
Proof.
  unfold step. destruct (tasks st !! i) as [[m | m |] |]; try reflexivity.
  - destruct (may_start st i); reflexivity.
  - destruct m as [a | e | X ev k]; try apply complete_files.
    destruct (handle ffmpeg ev (now st)). reflexivity.
Qed.

Lemma finish_files ffmpeg st i : files (finish ffmpeg st i) = files st.
Proof.
  unfold finish. destruct (tasks st !! i) as [t |]; [| reflexivity].
  destruct (program t) as [m |]; [| reflexivity].
  destruct (exec ffmpeg m (now st)). apply complete_files.
Qed.

Lemma run_pool_files ffmpeg sched st : files (run_pool ffmpeg sched st) = files st.
Proof.
  unfold run_pool.
  assert (H1 : forall l s, files (fold_left (step ffmpeg) l s) = files s).
  { induction l as [| i l IH]; intros s; simpl; [reflexivity|].
    rewrite IH. apply step_files. }
  assert (H2 : forall l s, files (fold_left (finish ffmpeg) l s) = files s).
  { induction l as [| i l IH]; intros s; simpl; [reflexivity|].
    rewrite IH. apply finish_files. }
  rewrite H2. apply H1.
Qed.

Lemma gather_names n root :
  Forall (fun flac => PurePath.name flac <> "") (gather_flac_files n root).
Proof.
  apply Forall_forall. intros p Hp. apply list_elem_of_In in Hp.
  apply rglob_name in Hp. apply fnmatch_flac_not_empty, Hp.
Qed.

Lemma found_total ffmpeg a sched w total :
  found (main ffmpeg a sched w) = Some total ->
  total = length (gather_flac_files (fs w) (root a)).
Proof.
  intros Hf.
  destruct (main_cases a w) as [H | [[H Hg] | [(H & Hg & Hj) | (H & Hg & Hj)]]].
  - rewrite main_invalid_root in Hf by exact H. discriminate.
  - rewrite main_nothing_found in Hf by assumption. rewrite Hg. simpl in *. congruence.
  - rewrite main_no_workers in Hf by assumption. simpl in Hf. congruence.
  - rewrite main_pool in Hf by assumption. simpl in Hf. congruence.
Qed.

(** C9. The search reports exactly the existing paths below the root
    whose name ends in [.flac], in these very characters: a name with
    another extension of five characters, [song.FLAC] say, is not
    reported, and so is no task of the pool and no part of the count. *)
Theorem C9_discovery_is_case_sensitive (n : FS.node) (dir : path) :
  (FS.wf n = true ->
   forall p,
     In p (gather_flac_files n dir)
     <-> FS.is_dir n dir = true
         /\ exists rel, p = dir ++ rel /\ rel <> [] /\ FS.exists_ n p = true
              /\ exists stem, PurePath.name p = (stem ++ ".flac")%string)
  /\ (forall p, In p (gather_flac_files n dir) ->
        exists stem, PurePath.name p = (stem ++ ".flac")%string)
  /\ (forall p stem ext,
        In p (gather_flac_files n dir) ->
        PurePath.name p = (stem ++ ext)%string -> String.length ext = 5 -> ext = ".flac")
  /\ (forall p, In p (gather_flac_files n dir) -> PurePath.name p <> "song.FLAC")
  /\ (forall ffmpeg a sched total,
        found (main ffmpeg a sched (mkWorld n [])) = Some total ->
        total = length (gather_flac_files n (root a)))
  /\ (forall ffmpeg a sched,
        files (pool_end ffmpeg a sched (mkWorld n [])) = gather_flac_files n (root a)).
Proof.
  assert (Hname : forall p, In p (gather_flac_files n dir) ->
                    exists stem, PurePath.name p = (stem ++ ".flac")%string).
  { intros p Hp. apply rglob_name in Hp. apply fnmatch_flac in Hp. exact Hp. }
  assert (Hext : forall p stem ext,
             In p (gather_flac_files n dir) ->
             PurePath.name p = (stem ++ ext)%string -> String.length ext = 5 -> ext = ".flac").
  { intros p stem ext Hp Heq Hlen. destruct (Hname p Hp) as (stem' & Hs).
    rewrite Hs in Heq. symmetry in Heq.
    apply append_same_length_tail in Heq; [tauto | exact Hlen]. }
  split; [| split; [exact Hname | split; [exact Hext | split; [| split]]]].
  - intros Hwf p. unfold gather_flac_files. rewrite (in_rglob n dir "*.flac" p Hwf).
    split.
    + intros (Hd & rel & -> & Hne & Hex & Hm). split; [exact Hd|].
      exists rel. repeat split; auto. apply fnmatch_flac, Hm.
    + intros (Hd & rel & -> & Hne & Hex & Hm). split; [exact Hd|].
      exists rel. repeat split; auto. apply fnmatch_flac, Hm.
  - intros p Hp Heq. assert (H := Hext p "song" ".FLAC" Hp Heq eq_refl). discriminate.
  - intros ffmpeg a sched total. apply found_total.
  - intros ffmpeg a sched. unfold pool_end. rewrite run_pool_files. reflexivity.
Qed.

(** C2, as the script has it. An invalid root ends the process with
    status 1 before anything is searched or spawned. Else, if the pool
    can be made (the worker count is positive, or nothing was found and
    no pool is made), the status is 1 exactly when an error was counted,
    and 0 otherwise. With files found and a worker count below one the
    pool refuses to be made, and the exception ends the process with
    status 1 with no task run and no error counted. *)
Theorem C2_exit_status (ffmpeg : tool) (a : args) (sched : list nat) (w : world) :
  let e := main ffmpeg a sched w in
  (FS.is_dir (fs w) (root a) = false ->
     exit_status e = 1%Z /\ found e = None /\ summary e = None /\ uncaught e = None
     /\ final e = log ERROR (DirectoryNotFound (root a)) w)
  /\ ((0 < jobs a)%Z \/ gather_flac_files (fs w) (root a) = [] ->
        (exit_status e = 1%Z <-> FS.is_dir (fs w) (root a) = false \/ n_errors e <> 0)
        /\ (exit_status e <> 1%Z -> exit_status e = 0%Z)
        /\ uncaught e = None)
  /\ (FS.is_dir (fs w) (root a) = true -> gather_flac_files (fs w) (root a) <> [] ->
      (jobs a <= 0)%Z ->
        exit_status e = 1%Z /\ n_errors e = 0 /\ summary e = None
        /\ uncaught e = Some (ValueError "max_workers must be greater than 0")
        /\ final e = pool_start a w).
Proof.
  intros e. unfold e. split; [| split].
  - intros H. rewrite main_invalid_root by exact H. simpl. auto.
  - intros Hok.
    destruct (main_cases a w) as [H | [[H Hg] | [(H & Hg & Hj) | (H & Hg & Hj)]]].
    + rewrite main_invalid_root by exact H. simpl.
      split; [tauto|]. split; [congruence | reflexivity].
    + rewrite main_nothing_found by assumption. unfold n_errors. simpl.
      split; [| split; [reflexivity | reflexivity]].
      split; [discriminate | intros [? | ?]; congruence].
    + destruct Hok; [lia | congruence].
    + rewrite main_pool by assumption. unfold n_errors. simpl.
      destruct (errors (pool_end ffmpeg a sched w)) as [| k] eqn:He; simpl.
      * split; [| split; [reflexivity | reflexivity]].
        split; [discriminate | intros [? | ?]; congruence].
      * split; [| split; [congruence | reflexivity]].
        split; [intros _; right; discriminate | reflexivity].
  - intros H Hg Hj. rewrite main_no_workers by assumption. unfold n_errors. simpl. auto 10.
Qed.

(** ** Dry runs and second runs *)

Lemma fs_pool_start a w : fs (pool_start a w) = fs w.
Proof. apply fs_log. Qed.

Lemma spawned_pool_start a w : spawned (pool_start a w) = spawned w.
Proof. apply spawned_log. Qed.

Lemma filter_none_length {A} (l : list A) : length (List.filter (fun _ => false) l) = 0.
Proof. induction l; simpl; auto. Qed.

Lemma filter_all_length {A} (l : list A) : length (List.filter (fun _ => true) l) = length l.
Proof. induction l; simpl; auto. Qed.

Lemma is_state_quiet_result n flac s :
  is_state s (quiet_result n flac)
  = match s with
    | Converted => negb (would_skip n flac) && negb (refused n flac)
    | Skipped => would_skip n flac
    | Errored => refused n flac
    end.
Proof.
  unfold quiet_result, would_skip, refused.
  destruct (PyStr.startswith _ _); [destruct s; reflexivity|]. cbn [orb negb andb].
  destruct (path_exists_cases n (opus_of flac))
    as [(e & -> & -> & _) | [(-> & -> & _) | (-> & -> & _)]]; destruct s; reflexivity.
Qed.

Lemma refused_skip n flac : would_skip n flac = true -> refused n flac = false.
Proof.
  unfold would_skip, refused. destruct (PyStr.startswith _ _); [reflexivity|].
  cbn [orb negb andb]. intros Hex.
  destruct (path_exists_cases n (opus_of flac))
    as [(e & _ & Hno & _) | [(-> & _) | (-> & _)]]; [congruence | reflexivity ..].
Qed.

Lemma is_state_skip_iff n flac r :
  skip_iff n flac r -> is_state Skipped r = would_skip n flac.
Proof.
  intros (Hv & Hiff). unfold SKIPPED in Hiff.
  destruct (would_skip n flac).
  - destruct Hiff as [_ H]. rewrite (H eq_refl). reflexivity.
  - destruct r as [e | [[[] []] []]]; try discriminate; try reflexivity.
    destruct Hiff as [H _]. specialize (H eq_refl). discriminate.
Qed.

(** The counters of a pool that ran dry, or found all its files done. *)
Lemma pool_quiet_counters ffmpeg n flac_list br dry sched w :
  Forall (fun flac => PurePath.name flac <> "") flac_list ->
  dry = true \/ Forall (fun flac => would_skip (fs w) flac = true) flac_list ->
  let st := run_pool ffmpeg sched (submit n flac_list br dry w) in
  skipped st
  = length (List.filter (fun i => would_skip (fs w) (file_of flac_list i))
              (seq 0 (length flac_list)))
  /\ errors st
     = length (List.filter (fun i => refused (fs w) (file_of flac_list i))
                 (seq 0 (length flac_list)))
  /\ quiet w (now st).
Proof.
  intros Hnames Hdry st.
  destruct (pool_quiet ffmpeg n flac_list br dry sched w Hnames Hdry) as [Hq Hres].
  destruct (run_pool_completed ffmpeg sched n flac_list br dry w) as [Hperm Hcnt].
  fold st in Hq, Hres, Hperm, Hcnt.
  unfold counters in Hcnt. rewrite tally_counts in Hcnt. inversion Hcnt as [[Hc Hs He]].
  split; [| split; [| exact Hq]].
  - rewrite Hs. apply count_by_index; [exact Hperm|].
    intros i r Hin. rewrite (Hres i r Hin). apply (is_state_quiet_result _ _ Skipped).
  - rewrite He. apply count_by_index; [exact Hperm|].
    intros i r Hin. rewrite (Hres i r Hin). apply (is_state_quiet_result _ _ Errored).
Qed.

Lemma map_file_of flac_list : List.map (file_of flac_list) (seq 0 (length flac_list)) = flac_list.
Proof.
  induction flac_list as [|flac l IH]; [reflexivity|].
  cbn [length seq List.map]. rewrite <- seq_shift, List.map_map.
  f_equal. exact IH.
Qed.

Lemma filter_by_index (P : path -> bool) flac_list :
  length (List.filter (fun i => P (file_of flac_list i)) (seq 0 (length flac_list)))
  = length (List.filter P flac_list).
Proof.
  rewrite <- (filter_length_map P (file_of flac_list)), map_file_of. reflexivity.
Qed.



Lemma gather_parents n dir :
  FS.wf n = true ->
  Forall (fun flac => FS.is_dir n (PurePath.parent flac) = true) (gather_flac_files n dir).
Proof.
  intros Hwf. apply Forall_forall. intros p Hp. apply list_elem_of_In in Hp.
  apply (in_rglob n dir "*.flac" p Hwf) in Hp.
  destruct Hp as (_ & rel & -> & Hne & Hex & _).
  apply exists_parent; [exact Hex|]. intros Heq. apply app_eq_nil in Heq. tauto.
Qed.

Lemma count_zero s rs r : count s rs = 0 -> In r rs -> is_state s r = false.
Proof.
  unfold count. induction rs as [| r' rs IH]; intros Hc Hin; [destruct Hin|].
  simpl in Hc. destruct (is_state s r') eqn:Hr'; [discriminate|].
  destruct Hin as [-> | Hin]; auto.
Qed.

Lemma not_errored r :
  valid r -> is_state Errored r = false -> r = inr CONVERTED \/ r = inr SKIPPED.
Proof.
  unfold CONVERTED, SKIPPED.
  destruct r as [e | [[[] []] []]]; simpl; intros Hv He; try discriminate; auto.
Qed.

(** After a pool of real conversions that counted no error, with a tool
    that writes its output when it exits with status 0, every file is
    one to skip. *)
Lemma pool_settles ffmpeg dir n flac_list br sched w :
  creates_output ffmpeg ->
  Forall (fun flac => PurePath.name flac <> "") flac_list ->
  Forall (fun flac => FS.is_dir (fs w) (PurePath.parent flac) = true) flac_list ->
  let st := run_pool ffmpeg sched (submit n flac_list br false w) in
  errors st = 0 ->
  grows dir w (now st)
  /\ Forall (fun flac => would_skip (fs (now st)) flac = true) flac_list.
Proof.
  intros Htool Hnames Hdirs st Herr.
  destruct (pool_grows ffmpeg dir n flac_list br sched w Htool Hnames Hdirs) as [Hg Hres].
  destruct (run_pool_completed ffmpeg sched n flac_list br false w) as [Hperm Hcnt].
  pose proof (pool_valid ffmpeg n flac_list br false sched w) as Hv.
  fold st in Hg, Hres, Hperm, Hcnt, Hv. cbv zeta in Hv.
  unfold counters in Hcnt. rewrite tally_counts in Hcnt. inversion Hcnt as [[Hc Hs He]].
  split; [exact Hg|].
  apply Forall_forall. intros flac Hin. apply list_elem_of_lookup in Hin.
  destruct Hin as [i Hi].
  assert (Hi' : In i (List.map fst (completed st))).
  { eapply Permutation_in; [symmetry; exact Hperm|]. apply in_seq.
    apply lookup_lt_Some in Hi. lia. }
  apply in_map_iff in Hi'. destruct Hi' as ([j r] & Hj & Hin). simpl in Hj. subst j.
  rewrite <- (file_of_lookup _ _ _ Hi).
  apply (Hres i r Hin). apply not_errored; [eapply Hv, Hin|].
  apply (count_zero Errored (List.map snd (completed st))); [congruence|].
  apply in_map_iff. exists (i, r). auto.
Qed.

(** C4, as the script has it. After a real run that ended with status 0,
    with a tool that has written its output wherever it exited with
    status 0, a second run from the world the first one left (dry or
    not, with any worker count above zero) finds the same files, skips
    them all, spawns nothing and writes nothing. *)
Theorem C4_second_run_skips_everything (ffmpeg ffmpeg2 : tool) (a a2 : args)
  (sched sched2 : list nat) (w : world) :
  FS.wf (fs w) = true ->
  creates_output ffmpeg ->
  dry_run a = false ->
  exit_status (main ffmpeg a sched w) = 0%Z ->
  root a2 = root a ->
  (0 < jobs a2)%Z ->
  let first := main ffmpeg a sched w in
  let second := main ffmpeg2 a2 sched2 (final first) in
  n_converted second = 0
  /\ found second = Some (n_skipped second)
  /\ found second = found first
  /\ n_errors second = 0
  /\ exit_status second = 0%Z
  /\ fs (final second) = fs (final first)
  /\ spawned (final second) = spawned (final first).
Proof.
  intros Hwf Htool Hdry Hexit Hroot Hjobs first second.
  unfold second, first, n_converted, n_skipped, n_errors.
  destruct (main_cases a w) as [H | [[H Hg] | [(H & Hg & Hj) | (H & Hg & Hj)]]].
  - rewrite main_invalid_root in Hexit by exact H. discriminate.
  - rewrite (main_nothing_found ffmpeg a sched w H Hg). cbn [final found].
    rewrite main_nothing_found.
    + cbn [summary found exit_status final].
      rewrite fs_pool_start, spawned_pool_start. auto 10.
    + rewrite Hroot, fs_pool_start. exact H.
    + rewrite Hroot, fs_pool_start. exact Hg.
  - rewrite main_no_workers in Hexit by assumption. discriminate.
  - rewrite (main_pool ffmpeg a sched w H Hg Hj) in Hexit |- *. cbn [exit_status] in Hexit.
    cbn [final found].
    set (flac_list := gather_flac_files (fs w) (root a)) in *.
    set (st := pool_end ffmpeg a sched w) in *.
    assert (Herr : errors st = 0).
    { destruct (errors st); [reflexivity | discriminate]. }
    set (w2 := log INFO (ConversionComplete (converted st) (skipped st) (errors st)) (now st)).
    assert (Hw2 : fs w2 = fs (now st)) by apply fs_log.
    destruct (pool_settles ffmpeg (root a) (Z.to_nat (jobs a)) flac_list (bitrate a) sched
                (pool_start a w))
      as [(Hex & Hdir & Hgather) Hskip].
    { exact Htool. }
    { apply gather_names. }
    { rewrite fs_pool_start. apply gather_parents, Hwf. }
    { rewrite <- Hdry. exact Herr. }
    rewrite <- Hdry in Hex, Hdir, Hgather, Hskip.
    change (run_pool ffmpeg sched
              (submit (Z.to_nat (jobs a)) flac_list (bitrate a) (dry_run a) (pool_start a w)))
      with st in Hex, Hdir, Hgather, Hskip.
    rewrite fs_pool_start in Hdir, Hgather.
    assert (Hd2 : FS.is_dir (fs w2) (root a2) = true) by (rewrite Hw2, Hroot, Hdir; exact H).
    assert (Hg2 : gather_flac_files (fs w2) (root a2) = flac_list)
      by (rewrite Hw2, Hroot; exact Hgather).
    rewrite (main_pool ffmpeg2 a2 sched2 w2 Hd2); [| rewrite Hg2; exact Hg | exact Hjobs].
    cbn [summary found exit_status final]. unfold pool_end. rewrite Hg2.
    set (w3 := pool_start a2 w2).
    assert (Hw3 : fs w3 = fs (now st)) by (unfold w3; rewrite fs_pool_start; exact Hw2).
    destruct (pool_quiet_counters ffmpeg2 (Z.to_nat (jobs a2)) flac_list (bitrate a2)
                (dry_run a2) sched2 w3)
      as (Hs & He & Hf & Hsp).
    { apply gather_names. }
    { right. rewrite Hw3. exact Hskip. }
    pose proof (pool_total ffmpeg2 (Z.to_nat (jobs a2)) flac_list (bitrate a2) (dry_run a2)
                  sched2 w3) as Htot.
    cbv zeta in Hs, He, Hf, Hsp, Htot.
    set (st2 := run_pool ffmpeg2 sched2
                  (submit (Z.to_nat (jobs a2)) flac_list (bitrate a2) (dry_run a2) w3)) in *.
    assert (Hall : skipped st2 = length flac_list).
    { rewrite Hs. erewrite List.filter_ext_in; [rewrite filter_all_length; apply length_seq|].
      intros i Hi. apply in_seq in Hi.
      destruct (lookup_lt_is_Some_2 flac_list i) as [flac Hflac]; [lia|].
      rewrite (file_of_lookup _ _ _ Hflac), Hw3.
      rewrite Forall_forall in Hskip. apply Hskip. eapply list_elem_of_lookup_2, Hflac. }
    assert (He0 : errors st2 = 0).
    { rewrite He. erewrite List.filter_ext_in; [apply filter_none_length|].
      intros i Hi. apply in_seq in Hi.
      destruct (lookup_lt_is_Some_2 flac_list i) as [flac Hflac]; [lia|].
      apply refused_skip. rewrite (file_of_lookup _ _ _ Hflac), Hw3.
      rewrite Forall_forall in Hskip. apply Hskip. eapply list_elem_of_lookup_2, Hflac. }
    rewrite He0, Hall. cbn [Nat.ltb Nat.leb].
    rewrite !fs_log, !spawned_log, Hf, Hsp. unfold w3.
    rewrite fs_pool_start, spawned_pool_start.
    repeat split; try reflexivity. lia.
Qed.

(** ** Output paths *)

Lemma replace_suffix_flac stem suffix :
  PurePath.replace_suffix (stem ++ ".flac")%string suffix
  = ((if String.eqb stem "" then ".flac" else stem) ++ suffix)%string.
Proof.
  destruct (String.eqb stem "") eqn:Hs.
  - apply String.eqb_eq in Hs. subst stem.
    apply (replace_suffix_dotfile "flac"); [reflexivity | discriminate].
  - apply String.eqb_neq in Hs.
    apply (replace_suffix_dot stem "flac"); [reflexivity | discriminate | exact Hs].
Qed.

Lemma append_not_empty (s t : string) : t <> "" -> (s ++ t)%string <> "".
Proof. destruct s; simpl; [auto | discriminate]. Qed.

Lemma opus_of_flac flac stem :
  PurePath.name flac = (stem ++ ".flac")%string ->
  opus_of flac
  = PurePath.parent flac ++ [((if String.eqb stem "" then ".flac" else stem) ++ ".opus")%string].
Proof.
  intros Hn. unfold opus_of. rewrite with_suffix_opus.
  - rewrite Hn, replace_suffix_flac. reflexivity.
  - rewrite Hn. apply append_not_empty. discriminate.
Qed.

Lemma jpg_of_flac flac stem :
  PurePath.name flac = (stem ++ ".flac")%string ->
  jpg_of flac
  = PurePath.parent flac ++ [((if String.eqb stem "" then ".flac" else stem) ++ ".jpg")%string].
Proof.
  intros Hn. unfold jpg_of. rewrite with_suffix_jpg.
  - rewrite Hn, replace_suffix_flac. reflexivity.
  - rewrite Hn. apply append_not_empty. discriminate.
Qed.

(** Two names that end in [.flac] and are renamed alike are the same
    name, or the names [.flac] and [.flac.flac]. *)
Lemma same_renamed_name stem stem' suffix :
  ((if String.eqb stem "" then ".flac" else stem) ++ suffix
   = (if String.eqb stem' "" then ".flac" else stem') ++ suffix)%string ->
  stem = stem' \/ (stem = "" /\ stem' = ".flac") \/ (stem = ".flac" /\ stem' = "").
Proof.
  intros H. apply append_same_length_tail in H as [H _]; [|reflexivity].
  destruct (String.eqb stem "") eqn:Hs, (String.eqb stem' "") eqn:Hs';
    rewrite ?String.eqb_eq in *; subst; auto.
Qed.

Lemma same_output flac flac' stem stem' :
  PurePath.name flac = (stem ++ ".flac")%string ->
  PurePath.name flac' = (stem' ++ ".flac")%string ->
  opus_of flac = opus_of flac' \/ jpg_of flac = jpg_of flac' ->
  PurePath.parent flac = PurePath.parent flac'
  /\ (stem = stem' \/ (stem = "" /\ stem' = ".flac") \/ (stem = ".flac" /\ stem' = "")).
Proof.
  intros Hn Hn' H.
  rewrite (opus_of_flac _ _ Hn), (opus_of_flac _ _ Hn'),
    (jpg_of_flac _ _ Hn), (jpg_of_flac _ _ Hn') in H.
  destruct H as [H | H]; apply app_inj_tail in H as [Hp Hs]; split; try exact Hp;
    eapply same_renamed_name; exact Hs.
Qed.

Lemma same_path flac flac' :
  PurePath.name flac <> "" -> PurePath.name flac' <> "" ->
  PurePath.parent flac = PurePath.parent flac' -> PurePath.name flac = PurePath.name flac' ->
  flac = flac'.
Proof.
  intros Hn Hn' Hp He.
  rewrite (path_snoc flac), (path_snoc flac') by (apply name_not_empty_path; assumption).
  congruence.
Qed.

(** ** The search reports no path twice *)

Lemma node_induction (P : FS.node -> Prop) :
  P FS.File ->
  (forall es, (forall c m, In (c, m) es -> P m) -> P (FS.Dir es)) ->
  forall n, P n.
Proof.
  intros HF HD. fix IH 1. intros [|es]; [exact HF|].
  apply HD. induction es as [|[c m] es IHes]; intros c' m' Hin.
  - destruct Hin.
  - destruct Hin as [Heq | Hin].
    + injection Heq as _ <-. apply IH.
    + exact (IHes c' m' Hin).
Qed.

Lemma nodupb_cons_not_in c (l : list string) :
  FS.nodupb (c :: l) = true -> ~ In c l /\ FS.nodupb l = true.
Proof.
  simpl. intros H. apply andb_true_iff in H as [H1 H2]. split; [|exact H2].
  intros Hin. apply negb_true_iff in H1.
  assert (List.existsb (String.eqb c) l = true).
  { apply existsb_exists. exists c. split; [exact Hin | apply String.eqb_refl]. }
  congruence.
Qed.

Lemma matches_nodup (f : string * FS.node -> bool) es :
  FS.nodupb (List.map fst es) = true ->
  NoDup (List.map (fun e : string * FS.node => [fst e]) (List.filter f es)).
Proof.
  induction es as [|[c m] es IH]; intros Hnd; [constructor|].
  cbn [List.map fst] in Hnd. apply nodupb_cons_not_in in Hnd as [Hc Hnd].
  cbn [List.filter]. destruct (f (c, m)); [|apply IH, Hnd].
  cbn [List.map fst]. apply NoDup_cons. split; [|apply IH, Hnd].
  intros Hin. apply list_elem_of_In, in_map_iff in Hin as [[c' m'] [Heq Hin]].
  apply filter_In in Hin as [Hin _]. simpl in Heq. injection Heq as ->.
  apply Hc. apply in_map_iff. exists (c, m'). auto.
Qed.

Lemma deeper_nodup pat es :
  FS.nodupb (List.map fst es) = true ->
  (forall c m, In (c, m) es -> NoDup (FS.rglob_rel pat m)) ->
  NoDup (List.flat_map
           (fun e : string * FS.node =>
              let '(c, m) := e in List.map (cons c) (FS.rglob_rel pat m))
           es).
Proof.
  induction es as [|[c m] es IH]; intros Hnd Hsub; [constructor|].
  cbn [List.map fst] in Hnd. apply nodupb_cons_not_in in Hnd as [Hc Hnd].
  cbn [List.flat_map]. apply NoDup_app. split; [|split].
  - apply NoDup_fmap_2_strong; [intros x y _ _ H; congruence|].
    apply (Hsub c m). left. reflexivity.
  - intros x Hx Hx'.
    apply list_elem_of_In, in_map_iff in Hx as [r [<- _]].
    apply list_elem_of_In, in_flat_map in Hx' as [[c' m'] [Hin Hx']].
    apply in_map_iff in Hx' as [r' [Heq _]]. injection Heq as -> _.
    apply Hc. apply in_map_iff. exists (c, m'). auto.
  - apply IH; [exact Hnd|]. intros c' m' Hin. apply (Hsub c' m'). right. exact Hin.
Qed.

Lemma rglob_rel_nodup pat : forall n, FS.wf n = true -> NoDup (FS.rglob_rel pat n).
Proof.
  induction n as [|es IH] using node_induction; intros Hwf; [constructor|].
  apply wf_dir in Hwf as [Hnd Hsub]. rewrite rglob_rel_dir.
  apply NoDup_app. split; [|split].
  - apply matches_nodup, Hnd.
  - intros x Hx Hx'.
    apply list_elem_of_In, in_map_iff in Hx as [e [<- _]].
    apply list_elem_of_In, in_flat_map in Hx' as [[c' m'] [Hin Hx']].
    apply in_map_iff in Hx' as [r' [Heq Hr']]. injection Heq as _ ->.
    exact (rglob_rel_not_nil pat m' Hr').
  - apply deeper_nodup; [exact Hnd|].
    intros c m Hin. apply (IH c m Hin), (Hsub c m Hin).
Qed.

Lemma rglob_nodup n dir pat : FS.wf n = true -> NoDup (FS.rglob n dir pat).
Proof.
  intros Hwf. unfold FS.rglob.
  destruct (FS.lookup n dir) as [[|es]|] eqn:Hl; try constructor.
  apply NoDup_fmap_2_strong.
  - intros x y _ _ H. exact (app_inv_head _ _ _ H).
  - apply rglob_rel_nodup. exact (wf_lookup dir n (FS.Dir es) Hwf Hl).
Qed.

Lemma gather_flac_name n dir flac :
  In flac (gather_flac_files n dir) ->
  exists stem, PurePath.name flac = (stem ++ ".flac")%string.
Proof. intros Hin. apply fnmatch_flac. exact (rglob_name n dir "*.flac" flac Hin). Qed.

Lemma gather_outputs_nodup n dir :
  FS.wf n = true ->
  (forall flac, In flac (gather_flac_files n dir) -> PurePath.name flac <> ".flac") ->
  NoDup (List.map opus_of (gather_flac_files n dir))
  /\ NoDup (List.map jpg_of (gather_flac_files n dir)).
Proof.
  intros Hwf Hdot.
  assert (Hinj : forall x y, x ∈ gather_flac_files n dir -> y ∈ gather_flac_files n dir ->
            opus_of x = opus_of y \/ jpg_of x = jpg_of y -> x = y).
  { intros x y Hx Hy H. apply list_elem_of_In in Hx, Hy.
    destruct (gather_flac_name _ _ _ Hx) as [s Hs], (gather_flac_name _ _ _ Hy) as [s' Hs'].
    destruct (same_output _ _ _ _ Hs Hs' H) as [Hp [He | [[-> _] | [_ ->]]]].
    - apply same_path; try congruence.
      + rewrite Hs. apply append_not_empty. discriminate.
      + rewrite Hs'. apply append_not_empty. discriminate.
    - exfalso. exact (Hdot x Hx Hs).
    - exfalso. exact (Hdot y Hy Hs'). }
  split; apply NoDup_fmap_2_strong; try (apply rglob_nodup, Hwf);
    intros x y Hx Hy H; apply Hinj; auto.
Qed.

(** X1. A file named [stem.flac] with a non-empty stem is converted to
    [stem.opus] and its cover is extracted to [stem.jpg], both in the
    directory of the file, whatever dots the stem has; a file named just
    [.flac] has no suffix to replace and gets [.flac.opus] and
    [.flac.jpg]. *)
Theorem X1_output_names (flac : path) (stem : string) :
  PurePath.name flac = (stem ++ ".flac")%string ->
  let base := if String.eqb stem "" then ".flac" else stem in
  PurePath.with_suffix flac ".opus" = inr (PurePath.parent flac ++ [(base ++ ".opus")%string])
  /\ PurePath.with_suffix flac ".jpg" = inr (PurePath.parent flac ++ [(base ++ ".jpg")%string]).
Proof.
  intros Hn base.
  assert (Hne : PurePath.name flac <> "")
    by (rewrite Hn; apply append_not_empty; discriminate).
  rewrite with_suffix_opus, with_suffix_jpg by exact Hne.
  rewrite Hn, !replace_suffix_flac. auto.
Qed.

(** X2. Setting a suffix and reading it back: for a suffix made of a dot
    and a non-empty extension without a dot, the new path has that
    suffix and the parent of the old path, and setting a further suffix
    on it gives what setting that suffix on the old path gives (the
    cover path of the output is the cover path of the FLAC file). *)
Theorem X2_with_suffix_round_trip (p q : path) (ext : string) :
  ext <> "" ->
  PyStr.contains "." ext = false ->
  PurePath.with_suffix p (String "." ext) = inr q ->
  PurePath.suffix q = String "." ext
  /\ PurePath.parent q = PurePath.parent p
  /\ (forall suffix, PurePath.with_suffix q suffix = PurePath.with_suffix p suffix).
Proof.
  intros Hext Hdot Hq.
  destruct (with_suffix_inr _ _ _ Hq) as [Hn ->].
  destruct (replace_suffix_base _ Hn) as [base [Hbase Hrep]].
  rewrite Hrep.
  split; [|split].
  - unfold PurePath.suffix. rewrite name_snoc, suffix_of_name_dot by assumption.
    apply String.eqb_neq in Hbase. rewrite Hbase. reflexivity.
  - apply parent_snoc.
  - intros suffix. unfold PurePath.with_suffix.
    destruct (PurePath.invalid_suffix suffix); [reflexivity|].
    rewrite name_snoc, parent_snoc.
    assert (Hq' : (base ++ String "." ext)%string <> "")
      by (apply append_not_empty; discriminate).
    apply String.eqb_neq in Hq', Hn. rewrite Hq', Hn.
    rewrite replace_suffix_dot, Hrep by assumption. reflexivity.
Qed.

(** X3. What the script writes is never what the search reports: the
    output and the cover path of a reported file are siblings of the
    file, differ from it and from each other, and no search of any tree
    reports them, since their names do not end in [.flac]. *)
Theorem X3_outputs_are_not_inputs (n n' : FS.node) (dir dir' : path) (flac : path) :
  In flac (gather_flac_files n dir) ->
  ~ In (opus_of flac) (gather_flac_files n' dir')
  /\ ~ In (jpg_of flac) (gather_flac_files n' dir')
  /\ opus_of flac <> flac
  /\ jpg_of flac <> flac
  /\ opus_of flac <> jpg_of flac
  /\ PurePath.parent (opus_of flac) = PurePath.parent flac
  /\ PurePath.parent (jpg_of flac) = PurePath.parent flac.
Proof.
  intros Hin.
  destruct (gather_flac_name _ _ _ Hin) as [stem Hn].
  assert (Hne : PurePath.name flac <> "")
    by (rewrite Hn; apply append_not_empty; discriminate).
  pose proof (with_suffix_opus flac Hne) as Ho.
  pose proof (with_suffix_jpg flac Hne) as Hj.
  pose proof (opus_of_inr _ _ Ho) as Eo. pose proof (jpg_of_inr _ _ Hj) as Ej.
  assert (No : PyStr.fnmatchcase (PurePath.name (opus_of flac)) "*.flac" = false).
  { rewrite Eo. eapply with_suffix_no_flac; [exact Ho | discriminate | discriminate]. }
  assert (Nj : PyStr.fnmatchcase (PurePath.name (jpg_of flac)) "*.flac" = false).
  { rewrite Ej. eapply with_suffix_no_flac; [exact Hj | discriminate | discriminate]. }
  assert (Yes : forall m d x, In x (gather_flac_files m d) ->
            PyStr.fnmatchcase (PurePath.name x) "*.flac" = true)
    by (intros m d x; apply rglob_name).
  repeat split.
  - intros H. apply Yes in H. congruence.
  - intros H. apply Yes in H. congruence.
  - intros H. apply Yes in Hin. rewrite H in No. congruence.
  - intros H. apply Yes in Hin. rewrite H in Nj. congruence.
  - apply opus_of_jpg_of; assumption.
  - rewrite Eo. apply parent_snoc.
  - rewrite Ej. apply parent_snoc.
Qed.

(** X4. The search reports no path twice in a tree whose directories
    list no name twice: every file is handed to the pool once. *)
Theorem X4_gather_reports_no_path_twice (n : FS.node) (dir : path) :
  FS.wf n = true -> NoDup (gather_flac_files n dir).
Proof. intros Hwf. apply rglob_nodup, Hwf. Qed.

(** X5. Two different files of one search are converted to the same
    output path, or have their covers extracted to the same path, only
    when they are the files [.flac] and [.flac.flac] of one directory.
    In a tree with no file named [.flac], the output paths of the
    reported files are pairwise different, and so are the cover paths. *)
Theorem X5_distinct_files_distinct_outputs (n : FS.node) (dir : path) :
  (forall flac flac',
      In flac (gather_flac_files n dir) -> In flac' (gather_flac_files n dir) ->
      flac <> flac' ->
      opus_of flac = opus_of flac' \/ jpg_of flac = jpg_of flac' ->
      PurePath.parent flac = PurePath.parent flac'
      /\ ((PurePath.name flac = ".flac" /\ PurePath.name flac' = ".flac.flac")
          \/ (PurePath.name flac = ".flac.flac" /\ PurePath.name flac' = ".flac")))
  /\ (FS.wf n = true ->
      (forall flac, In flac (gather_flac_files n dir) -> PurePath.name flac <> ".flac") ->
      NoDup (List.map opus_of (gather_flac_files n dir))
      /\ NoDup (List.map jpg_of (gather_flac_files n dir))).
Proof.
  split; [|apply gather_outputs_nodup].
  intros x y Hx Hy Hxy H.
  destruct (gather_flac_name _ _ _ Hx) as [s Hs], (gather_flac_name _ _ _ Hy) as [s' Hs'].
  destruct (same_output _ _ _ _ Hs Hs' H) as [Hp [He | [[-> ->] | [-> ->]]]].
  - exfalso. apply Hxy. apply same_path; try congruence.
    + rewrite Hs. apply append_not_empty. discriminate.
    + rewrite Hs'. apply append_not_empty. discriminate.
  - split; [exact Hp | left]. auto.
  - split; [exact Hp | right]. auto.
Qed.

(** X6. [extract_cover], by the answer of the check for the cover path.
    When the check raises, [extract_cover] raises what it raised, with
    nothing spawned or logged. With the cover present it returns [False]
    after the check alone. Without it, a dry run announces the
    extraction and returns [True] with nothing spawned; a real run
    spawns the one command and returns [True] when [subprocess.run]
    returns, and on anything that [subprocess.run] raises (a tool that
    cannot be started, output that cannot be decoded, an exit status
    other than 0) it logs one warning and returns [False]. *)
Theorem X6_extract_cover_outcome (ffmpeg : tool) (flac cover_jpg : path) (dry : bool)
  (w : world) :
  PurePath.with_suffix flac ".jpg" = inr cover_jpg ->
  let run := exec ffmpeg (extract_cover flac dry) w in
  let answer := FS.path_exists (fs w) cover_jpg in
  let checked := record (asked cover_jpg answer) w in
  let announced := log INFO (ExtractingCoverArt flac cover_jpg) checked in
  let cmd := cover_cmd flac cover_jpg in
  let ran := snd (handle ffmpeg (SubprocessRun cmd cover_jpg) announced) in
  (forall e, answer = inl e -> run = (inl e, record (Refused cover_jpg e) w))
  /\ (answer = inr true -> run = (inr false, record (Asked cover_jpg true) w))
  /\ (answer = inr false -> dry = true ->
      run = (inr true, log INFO (DryRunWouldExtract cover_jpg) announced))
  /\ (answer = inr false -> dry = false ->
      run = match run_result cmd (ffmpeg announced cmd) with
            | inr _ => (inr true, ran)
            | inl e => (inr false, log WARNING (CoverExtractionFailed flac e) ran)
            end)
  /\ spawned (snd run)
     = spawned w
       ++ (if dry then [] else match answer with inr false => [cmd] | _ => [] end).
Proof.
  intros Hjpg run answer checked announced cmd ran.
  pose proof (extract_cover_table ffmpeg flac cover_jpg dry w Hjpg) as T.
  cbv zeta in T. fold run in T.
  split; [|split; [|split; [|split]]].
  - intros e He. unfold answer in He. rewrite T, He. reflexivity.
  - intros He. unfold answer in He. rewrite T, He. reflexivity.
  - intros He ->. unfold announced, checked, answer in *. rewrite T, He. reflexivity.
  - intros He ->. unfold ran, cmd, announced, checked, answer in *. rewrite T, He.
    reflexivity.
  - apply extract_cover_spawned, Hjpg.
Qed.



(** X9. What [convert_file] logs about the conversion it ran: after the
    spawn, one line for the created file when the tool wrote text and
    exited with status 0; for another exit status the error line with
    the status, and a second line with the error stream (decoded, its
    line ends translated, stripped of the whitespace around it) exactly
    when the decoded stream is not empty; one line with the exception
    for a tool that could not be started and for a tool whose output
    cannot be decoded, whatever its exit status. *)
Theorem X9_convert_file_report (ffmpeg : tool) (flac : path) (br : string) (w : world)
  (opus_path : path) :
  PurePath.with_suffix flac ".opus" = inr opus_path ->
  PyStr.startswith (PurePath.name flac) "._" = false ->
  FS.path_exists (fs w) opus_path = inr false ->
  let run := exec ffmpeg (convert_file flac br false) w in
  let covered :=
    snd (exec ffmpeg (extract_cover flac false) (record (Asked opus_path false) w)) in
  let started := log INFO (Converting flac) covered in
  let cmd := transcode_cmd flac opus_path br in
  let r := ffmpeg started cmd in
  let unexpected := fun e => [Logged ERROR (UnexpectedError flac e)] in
  trace (snd run)
  = trace started
    ++ Spawned cmd r
       :: match r with
          | NotStarted descr => unexpected (OSError descr)
          | Exited rc stdout stderr _ =>
              match PyStr.decode stdout, PyStr.decode stderr with
              | None, _ => unexpected (UnicodeDecodeError stdout)
              | Some _, None => unexpected (UnicodeDecodeError stderr)
              | Some _, Some text =>
                  if (rc =? 0)%Z then [Logged INFO (SuccessfullyCreated opus_path)]
                  else
                    Logged ERROR (FFmpegError flac rc)
                    :: (if String.eqb text "" then []
                        else [Logged ERROR (FFmpegStderr (PyStr.strip text))])
              end
          end.
Proof.
  intros Hopus Hside Ha run covered started cmd r unexpected.
  destruct (cover_returns ffmpeg flac opus_path false w Hopus Ha) as [b Hb].
  unfold unexpected, r, run, started, covered, cmd.
  clear unexpected r run started covered cmd.
  rewrite (convert_file_table ffmpeg flac br false w opus_path Hopus).
  rewrite Hside, Ha. cbn [asked]. rewrite Hb. cbn [snd handle].
  match goal with
  | |- context [ffmpeg ?w0 ?c] => destruct (ffmpeg w0 c) as [descr | rc out err wr]
  end; cbn [run_result].
  - cbn [snd handle report_failure]. rewrite trace_log. cbn [trace enabled].
    rewrite <- app_assoc. reflexivity.
  - destruct (PyStr.decode out) as [text_out |].
    + destruct (PyStr.decode err) as [text |].
      * destruct (rc =? 0)%Z.
        -- cbn [snd handle]. rewrite trace_log. cbn [trace enabled].
           rewrite <- app_assoc. reflexivity.
        -- cbn [snd handle report_failure]. destruct (String.eqb text "");
             rewrite ?trace_log; cbn [trace enabled]; rewrite <- ?app_assoc; reflexivity.
      * cbn [snd handle report_failure]. rewrite trace_log. cbn [trace enabled].
        rewrite <- app_assoc. reflexivity.
    + cbn [snd handle report_failure]. rewrite trace_log. cbn [trace enabled].
      rewrite <- app_assoc. reflexivity.
Qed.

(** ** Counters that the tree decides *)

(** The skipped counter of a pool whose files have output paths of their
    own: the files to skip in the tree the pool started in. *)
Lemma pool_skipped ffmpeg n flac_list br dry sched w :
  Forall (fun flac => PurePath.name flac <> "") flac_list ->
  NoDup (List.map opus_of flac_list) ->
  skipped (run_pool ffmpeg sched (submit n flac_list br dry w))
  = length (List.filter (would_skip (fs w)) flac_list).
Proof.
  intros Hnames Hnd.
  pose proof (pool_touches ffmpeg n flac_list br dry sched w Hnames Hnd) as Hres.
  destruct (run_pool_completed ffmpeg sched n flac_list br dry w) as [Hperm Hcnt].
  cbv zeta in Hres. unfold counters in Hcnt. rewrite tally_counts in Hcnt.
  inversion Hcnt as [[Hc Hs He]].
  rewrite Hs, <- filter_by_index. apply count_by_index; [exact Hperm|].
  intros i r Hin. apply is_state_skip_iff, Hres, Hin.
Qed.


(** X11. When no two found files derive the same output path, the
    skipped counter of the summary is the number of found files that are
    sidecar files or have their output in the tree the run starts in:
    what the tool does, what the workers do to the tree meanwhile and in
    which order they run does not change it, in a real run as in a dry
    run. *)
Theorem X11_skipped_is_decided_at_the_start (ffmpeg : tool) (a : args) (sched : list nat)
  (w : world) (c s x : nat) :
  NoDup (List.map opus_of (gather_flac_files (fs w) (root a))) ->
  summary (main ffmpeg a sched w) = Some (c, s, x) ->
  s = length (List.filter (would_skip (fs w)) (gather_flac_files (fs w) (root a))).
Proof.
  intros Hnd Hsum.
  destruct (summary_found ffmpeg a sched w c s x Hsum) as (_ & _ & _ & _ & -> & _).
  unfold pool_end. rewrite pool_skipped.
  - rewrite fs_pool_start. reflexivity.
  - apply gather_names.
  - exact Hnd.
Qed.

(** ** What the workers do to the tree *)

Lemma touches_trans ps w1 w2 w3 : touches ps w1 w2 -> touches ps w2 w3 -> touches ps w1 w3.
Proof.
  intros H12 H23 q Hq.
  destruct (Bool.bool_dec (FS.exists_ (fs w2) q) (FS.exists_ (fs w1) q)) as [Heq | Hneq].
  - apply H23. congruence.
  - apply H12, Hneq.
Qed.

Lemma touches_more ps ps' w w' :
  (forall q, In q ps -> In q ps') -> touches ps w w' -> touches ps' w w'.
Proof. intros Hsub H q Hq. apply Hsub, H, Hq. Qed.

Lemma adds_within_refl ps w : adds_within ps w w.
Proof. split; [intros dir; apply grows_refl | apply touches_same; reflexivity]. Qed.

Lemma adds_within_trans ps w1 w2 w3 :
  adds_within ps w1 w2 -> adds_within ps w2 w3 -> adds_within ps w1 w3.
Proof.
  intros [Hg Ht] [Hg' Ht']. split.
  - intros dir. eapply grows_trans; [apply Hg | apply Hg'].
  - eapply touches_trans; eassumption.
Qed.

Lemma adds_within_log ps w l m : adds_within ps w (log l m w).
Proof. split; [intros dir; apply grows_log | apply touches_same, fs_log]. Qed.

Ltac adds_tac :=
  first [ exact I
        | eapply with_suffix_opus_inl; eassumption
        | eapply with_suffix_jpg_inl; eassumption
        | solve [ split;
                  [ intros ?dir;
                    first [ solve [ apply grows_same; first [ reflexivity | apply fs_log ] ]
                          | solve [ apply grows_spawn; eapply with_suffix_no_flac;
                                    [ eassumption | discriminate | discriminate ] ] ]
                  | touches_tac ] ] ].

(** Every step of [convert_file] leaves the tree as it is or adds one of
    its two output files. *)
Lemma convert_file_adds ffmpeg flac br dry w :
  PurePath.name flac <> "" ->
  safe ffmpeg (fun _ _ => True) (adds_within [opus_of flac; jpg_of flac]) (fun _ _ => True)
    (convert_file flac br dry) w.
Proof.
  intros Hname. unfold adds_within.
  unfold_script.
  safe_walk adds_tac.
Qed.

Lemma pool_adds ffmpeg n flac_list br dry sched w :
  Forall (fun flac => PurePath.name flac <> "") flac_list ->
  adds_within (List.map opus_of flac_list ++ List.map jpg_of flac_list) w
    (now (run_pool ffmpeg sched (submit n flac_list br dry w))).
Proof.
  intros Hnames.
  set (outs := List.map opus_of flac_list ++ List.map jpg_of flac_list).
  assert (Houts : forall i flac, flac_list !! i = Some flac ->
            forall q, In q [opus_of flac; jpg_of flac] -> In q outs).
  { intros i flac Hi q Hq. apply list_elem_of_lookup_2, list_elem_of_In in Hi.
    unfold outs. apply in_or_app.
    destruct Hq as [<- | [<- | []]]; [left | right]; apply in_map, Hi. }
  apply (pool_promises ffmpeg (fun _ _ _ => True)
           (fun i w1 w2 =>
              exists flac, flac_list !! i = Some flac
                           /\ adds_within [opus_of flac; jpg_of flac] w1 w2)
           (fun _ _ _ => True) (adds_within outs w)); auto.
  - intros i w1 w2 H (flac & Hi & Hadd). eapply adds_within_trans; [exact H|].
    destruct Hadd as [Hg Ht]. split; [exact Hg|].
    eapply touches_more; [apply (Houts i flac Hi) | exact Ht].
  - intros w1 l m H. eapply adds_within_trans; [exact H | apply adds_within_log].
  - apply adds_within_refl.
  - intros i flac Hi.
    eapply safe_weaken; [| | | apply (convert_file_adds ffmpeg flac br dry w)].
    + auto.
    + intros w1 w2 H. exists flac. auto.
    + auto.
    + rewrite Forall_forall in Hnames. apply Hnames. eapply list_elem_of_lookup_2, Hi.
Qed.

(** ** A whole run *)

Lemma trace_pool_start a w :
  trace (pool_start a w)
  = trace w ++ [Logged INFO (FoundFiles (length (gather_flac_files (fs w) (root a))) (root a))].
Proof. reflexivity. Qed.

(** X13. A run only adds files, and only outputs: a path whose
    existence the run has changed did not exist and is the output path
    or the cover path of a found file; what existed still exists,
    directories are the directories they were, and every search finds
    what it found before the run. *)
Theorem X13_run_adds_outputs_only (ffmpeg : tool) (a : args) (sched : list nat) (w : world) :
  let e := main ffmpeg a sched w in
  (forall q, FS.exists_ (fs (final e)) q <> FS.exists_ (fs w) q ->
     FS.exists_ (fs w) q = false
     /\ exists flac, In flac (gather_flac_files (fs w) (root a))
                     /\ (q = opus_of flac \/ q = jpg_of flac))
  /\ (forall q, FS.exists_ (fs w) q = true -> FS.exists_ (fs (final e)) q = true)
  /\ (forall q, FS.is_dir (fs (final e)) q = FS.is_dir (fs w) q)
  /\ (forall dir, gather_flac_files (fs (final e)) dir = gather_flac_files (fs w) dir).
Proof.
  intros e.
  set (outs := List.map opus_of (gather_flac_files (fs w) (root a))
               ++ List.map jpg_of (gather_flac_files (fs w) (root a))).
  assert (Hadd : adds_within outs w (final e)).
  { unfold e.
    destruct (main_cases a w) as [H | [[H Hg] | [(H & Hg & Hj) | (H & Hg & Hj)]]].
    - rewrite main_invalid_root by exact H. apply adds_within_log.
    - rewrite main_nothing_found by assumption. apply adds_within_log.
    - rewrite main_no_workers by assumption. apply adds_within_log.
    - rewrite main_pool by assumption. cbn [final].
      eapply adds_within_trans; [|apply adds_within_log].
      eapply adds_within_trans; [apply (adds_within_log outs w)|].
      unfold pool_end. apply pool_adds, gather_names. }
  destruct Hadd as [Hg Ht].
  split; [|split; [|split]].
  - intros q Hq. split.
    + destruct (FS.exists_ (fs w) q) eqn:E; [|reflexivity].
      destruct (Hg []) as (Hm & _ & _). rewrite (Hm q E) in Hq. congruence.
    + apply Ht in Hq. unfold outs in Hq.
      apply in_app_or in Hq as [Hq | Hq]; apply in_map_iff in Hq as [flac [<- Hin]]; eauto.
  - intros q. apply (Hg []).
  - intros q. apply (Hg []).
  - intros dir. apply (Hg dir).
Qed.

(** ** Results and the conversions behind them *)

Lemma remembers_refl w : remembers w w.
Proof. intros o H. exact H. Qed.

Lemma remembers_trans w1 w2 w3 : remembers w1 w2 -> remembers w2 w3 -> remembers w1 w3.
Proof. intros H12 H23 o H. apply H23, H12, H. Qed.

Lemma remembers_snoc n w o : remembers w {| fs := n; trace := trace w ++ [o] |}.
Proof. intros o' H. cbn [trace]. apply in_or_app. left. exact H. Qed.

Lemma remembers_record o w : remembers w (record o w).
Proof. apply remembers_snoc. Qed.

Lemma remembers_log l m w : remembers w (log l m w).
Proof. unfold log. destruct (enabled l); [apply remembers_record | apply remembers_refl]. Qed.

Lemma transcoded_remembers flac br ok w w' :
  transcoded flac br ok w -> remembers w w' -> transcoded flac br ok w'.
Proof. intros (r & Hin & Hr) H. exists r. split; [apply H, Hin | exact Hr]. Qed.

Lemma accounted_remembers flac br dry w w' r :
  accounted flac br dry w r -> remembers w w' -> accounted flac br dry w' r.
Proof.
  intros (Hv & Hx & He & Hc) H. split; [exact Hv|]. split; [| split].
  - intros exc Hr. destruct (Hx exc Hr) as (p & Hp & Hin). exists p. auto.
  - intros Ht. destruct (He Ht) as [Hd Htr]. split; [exact Hd|].
    eapply transcoded_remembers; eassumption.
  - intros Ht. destruct (Hc Ht) as [Hd | Htr]; [left; exact Hd | right].
    eapply transcoded_remembers; eassumption.
Qed.

(** The conversion on record in a world reached later. *)
Ltac recall :=
  match goal with
  | H : remembers {| fs := _; trace := _ ++ [Spawned (transcode_cmd ?f ?p ?b) ?r] |} ?w
    |- _ =>
      let Hin := fresh "Hin" in
      assert (Hin : In (Spawned (transcode_cmd f p b) r) (trace w))
        by (apply H; cbn [trace]; apply in_or_app; right; left; reflexivity);
      clear H
  end;
  repeat match goal with
         | Hin : In ?o (trace ?w), H : remembers (log ?l ?m ?w) ?w' |- _ =>
             let Hin' := fresh "Hin" in
             pose proof (H o (remembers_log l m w o Hin)) as Hin'; clear H
         | Hin : In ?o (trace ?w), H : remembers ?w ?w' |- _ =>
             let Hin' := fresh "Hin" in
             pose proof (H o Hin) as Hin'; clear H
         end.

Ltac transcoded_leaf :=
  unfold transcoded;
  repeat match goal with
         | H : PurePath.with_suffix ?f ".opus" = inr ?p |- _ =>
             rewrite ?(opus_of_inr f p H); revert H
         end;
  intros; recall;
  eexists; split;
  [ first [ eassumption | apply remembers_log; eassumption ]
  | match goal with
    | H : run_result ?c _ = _ |- _ => rewrite (failed_run_result c), H; reflexivity
    end ].

Ltac refused_leaf :=
  unfold check_refused;
  match goal with
  | Heq : inl _ = inl _ |- _ => injection Heq as <-
  end;
  eexists; split; cycle 1;
  [ cbn [trace record]; apply in_or_app; right; left; reflexivity
  | first [ left; symmetry; eapply opus_of_inr; eassumption
          | right; symmetry; eapply jpg_of_inr; eassumption ] ].

Ltac absurd_result :=
  match goal with
  | H : inl _ = inr _ |- _ => discriminate H
  | H : inr _ = inl _ |- _ => discriminate H
  | H : inr _ = inr _ |- _ => discriminate H
  end.

Ltac accounted_leaf :=
  split; [first [ exact I | reflexivity ] |];
  split; [intros ? ? | split; intros ?];
  first [ absurd_result
        | solve [ refused_leaf ]
        | solve [ left; reflexivity ]
        | solve [ right; transcoded_leaf ]
        | solve [ split; [reflexivity | transcoded_leaf] ] ].

Ltac accounted_tac :=
  first [ eapply with_suffix_opus_inl; eassumption
        | eapply with_suffix_jpg_inl; eassumption
        | apply remembers_log
        | apply remembers_record
        | apply remembers_snoc
        | solve [ accounted_leaf ] ].

Lemma convert_file_accounted ffmpeg flac br dry w :
  PurePath.name flac <> "" ->
  safe ffmpeg remembers remembers (accounted flac br dry) (convert_file flac br dry) w.
Proof.
  intros Hname. unfold accounted.
  unfold_script.
  safe_walk accounted_tac.
Qed.

Lemma pool_accounted ffmpeg n flac_list br dry sched w :
  Forall (fun flac => PurePath.name flac <> "") flac_list ->
  let st := run_pool ffmpeg sched (submit n flac_list br dry w) in
  forall i r, In (i, r) (completed st) -> accounted (file_of flac_list i) br dry (now st) r.
Proof.
  intros Hnames st.
  apply (pool_promises ffmpeg (fun _ => remembers) (fun _ => remembers)
           (fun i w1 r => accounted (file_of flac_list i) br dry w1 r) (fun _ => True)); auto.
  - intros. apply remembers_refl.
  - intros i. apply remembers_trans.
  - intros. apply remembers_log.
  - intros i w1 w2 r. apply accounted_remembers.
  - intros i flac Hi. rewrite (file_of_lookup _ _ _ Hi).
    apply convert_file_accounted.
    rewrite Forall_forall in Hnames. apply Hnames. eapply list_elem_of_lookup_2, Hi.
Qed.

Lemma count_positive s rs : 0 < count s rs -> exists r, In r rs /\ is_state s r = true.
Proof.
  unfold count. intros H.
  destruct (List.filter (is_state s) rs) as [|r l] eqn:E; [simpl in H; lia|].
  exists r. apply filter_In. rewrite E. left. reflexivity.
Qed.

Lemma completed_index ffmpeg sched n flac_list br dry w i r :
  In (i, r) (completed (run_pool ffmpeg sched (submit n flac_list br dry w))) ->
  In (file_of flac_list i) flac_list.
Proof.
  intros Hin.
  destruct (run_pool_completed ffmpeg sched n flac_list br dry w) as [Hperm _].
  cbv zeta in Hperm.
  assert (Hi : In i (seq 0 (length flac_list))).
  { eapply Permutation_in; [exact Hperm|]. apply in_map_iff. exists (i, r). auto. }
  apply in_seq in Hi.
  destruct (lookup_lt_is_Some_2 flac_list i) as [flac Hf]; [lia|].
  rewrite (file_of_lookup _ _ _ Hf). eapply list_elem_of_In, list_elem_of_lookup_2, Hf.
Qed.

(** X12. What a worker hands to the parent as an exception is what one
    of its two checks raised, for the output of its file or for its
    cover, and that check is on record with the exception, also at the
    end of a run that reaches its summary; the parent files it under
    Errored. Nothing the tool does makes a worker raise. *)
Theorem X12_worker_exceptions (ffmpeg : tool) (a : args) (sched : list nat) (w : world) :
  let st := pool_end ffmpeg a sched w in
  let e := main ffmpeg a sched w in
  let flac_list := gather_flac_files (fs w) (root a) in
  forall i exc,
    In (i, inl exc) (completed st) ->
    In (file_of flac_list i) flac_list
    /\ classify (inl exc) = Some Errored
    /\ exists p,
         (p = opus_of (file_of flac_list i) \/ p = jpg_of (file_of flac_list i))
         /\ In (Refused p exc) (trace (now st))
         /\ (summary e <> None -> In (Refused p exc) (trace (final e))).
Proof.
  intros st e flac_list i exc Hin.
  pose proof (gather_names (fs w) (root a)) as Hnames.
  split; [eapply completed_index; exact Hin|]. split; [reflexivity|].
  destruct (pool_accounted ffmpeg _ _ _ _ sched (pool_start a w) Hnames i _ Hin)
    as (_ & Hx & _).
  destruct (Hx exc eq_refl) as (p & Hp & Hrec). exists p.
  split; [exact Hp|]. split; [exact Hrec|]. unfold e.
  destruct (main_cases a w) as [H | [[H Hg] | [(H & Hg & Hj) | (H & Hg & Hj)]]].
  - rewrite main_invalid_root by exact H. intros Hs. destruct (Hs eq_refl).
  - rewrite main_nothing_found by assumption. intros Hs. destruct (Hs eq_refl).
  - rewrite main_no_workers by assumption. intros Hs. destruct (Hs eq_refl).
  - rewrite main_pool by assumption. cbn [final]. intros _.
    apply remembers_log. exact Hrec.
Qed.

(** X14. Behind every counted result there is its cause: an exception
    is what a check of the worker raised, an error tuple comes from a
    run that is not dry in which the conversion of that file was
    spawned and [subprocess.run] raised for it, a converted tuple from
    a dry run or from a conversion for which [subprocess.run] returned.
    So a run on a directory, with a pool, that ends with exit status 1
    has on record a failed conversion of a found file or a check of a
    found file that raised; a failed cover extraction alone never
    gives that exit status. *)
Theorem X14_results_have_their_cause (ffmpeg : tool) (a : args) (sched : list nat)
  (w : world) :
  let st := pool_end ffmpeg a sched w in
  let e := main ffmpeg a sched w in
  let flac_list := gather_flac_files (fs w) (root a) in
  (forall i r, In (i, r) (completed st) ->
     In (file_of flac_list i) flac_list
     /\ accounted (file_of flac_list i) (bitrate a) (dry_run a) (now st) r)
  /\ (FS.is_dir (fs w) (root a) = true -> (0 < jobs a)%Z -> exit_status e = 1%Z ->
      exists flac,
        In flac flac_list
        /\ ((dry_run a = false
             /\ exists r,
                  In (Spawned (transcode_cmd flac (opus_of flac) (bitrate a)) r)
                    (trace (final e))
                  /\ failed r = true)
            \/ exists p exc,
                 (p = opus_of flac \/ p = jpg_of flac)
                 /\ In (Refused p exc) (trace (final e)))).
Proof.
  intros st e flac_list.
  pose proof (gather_names (fs w) (root a)) as Hnames.
  assert (Hacc : forall i r, In (i, r) (completed st) ->
            In (file_of flac_list i) flac_list
            /\ accounted (file_of flac_list i) (bitrate a) (dry_run a) (now st) r).
  { intros i r Hin. split.
    - eapply completed_index. exact Hin.
    - exact (pool_accounted ffmpeg _ _ _ _ sched (pool_start a w) Hnames i r Hin). }
  split; [exact Hacc|].
  intros Hdir Hjobs Hexit. unfold e in *.
  destruct (main_cases a w) as [H | [[H Hg] | [(H & Hg & Hj) | (H & Hg & Hj)]]];
    try congruence; try lia.
  { rewrite main_nothing_found in Hexit by assumption. discriminate Hexit. }
  rewrite main_pool in Hexit |- * by assumption. cbn [exit_status final] in *.
  fold st in Hexit |- *.
  destruct (Nat.ltb 0 (errors st)) eqn:Herr; [|discriminate Hexit].
  apply Nat.ltb_lt in Herr.
  destruct (run_pool_completed ffmpeg sched (Z.to_nat (jobs a)) flac_list (bitrate a)
              (dry_run a) (pool_start a w)) as [_ Hcnt].
  cbv zeta in Hcnt.
  unfold counters in Hcnt. rewrite tally_counts in Hcnt. inversion Hcnt as [[Hc Hs He]].
  assert (Hpos : 0 < count Errored (List.map snd (completed st)))
    by (unfold st, pool_end; unfold flac_list in He; rewrite <- He; exact Herr).
  apply count_positive in Hpos as (r & Hin & Hst).
  apply in_map_iff in Hin as [[i r'] [Heq Hin]]. cbn in Heq. subst r'.
  destruct (Hacc i r Hin) as [Hfile (Hv & Hx & Herrd & _)].
  exists (file_of flac_list i). split; [exact Hfile|].
  destruct r as [exc | t].
  - right. destruct (Hx exc eq_refl) as (p & Hp & Hrec). exists p, exc.
    split; [exact Hp|]. apply remembers_log. exact Hrec.
  - left.
    assert (Ht : t = ERRORED).
    { apply valid_cases in Hv as [-> | [-> | ->]]; [discriminate Hst.. | reflexivity]. }
    subst t. destruct (Herrd eq_refl) as [Hdry (res & Hres & Hfail)].
    split; [exact Hdry|]. exists res. split; [|exact Hfail].
    apply remembers_log. exact Hres.
Qed.

(** ** A second run after any first run *)

Lemma filter_length_le {A} (f g : A -> bool) (l : list A) :
  (forall x, In x l -> f x = true -> g x = true) ->
  length (List.filter f l) <= length (List.filter g l).
Proof.
  induction l as [|x l IH]; intros H; [auto|]. cbn [List.filter].
  assert (IH' : length (List.filter f l) <= length (List.filter g l))
    by (apply IH; intros y Hy; apply H; right; exact Hy).
  destruct (f x) eqn:Hf.
  - rewrite (H x (or_introl eq_refl) Hf). simpl. lia.
  - destruct (g x); simpl; lia.
Qed.

Lemma count_le_by_index (f : result -> bool) (cs : list (nat * result)) n (P : nat -> bool) :
  Permutation (List.map fst cs) (seq 0 n) ->
  (forall i r, In (i, r) cs -> f r = true -> P i = true) ->
  length (List.filter f (List.map snd cs)) <= length (List.filter P (seq 0 n)).
Proof.
  intros Hperm H.
  rewrite <- (filter_length_perm P _ _ Hperm), !filter_length_map.
  apply filter_length_le. intros [i r] Hin Hf. exact (H i r Hin Hf).
Qed.

Lemma count_done rs : count Converted rs + count Skipped rs = length (List.filter done rs).
Proof.
  unfold count, done. induction rs as [|r rs IH]; [reflexivity|].
  cbn [List.filter].
  destruct (is_state Converted r) eqn:Hc, (is_state Skipped r) eqn:Hs;
    cbn [orb length]; try lia.
  unfold is_state in Hc, Hs. destruct (classify r) as [[]|]; discriminate.
Qed.

Lemma done_cases r : valid r -> done r = true -> r = inr CONVERTED \/ r = inr SKIPPED.
Proof.
  intros Hv Hd. apply not_errored; [exact Hv|].
  unfold done, is_state in *. destruct (classify r) as [[]|]; try reflexivity; discriminate.
Qed.

(** What a pool has converted or skipped is to skip in the tree it
    leaves. *)
Lemma pool_done ffmpeg dir n flac_list br sched w :
  creates_output ffmpeg ->
  Forall (fun flac => PurePath.name flac <> "") flac_list ->
  Forall (fun flac => FS.is_dir (fs w) (PurePath.parent flac) = true) flac_list ->
  let st := run_pool ffmpeg sched (submit n flac_list br false w) in
  grows dir w (now st)
  /\ converted st + skipped st
     <= length (List.filter (would_skip (fs (now st))) flac_list).
Proof.
  intros Htool Hnames Hdirs st.
  destruct (pool_grows ffmpeg dir n flac_list br sched w Htool Hnames Hdirs) as [Hg Hres].
  destruct (run_pool_completed ffmpeg sched n flac_list br false w) as [Hperm Hcnt].
  pose proof (pool_valid ffmpeg n flac_list br false sched w) as Hv.
  fold st in Hg, Hres, Hperm, Hcnt, Hv. cbv zeta in Hv.
  unfold counters in Hcnt. rewrite tally_counts in Hcnt. inversion Hcnt as [[Hc Hs He]].
  split; [exact Hg|].
  rewrite Hc, Hs, count_done, <- filter_by_index.
  apply count_le_by_index; [exact Hperm|].
  intros i r Hin Hd. apply (Hres i r Hin). apply done_cases; [eapply Hv, Hin | exact Hd].
Qed.

(** X15. Work done is not done again. After a first run that is not
    dry, with a tool that has created its output whenever it exited with
    status 0, a second run on the same directory finds the same files
    and skips at least the files the first run converted or skipped:
    what it converts or fails on is among the files the first run failed
    on. *)
Theorem X15_second_run_keeps_finished_work (ffmpeg ffmpeg2 : tool) (a a2 : args)
  (sched sched2 : list nat) (w : world) :
  FS.wf (fs w) = true ->
  creates_output ffmpeg ->
  dry_run a = false ->
  NoDup (List.map opus_of (gather_flac_files (fs w) (root a))) ->
  root a2 = root a ->
  (0 < jobs a)%Z ->
  (0 < jobs a2)%Z ->
  let first := main ffmpeg a sched w in
  let second := main ffmpeg2 a2 sched2 (final first) in
  found second = found first
  /\ n_converted first + n_skipped first <= n_skipped second
  /\ n_converted second + n_errors second <= n_errors first.
Proof.
  intros Hwf Htool Hdry Hnd Hroot Hjobs Hjobs2 first second.
  unfold second, first, n_converted, n_skipped, n_errors.
  destruct (main_cases a w) as [H | [[H Hg] | [(H & Hg & Hj) | (H & Hg & Hj)]]];
    try lia.
  - rewrite (main_invalid_root ffmpeg a sched w H). cbn [final found summary].
    rewrite main_invalid_root by (rewrite Hroot, fs_log; exact H).
    cbn [found summary]. auto.
  - rewrite (main_nothing_found ffmpeg a sched w H Hg). cbn [final found summary].
    rewrite main_nothing_found.
    + cbn [summary found]. auto.
    + rewrite Hroot, fs_pool_start. exact H.
    + rewrite Hroot, fs_pool_start. exact Hg.
  - rewrite (main_pool ffmpeg a sched w H Hg Hj). cbn [final found summary].
    set (flac_list := gather_flac_files (fs w) (root a)) in *.
    set (st := pool_end ffmpeg a sched w) in *.
    set (w2 := log INFO (ConversionComplete (converted st) (skipped st) (errors st)) (now st)).
    assert (Hw2 : fs w2 = fs (now st)) by apply fs_log.
    destruct (pool_done ffmpeg (root a) (Z.to_nat (jobs a)) flac_list (bitrate a) sched
                (pool_start a w))
      as [(Hex & Hdir & Hgather) Hdone].
    { exact Htool. }
    { apply gather_names. }
    { rewrite fs_pool_start. apply gather_parents, Hwf. }
    rewrite <- Hdry in Hex, Hdir, Hgather, Hdone.
    change (run_pool ffmpeg sched
              (submit (Z.to_nat (jobs a)) flac_list (bitrate a) (dry_run a) (pool_start a w)))
      with st in Hex, Hdir, Hgather, Hdone.
    rewrite fs_pool_start in Hdir, Hgather.
    assert (Hd2 : FS.is_dir (fs w2) (root a2) = true) by (rewrite Hw2, Hroot, Hdir; exact H).
    assert (Hg2 : gather_flac_files (fs w2) (root a2) = flac_list)
      by (rewrite Hw2, Hroot; exact Hgather).
    rewrite (main_pool ffmpeg2 a2 sched2 w2 Hd2); [| rewrite Hg2; exact Hg | exact Hjobs2].
    cbn [summary found]. unfold pool_end at 1 2 3. rewrite Hg2.
    set (w3 := pool_start a2 w2).
    assert (Hw3 : fs w3 = fs (now st)) by (unfold w3; rewrite fs_pool_start; exact Hw2).
    pose proof (pool_skipped ffmpeg2 (Z.to_nat (jobs a2)) flac_list (bitrate a2)
                  (dry_run a2) sched2 w3 (gather_names (fs w) (root a)) Hnd) as Hs2.
    pose proof (pool_total ffmpeg2 (Z.to_nat (jobs a2)) flac_list (bitrate a2) (dry_run a2)
                  sched2 w3) as Htot2.
    pose proof (pool_total ffmpeg (Z.to_nat (jobs a)) flac_list (bitrate a) (dry_run a)
                  sched (pool_start a w)) as Htot.
    cbv zeta in Htot, Htot2.
    change (run_pool ffmpeg sched
              (submit (Z.to_nat (jobs a)) flac_list (bitrate a) (dry_run a) (pool_start a w)))
      with st in Htot.
    rewrite Hw3 in Hs2.
    split; [reflexivity|]. split; lia.
Qed.

(** ** The order of the pool *)

Lemma firstn_not_waiting ts : forall i k t,
  List.forallb (fun t => negb (is_waiting t)) (List.firstn i ts) = true ->
  k < i -> ts !! k = Some t -> is_waiting t = false.
Proof.
  induction ts as [|t0 ts IH]; intros i k t H Hk Ht; [discriminate|].
  destruct i as [|i]; [lia|]. cbn [List.firstn List.forallb] in H.
  apply andb_true_iff in H as [H0 H].
  destruct k as [|k]; cbn in Ht.
  - injection Ht as <-. apply negb_true_iff, H0.
  - apply (IH i k t H); [lia | exact Ht].
Qed.

Lemma moved_in_order i t w st :
  in_order (tasks st) ->
  is_waiting t = false ->
  (forall k t0, k < i -> tasks st !! k = Some t0 -> is_waiting t0 = false) ->
  in_order (tasks (moved i t w st)).
Proof.
  intros Hord Ht Hbefore a b ta tb Hab Ha Hb Hw. cbn [moved tasks] in Ha, Hb.
  destruct (Nat.eq_dec a i) as [-> | Hai].
  - assert (Hlt : i < length (tasks st)).
    { apply lookup_lt_Some in Ha. rewrite length_insert in Ha. exact Ha. }
    rewrite list_lookup_insert_eq in Ha by exact Hlt. congruence.
  - rewrite list_lookup_insert_ne in Ha by congruence.
    destruct (Nat.eq_dec b i) as [-> | Hbi].
    + rewrite (Hbefore a ta Hab Ha) in Hw. discriminate.
    + rewrite list_lookup_insert_ne in Hb by congruence.
      exact (Hord a b ta tb Hab Ha Hb Hw).
Qed.

Lemma step_in_order ffmpeg st i : in_order (tasks st) -> in_order (tasks (step ffmpeg st i)).
Proof.
  intros Hord. unfold step.
  destruct (tasks st !! i) as [[m | m |] |] eqn:Ht; try exact Hord.
  - destruct (may_start st i) eqn:Hstart; [|exact Hord].
    apply moved_in_order; [exact Hord | reflexivity |].
    unfold may_start in Hstart. apply andb_true_iff in Hstart as [_ Hfirst].
    intros k t0 Hk Hk'. exact (firstn_not_waiting _ _ _ _ Hfirst Hk Hk').
  - assert (Hbefore : forall k t0, k < i -> tasks st !! k = Some t0 -> is_waiting t0 = false).
    { intros k t0 Hk Hk'. destruct (is_waiting t0) eqn:Hw; [|reflexivity].
      pose proof (Hord k i t0 (Running m) Hk Hk' Ht Hw). discriminate. }
    destruct m as [a | e | X ev k].
    + rewrite complete_tasks. apply (moved_in_order i Finished (now st) st); auto.
    + rewrite complete_tasks. apply (moved_in_order i Finished (now st) st); auto.
    + destruct (handle ffmpeg ev (now st)) as [x w'].
      apply moved_in_order; auto.
Qed.

Lemma submit_in_order n flac_list br dry w : in_order (tasks (submit n flac_list br dry w)).
Proof.
  intros i j t t' _ _ Hj _. cbn [submit tasks] in Hj.
  apply list_elem_of_lookup_2, list_elem_of_In, in_map_iff in Hj as [flac [<- _]]. reflexivity.
Qed.

(** X16. The pool keeps to its size and to the order of discovery: at
    every moment of a run at most [max_workers] tasks are running, and a
    task that still waits has only waiting tasks behind it. *)
Theorem X16_pool_size_and_order (ffmpeg : tool) (n : nat) (flac_list : list path)
  (br : string) (dry : bool) (w : world) (sched : list nat) :
  let st := List.fold_left (step ffmpeg) sched (submit n flac_list br dry w) in
  in_flight st <= n
  /\ length (tasks st) = length flac_list
  /\ (forall i j t t',
        i < j -> tasks st !! i = Some t -> tasks st !! j = Some t' ->
        is_waiting t = true -> is_waiting t' = true).
Proof.
  intros st. split; [apply pool_bounded|]. split.
  - unfold st. rewrite fold_step_length. cbn [submit tasks]. apply length_map.
  - unfold st.
    assert (H : forall st0, in_order (tasks st0) ->
              in_order (tasks (List.fold_left (step ffmpeg) sched st0))).
    { induction sched as [|i sched IH]; intros st0 H0; [exact H0|].
      cbn [List.fold_left]. apply IH, step_in_order, H0. }
    exact (H _ (submit_in_order n flac_list br dry w)).
Qed.

(** ** One worker *)

Lemma finish_finished_same ffmpeg st i :
  tasks st !! i = Some Finished -> finish ffmpeg st i = st.
Proof. intros H. unfold finish. rewrite H. reflexivity. Qed.

Lemma fold_finish_noop ffmpeg l : forall st,
  (forall j, In j l -> tasks st !! j = Some Finished) ->
  List.fold_left (finish ffmpeg) l st = st.
Proof.
  induction l as [|i l IH]; intros st H; [reflexivity|].
  cbn [List.fold_left]. rewrite finish_finished_same by (apply H; left; reflexivity).
  apply IH. intros j Hj. apply H. right. exact Hj.
Qed.

Lemma drain_from ffmpeg st k :
  (forall j, j < k -> tasks st !! j = Some Finished) ->
  k <= length (tasks st) ->
  drain ffmpeg st = List.fold_left (finish ffmpeg) (seq k (length (tasks st) - k)) st.
Proof.
  intros Hfin Hk. unfold drain.
  replace (length (tasks st)) with (k + (length (tasks st) - k)) at 1 by lia.
  rewrite seq_app, fold_left_app, (fold_finish_noop ffmpeg (seq 0 k) st); [reflexivity|].
  intros j Hj. apply in_seq in Hj. apply Hfin. lia.
Qed.

Lemma drain_next ffmpeg st k :
  (forall j, j < k -> tasks st !! j = Some Finished) ->
  k < length (tasks st) ->
  drain ffmpeg st
  = List.fold_left (finish ffmpeg) (seq (S k) (length (tasks st) - S k)) (finish ffmpeg st k).
Proof.
  intros Hfin Hk. rewrite (drain_from ffmpeg st k Hfin) by lia.
  replace (length (tasks st) - k) with (S (length (tasks st) - S k)) by lia.
  reflexivity.
Qed.

Lemma complete_moved i r w t w0 st : complete i r w (moved i t w0 st) = complete i r w st.
Proof.
  unfold complete, moved. cbn [files converted skipped errors max_workers tasks completed].
  destruct (collect _ _ _) as [[[c s] e] w']. rewrite list_insert_insert_eq. reflexivity.
Qed.

Lemma finish_moved ffmpeg i m t st :
  i < length (tasks st) ->
  tasks st !! i = Some t -> program t = Some m ->
  finish ffmpeg (moved i (Running m) (now st) st) i = finish ffmpeg st i.
Proof.
  intros Hi Ht Hm. unfold finish. cbn [moved tasks now].
  rewrite list_lookup_insert_eq by exact Hi. rewrite Ht. cbn [program]. rewrite Hm.
  destruct (exec ffmpeg m (now st)) as [r w'].
  apply (complete_moved i r w' (Running m) (now st) st).
Qed.

Lemma in_flight_running ts i m :
  ts !! i = Some (Running m) -> 1 <= length (List.filter is_running ts).
Proof.
  revert i. induction ts as [|t ts IH]; intros i H; [discriminate|].
  destruct i as [|i]; cbn in H.
  - injection H as ->. simpl. lia.
  - cbn [List.filter]. specialize (IH i H). destruct (is_running t); simpl; lia.
Qed.

Lemma firstn_waiting ts : forall i k t,
  k < i -> ts !! k = Some t -> is_waiting t = true ->
  List.forallb (fun t => negb (is_waiting t)) (List.firstn i ts) = false.
Proof.
  intros i k t Hk Ht Hw.
  destruct (List.forallb _ (List.firstn i ts)) eqn:E; [|reflexivity].
  rewrite (firstn_not_waiting ts i k t E Hk Ht) in Hw. discriminate.
Qed.

(** With one worker no task behind the first task that has not ended
    leaves the queue. *)
Lemma may_start_later st k i t :
  max_workers st = 1 ->
  tasks st !! k = Some t -> t <> Finished -> k < i ->
  may_start st i = false.
Proof.
  intros Hone Ht Hnf Hk. unfold may_start, in_flight. rewrite Hone.
  destruct t as [m | m |]; [| |congruence].
  - rewrite (firstn_waiting (tasks st) i k (Waiting m) Hk Ht eq_refl). apply andb_false_r.
  - pose proof (in_flight_running _ _ _ Ht) as H.
    replace (Nat.ltb _ 1) with false by (symmetry; apply Nat.ltb_ge; exact H). reflexivity.
Qed.

Lemma queue_at_moved k m ts :
  k < length ts -> queue_at k ts -> queue_at k (<[k := Running m]> ts).
Proof.
  intros Hk (Hb & Ha & Hc). split; [|split].
  - intros j Hj. rewrite list_lookup_insert_ne by lia. apply Hb, Hj.
  - intros j t Hj. rewrite list_lookup_insert_ne by lia. apply Ha, Hj.
  - intros t. rewrite list_lookup_insert_eq by exact Hk. congruence.
Qed.

Lemma queue_at_finished k ts :
  k < length ts -> queue_at k ts -> queue_at (S k) (<[k := Finished]> ts).
Proof.
  intros Hk (Hb & Ha & Hc). split; [|split].
  - intros j Hj. destruct (Nat.eq_dec j k) as [-> | Hne].
    + apply list_lookup_insert_eq, Hk.
    + rewrite list_lookup_insert_ne by congruence. apply Hb. lia.
  - intros j t Hj. rewrite list_lookup_insert_ne by lia. apply Ha. lia.
  - intros t. rewrite list_lookup_insert_ne by lia. intros Ht ->.
    specialize (Ha (S k) Finished (Nat.lt_succ_diag_r k) Ht). discriminate.
Qed.

(** A step of a pool with one worker changes nothing in what the pool
    leaves when it is drained. *)
Lemma step_drain ffmpeg st i k :
  max_workers st = 1 -> queue_at k (tasks st) ->
  drain ffmpeg (step ffmpeg st i) = drain ffmpeg st
  /\ max_workers (step ffmpeg st i) = 1
  /\ exists k', queue_at k' (tasks (step ffmpeg st i)).
Proof.
  intros Hone Hq.
  assert (Hsame : drain ffmpeg st = drain ffmpeg st /\ max_workers st = 1
                  /\ exists k', queue_at k' (tasks st)) by eauto.
  pose proof Hq as (Hb & Ha & Hc).
  unfold step. destruct (tasks st !! i) as [t |] eqn:Ht; [|exact Hsame].
  assert (Hi : i < length (tasks st)) by (eapply lookup_lt_Some; eauto).
  destruct (lt_eq_lt_dec i k) as [[Hlt | ->] | Hgt].
  - rewrite (Hb i Hlt) in Ht. injection Ht as <-. exact Hsame.
  - destruct t as [m | m |]; [| |exact Hsame].
    + destruct (may_start st k); [|exact Hsame].
      split; [|split; [exact Hone|]].
      * rewrite (drain_next ffmpeg _ k), (drain_next ffmpeg st k Hb Hi).
        -- cbn [moved tasks]. rewrite length_insert.
           rewrite (finish_moved ffmpeg k m (Waiting m) st Hi Ht eq_refl). reflexivity.
        -- intros j Hj. cbn [moved tasks]. rewrite list_lookup_insert_ne by lia.
           apply Hb, Hj.
        -- cbn [moved tasks]. rewrite length_insert. exact Hi.
      * exists k. apply queue_at_moved; assumption.
    + destruct m as [a | e | X ev k0].
      * split; [|split; [rewrite complete_max_workers; exact Hone|]].
        -- rewrite (drain_next ffmpeg st k Hb Hi).
           assert (Hf : finish ffmpeg st k = complete k (inr a) (now st) st)
             by (unfold finish; rewrite Ht; reflexivity).
           rewrite Hf. rewrite (drain_from ffmpeg _ (S k)).
           ++ rewrite complete_tasks, length_insert. reflexivity.
           ++ rewrite complete_tasks. apply (queue_at_finished k _ Hi Hq).
           ++ rewrite complete_tasks, length_insert. lia.
        -- exists (S k). rewrite complete_tasks. apply queue_at_finished; assumption.
      * split; [|split; [rewrite complete_max_workers; exact Hone|]].
        -- rewrite (drain_next ffmpeg st k Hb Hi).
           assert (Hf : finish ffmpeg st k = complete k (inl e) (now st) st)
             by (unfold finish; rewrite Ht; reflexivity).
           rewrite Hf. rewrite (drain_from ffmpeg _ (S k)).
           ++ rewrite complete_tasks, length_insert. reflexivity.
           ++ rewrite complete_tasks. apply (queue_at_finished k _ Hi Hq).
           ++ rewrite complete_tasks, length_insert. lia.
        -- exists (S k). rewrite complete_tasks. apply queue_at_finished; assumption.
      * destruct (handle ffmpeg ev (now st)) as [x w'] eqn:Hh.
        split; [|split; [exact Hone|]].
        -- rewrite (drain_next ffmpeg _ k), (drain_next ffmpeg st k Hb Hi).
           ++ cbn [moved tasks]. rewrite length_insert. f_equal.
              unfold finish. cbn [moved tasks now].
              rewrite list_lookup_insert_eq by exact Hi. rewrite Ht.
              cbn [program exec]. rewrite Hh.
              destruct (exec ffmpeg (k0 x) w') as [r w''].
              apply (complete_moved k r w'' (Running (k0 x)) w' st).
           ++ intros j Hj. cbn [moved tasks]. rewrite list_lookup_insert_ne by lia.
              apply Hb, Hj.
           ++ cbn [moved tasks]. rewrite length_insert. exact Hi.
        -- exists k. apply queue_at_moved; assumption.
  - assert (Hk : k < length (tasks st)) by lia.
    destruct (lookup_lt_is_Some_2 (tasks st) k Hk) as [tk Htk].
    pose proof (Ha i t Hgt Ht) as Hw. destruct t as [m | m |]; try discriminate Hw.
    rewrite (may_start_later st k i tk Hone Htk (Hc tk Htk) Hgt). exact Hsame.
Qed.

Lemma fold_step_drain ffmpeg sched : forall st k,
  max_workers st = 1 -> queue_at k (tasks st) ->
  drain ffmpeg (List.fold_left (step ffmpeg) sched st) = drain ffmpeg st.
Proof.
  induction sched as [|i sched IH]; intros st k Hone Hq; [reflexivity|].
  cbn [List.fold_left].
  destruct (step_drain ffmpeg st i k Hone Hq) as (Hd & Hone' & k' & Hq').
  rewrite (IH _ k' Hone' Hq'). exact Hd.
Qed.

Lemma submit_queue n flac_list br dry w : queue_at 0 (tasks (submit n flac_list br dry w)).
Proof.
  split; [|split].
  - intros j Hj. lia.
  - intros j t _ Hj. cbn [submit tasks] in Hj.
    apply list_elem_of_lookup_2, list_elem_of_In, in_map_iff in Hj as [flac [<- _]]. reflexivity.
  - intros t Ht. cbn [submit tasks] in Ht.
    apply list_elem_of_lookup_2, list_elem_of_In, in_map_iff in Ht as [flac [<- _]]. discriminate.
Qed.

Lemma run_pool_drain ffmpeg sched st :
  run_pool ffmpeg sched st = drain ffmpeg (List.fold_left (step ffmpeg) sched st).
Proof. reflexivity. Qed.

(** With one worker the schedule does not matter. *)
Lemma one_worker_any_schedule ffmpeg sched flac_list br dry w :
  run_pool ffmpeg sched (submit 1 flac_list br dry w)
  = drain ffmpeg (submit 1 flac_list br dry w).
Proof.
  rewrite run_pool_drain. apply (fold_step_drain ffmpeg sched _ 0); [reflexivity|].
  apply submit_queue.
Qed.

(** Draining a pool is the loop over its files. *)
Lemma fold_finish_one_by_one ffmpeg br dry rest : forall st pre,
  files st = pre ++ rest ->
  tasks st
  = replicate (length pre) Finished
    ++ List.map (fun flac => Waiting (convert_file flac br dry)) rest ->
  outcome (List.fold_left (finish ffmpeg) (seq (length pre) (length rest)) st)
  = one_by_one ffmpeg br dry rest (outcome st).
Proof.
  induction rest as [|flac rest IH]; intros st pre Hfiles Htasks; [reflexivity|].
  cbn [length seq List.fold_left one_by_one].
  assert (Hk : tasks st !! length pre = Some (Waiting (convert_file flac br dry))).
  { rewrite Htasks, lookup_app_r by (rewrite length_replicate; lia).
    rewrite length_replicate, Nat.sub_diag. reflexivity. }
  assert (Hfile : file_of (files st) (length pre) = flac).
  { apply file_of_lookup. rewrite Hfiles, lookup_app_r by lia.
    rewrite Nat.sub_diag. reflexivity. }
  unfold finish at 2. rewrite Hk. cbn [program]. unfold outcome at 2.
  destruct (exec ffmpeg (convert_file flac br dry) (now st)) as [r w'].
  replace (S (length pre)) with (length (pre ++ [flac])) by (rewrite length_app; simpl; lia).
  rewrite (IH (complete (length pre) r w' st) (pre ++ [flac])).
  - f_equal. unfold outcome, complete. rewrite Hfile.
    destruct (collect flac r _) as [[[c s] e] w'']. reflexivity.
  - rewrite complete_files, Hfiles, <- app_assoc. reflexivity.
  - rewrite complete_tasks, Htasks.
    rewrite insert_app_r_alt by (rewrite length_replicate; lia).
    rewrite length_replicate, Nat.sub_diag. cbn [List.map].
    rewrite length_app. cbn [length]. rewrite Nat.add_1_r, replicate_S_end, <- app_assoc.
    reflexivity.
Qed.

Lemma drain_one_by_one ffmpeg n flac_list br dry w :
  outcome (drain ffmpeg (submit n flac_list br dry w))
  = one_by_one ffmpeg br dry flac_list (0, 0, 0, w).
Proof.
  unfold drain. cbn [submit tasks]. rewrite length_map.
  apply (fold_finish_one_by_one ffmpeg br dry flac_list (submit n flac_list br dry w) []);
    reflexivity.
Qed.

(** X17. With one worker the run is the loop over the found files in
    the order of discovery: whatever the schedule, the pool ends in the
    same state, and its counters and the world it leaves are those of
    converting and counting one file after the other. So the outcome of
    a run with [--jobs 1] does not depend on the schedule. *)
Theorem X17_one_worker_is_the_loop (ffmpeg : tool) (flac_list : list path) (br : string)
  (dry : bool) (w : world) (sched : list nat) :
  let st := run_pool ffmpeg sched (submit 1 flac_list br dry w) in
  st = run_pool ffmpeg [] (submit 1 flac_list br dry w)
  /\ (converted st, skipped st, errors st, now st)
     = one_by_one ffmpeg br dry flac_list (0, 0, 0, w)
  /\ (forall a sched' w0,
        jobs a = 1%Z -> main ffmpeg a sched w0 = main ffmpeg a sched' w0).
Proof.
  intros st. unfold st. split; [|split].
  - rewrite !one_worker_any_schedule. reflexivity.
  - rewrite one_worker_any_schedule. apply drain_one_by_one.
  - intros a sched' w0 Hj. unfold main. rewrite Hj. cbn [ProcessPoolExecutor Z.leb Z.compare].
    change (Z.to_nat 1) with 1. rewrite !one_worker_any_schedule. reflexivity.
Qed.

(** ** Searching a subdirectory *)

Lemma is_dir_prefix n : forall dir sub,
  FS.is_dir n (dir ++ sub) = true -> FS.is_dir n dir = true.
Proof.
  intros dir sub. unfold FS.is_dir. rewrite lookup_app.
  destruct (FS.lookup n dir) as [[|es]|]; try reflexivity.
  - destruct sub; [discriminate | rewrite lookup_file_cons; discriminate].
  - discriminate.
Qed.

(** X18. Searching a subdirectory finds exactly what the search of the
    directory finds below that subdirectory: a run on a part of the tree
    works on the files a run on the whole tree works on there. *)
Theorem X18_gather_below (n : FS.node) (dir sub : path) (flac : path) :
  FS.wf n = true ->
  FS.is_dir n (dir ++ sub) = true ->
  In flac (gather_flac_files n (dir ++ sub))
  <-> In flac (gather_flac_files n dir)
      /\ exists rel, rel <> [] /\ flac = dir ++ sub ++ rel.
Proof.
  intros Hwf Hdir. unfold gather_flac_files. rewrite !in_rglob by exact Hwf. split.
  - intros (_ & rel & -> & Hrel & Hex & Hm). split.
    + split; [eapply is_dir_prefix, Hdir|].
      exists (sub ++ rel). rewrite app_assoc. repeat split; try assumption.
      destruct sub; [exact Hrel | discriminate].
    + exists rel. rewrite app_assoc. auto.
  - intros ((_ & _ & _ & _ & Hex & Hm) & rel & Hrel & ->). split; [exact Hdir|].
    exists rel. rewrite app_assoc in *. auto.
Qed.

(** ** The commands of a run *)

Lemma spawns_for_same flac br w w' : spawned w' = spawned w -> spawns_for flac br w w'.
Proof. intros H argv Hin. rewrite H in Hin. left. exact Hin. Qed.

Lemma spawns_for_spawn flac br argv r n w :
  argv = cover_cmd flac (jpg_of flac) \/ argv = transcode_cmd flac (opus_of flac) br ->
  spawns_for flac br w {| fs := n; trace := trace w ++ [Spawned argv r] |}.
Proof.
  intros H a Hin. rewrite spawned_spawn in Hin.
  apply in_app_or in Hin as [Hin | [<- | []]]; [left; exact Hin | right; exact H].
Qed.

Ltac spawns_tac :=
  first [ exact I
        | eapply with_suffix_opus_inl; eassumption
        | eapply with_suffix_jpg_inl; eassumption
        | solve [ apply spawns_for_same;
                  first [ reflexivity | apply spawned_log | apply spawned_record_asked
                        | apply spawned_record_refused ] ]
        | solve [ apply spawns_for_spawn;
                  repeat match goal with
                         | H : PurePath.with_suffix ?f ".opus" = inr ?p |- _ =>
                             rewrite ?(opus_of_inr f p H); revert H
                         | H : PurePath.with_suffix ?f ".jpg" = inr ?p |- _ =>
                             rewrite ?(jpg_of_inr f p H); revert H
                         end;
                  intros; first [ left; reflexivity | right; reflexivity ] ] ].

Lemma convert_file_spawns_for ffmpeg flac br dry w :
  PurePath.name flac <> "" ->
  safe ffmpeg (fun _ _ => True) (spawns_for flac br) (fun _ _ => True)
    (convert_file flac br dry) w.
Proof.
  intros Hname.
  unfold_script.
  safe_walk spawns_tac.
Qed.

Lemma pool_spawns ffmpeg n flac_list br dry sched w :
  Forall (fun flac => PurePath.name flac <> "") flac_list ->
  forall argv,
    In argv (spawned (now (run_pool ffmpeg sched (submit n flac_list br dry w)))) ->
    In argv (spawned w)
    \/ exists flac, In flac flac_list
         /\ (argv = cover_cmd flac (jpg_of flac)
             \/ argv = transcode_cmd flac (opus_of flac) br).
Proof.
  intros Hnames.
  apply (pool_promises ffmpeg (fun _ _ _ => True)
           (fun i w1 w2 => exists flac, flac_list !! i = Some flac /\ spawns_for flac br w1 w2)
           (fun _ _ _ => True)
           (fun w1 => forall argv, In argv (spawned w1) ->
              In argv (spawned w)
              \/ exists flac, In flac flac_list
                   /\ (argv = cover_cmd flac (jpg_of flac)
                       \/ argv = transcode_cmd flac (opus_of flac) br))); auto.
  - intros i w1 w2 H (flac & Hi & Hs) argv Hin.
    destruct (Hs argv Hin) as [Hold | Hnew]; [apply H, Hold | right].
    exists flac. split; [|exact Hnew].
    eapply list_elem_of_In, list_elem_of_lookup_2, Hi.
  - intros w1 l m H argv Hin. rewrite spawned_log in Hin. apply H, Hin.
  - intros i flac Hi.
    eapply safe_weaken; [| | | apply (convert_file_spawns_for ffmpeg flac br dry w)].
    + auto.
    + intros w1 w2 H. exists flac. auto.
    + auto.
    + rewrite Forall_forall in Hnames. apply Hnames. eapply list_elem_of_lookup_2, Hi.
Qed.

(** X19. A run starts no other program than [ffmpeg], and starts it on
    found files only: every command spawned during the run is the cover
    extraction or the conversion of a found file, with the command line
    the script builds for that file and the bit rate of the run. *)
Theorem X19_run_spawns_its_commands_only (ffmpeg : tool) (a : args) (sched : list nat)
  (w : world) (argv : list string) :
  In argv (spawned (final (main ffmpeg a sched w))) ->
  In argv (spawned w)
  \/ exists flac,
       In flac (gather_flac_files (fs w) (root a))
       /\ (argv = cover_cmd flac (jpg_of flac)
           \/ argv = transcode_cmd flac (opus_of flac) (bitrate a))
       /\ List.hd "" argv = "ffmpeg"
       /\ In (PurePath.str flac) argv.
Proof.
  intros Hin.
  assert (H : In argv (spawned w)
              \/ exists flac, In flac (gather_flac_files (fs w) (root a))
                   /\ (argv = cover_cmd flac (jpg_of flac)
                       \/ argv = transcode_cmd flac (opus_of flac) (bitrate a))).
  { destruct (main_cases a w) as [H | [[H Hg] | [(H & Hg & Hj) | (H & Hg & Hj)]]].
    - rewrite main_invalid_root in Hin by exact H. cbn [final] in Hin.
      rewrite spawned_log in Hin. left. exact Hin.
    - rewrite main_nothing_found in Hin by assumption. cbn [final] in Hin.
      rewrite spawned_pool_start in Hin. left. exact Hin.
    - rewrite main_no_workers in Hin by assumption. cbn [final] in Hin.
      rewrite spawned_pool_start in Hin. left. exact Hin.
    - rewrite main_pool in Hin by assumption. cbn [final] in Hin.
      rewrite spawned_log in Hin. unfold pool_end in Hin.
      apply pool_spawns in Hin; [|apply gather_names].
      rewrite spawned_pool_start in Hin. exact Hin. }
  destruct H as [H | (flac & Hf & Hcmd)]; [left; exact H | right].
  exists flac. split; [exact Hf|]. split; [exact Hcmd|].
  destruct Hcmd as [-> | ->]; split; try reflexivity;
    unfold cover_cmd, transcode_cmd; simpl; tauto.
Qed.

(** ** The log of a run *)

Lemma extends_refl w : extends w w.
Proof. exists []. symmetry. apply app_nil_r. Qed.

Lemma extends_trans w1 w2 w3 : extends w1 w2 -> extends w2 w3 -> extends w1 w3.
Proof. intros [l Hl] [l' Hl']. exists (l ++ l'). rewrite Hl', Hl, app_assoc. reflexivity. Qed.

Lemma extends_snoc n w o : extends w {| fs := n; trace := trace w ++ [o] |}.
Proof. exists [o]. reflexivity. Qed.

Lemma extends_record o w : extends w (record o w).
Proof. apply extends_snoc. Qed.

Lemma extends_log l m w : extends w (log l m w).
Proof. unfold log. destruct (enabled l); [apply extends_record | apply extends_refl]. Qed.

Ltac extends_tac :=
  first [ exact I
        | eapply with_suffix_opus_inl; eassumption
        | eapply with_suffix_jpg_inl; eassumption
        | apply extends_log
        | apply extends_record
        | apply extends_snoc ].

Lemma convert_file_extends ffmpeg flac br dry w :
  PurePath.name flac <> "" ->
  safe ffmpeg (fun _ _ => True) extends (fun _ _ => True) (convert_file flac br dry) w.
Proof.
  intros Hname.
  unfold_script.
  safe_walk extends_tac.
Qed.

Lemma pool_extends ffmpeg n flac_list br dry sched w :
  Forall (fun flac => PurePath.name flac <> "") flac_list ->
  extends w (now (run_pool ffmpeg sched (submit n flac_list br dry w))).
Proof.
  intros Hnames.
  apply (pool_promises ffmpeg (fun _ _ _ => True) (fun _ => extends) (fun _ _ _ => True)
           (extends w)); auto.
  - intros i w1 w2. apply extends_trans.
  - intros w1 l m H. eapply extends_trans; [exact H | apply extends_log].
  - apply extends_refl.
  - intros i flac Hi. apply convert_file_extends.
    rewrite Forall_forall in Hnames. apply Hnames. eapply list_elem_of_lookup_2, Hi.
Qed.

(** X20. The log of a run. Nothing on record is lost or reordered. For
    a root that is no directory the run adds the one error line. For a
    directory it adds the line with the number of found files first,
    and nothing else when nothing was found or no pool could be
    created; when the summary line is reached, that line, with the
    three counters, is the last of the record. *)
Theorem X20_log_of_a_run (ffmpeg : tool) (a : args) (sched : list nat) (w : world) :
  let e := main ffmpeg a sched w in
  let flac_list := gather_flac_files (fs w) (root a) in
  (FS.is_dir (fs w) (root a) = false ->
     trace (final e) = trace w ++ [Logged ERROR (DirectoryNotFound (root a))])
  /\ (FS.is_dir (fs w) (root a) = true ->
      exists rest,
        trace (final e)
        = trace w ++ Logged INFO (FoundFiles (length flac_list) (root a)) :: rest
        /\ (flac_list = [] \/ (jobs a <= 0)%Z -> rest = [])
        /\ (forall c s x, summary e = Some (c, s, x) ->
              exists mid, rest = mid ++ [Logged INFO (ConversionComplete c s x)])).
Proof.
  intros e flac_list. unfold e, flac_list. clear e flac_list. split.
  - intros H. rewrite main_invalid_root by exact H. reflexivity.
  - intros H.
    destruct (main_cases a w) as [H' | [[_ Hg] | [(_ & Hg & Hj) | (_ & Hg & Hj)]]];
      [congruence | | |].
    + rewrite main_nothing_found by assumption. exists []. cbn [final summary].
      repeat split; try discriminate; auto.
    + rewrite main_no_workers by assumption. exists []. cbn [final summary].
      repeat split; try discriminate; auto.
    + rewrite main_pool by assumption. cbn [final summary].
      destruct (pool_extends ffmpeg (Z.to_nat (jobs a)) _ (bitrate a) (dry_run a)
                  sched (pool_start a w) (gather_names (fs w) (root a))) as [mid Hmid].
      fold (pool_end ffmpeg a sched w) in Hmid.
      set (st := pool_end ffmpeg a sched w) in *.
      exists (mid ++ [Logged INFO (ConversionComplete (converted st) (skipped st) (errors st))]).
      split; [|split].
      * rewrite trace_log. cbn [enabled]. rewrite Hmid, trace_pool_start.
        rewrite <- !app_assoc. reflexivity.
      * intros [Hnil | Hle]; [destruct (Hg Hnil) | lia].
      * intros c s x Heq. injection Heq as <- <- <-. exists mid. reflexivity.
Qed.

(** ** Names that fit *)














(** ** Scenarios *)

(** *** The scenarios of the specification *)

Example scenario_converted_skipped_errored :
  let e := main demo_tool demo_args demo_sched demo_world in
  summary e = Some (2, 2, 1) /\ exit_status e = 1%Z.
Proof. vm_compute. auto. Qed.

Example scenario_empty_root :
  let e := main demo_tool demo_args demo_sched (mkWorld (FS.Dir [("music", FS.Dir [])]) []) in
  found e = Some 0 /\ exit_status e = 0%Z /\ spawned (final e) = []
  /\ trace (final e) = [Logged INFO (FoundFiles 0 ["music"])].
Proof. vm_compute. auto. Qed.

(** Two files of one directory whose conversions write the same file:
    the real run converts the first and skips the second, the dry run
    reports both as converted. *)
Example same_output_path :
  let w := mkWorld (FS.Dir [("music", FS.Dir [(".flac", FS.File); (".flac.flac", FS.File)])])
             [] in
  gather_flac_files (fs w) ["music"] = [["music"; ".flac"]; ["music"; ".flac.flac"]]
  /\ opus_of ["music"; ".flac"] = opus_of ["music"; ".flac.flac"]
  /\ summary (main good_tool demo_args [] w) = Some (1, 1, 0)
  /\ summary (main good_tool (set_dry_run demo_args true) [] w) = Some (2, 0, 0).
Proof. vm_compute. auto. Qed.

Example with_suffix_song :
  PurePath.with_suffix ["music"; "album"; "song.flac"] ".opus"
  = inr ["music"; "album"; "song.opus"].
Proof. reflexivity. Qed.

Example with_suffix_dotfile :
  PurePath.with_suffix ["music"; ".flac"] ".opus" = inr ["music"; ".flac.opus"].
Proof. reflexivity. Qed.

Example with_suffix_here : exists e, PurePath.with_suffix [] ".opus" = inl e.
Proof. eexists. reflexivity. Qed.

Example fnmatch_upper_case : PyStr.fnmatchcase "song.FLAC" "*.flac" = false.
Proof. reflexivity. Qed.

Example strip_stderr : PyStr.strip "  bad header
" = "bad header".
Proof. reflexivity. Qed.

Example strip_unicode_whitespace :
  PyStr.strip (String "194"%char (String "160"%char " bad header")
               ++ String "226"%char (String "128"%char (String "131"%char "")))
  = "bad header".
Proof. reflexivity. Qed.

Example decode_line_ends :
  PyStr.decode (String "a" (String PyStr.CR (String PyStr.LF (String "b" (String PyStr.CR "")))))
  = Some (String "a" (String PyStr.LF (String "b" (String PyStr.LF "")))).
Proof. reflexivity. Qed.

Example decode_rejects_bad_bytes : PyStr.decode (String "255"%char "") = None.
Proof. reflexivity. Qed.

(** Exit status 0 with output that cannot be decoded: the file is
    written, and the conversion is reported as an error. *)
Example exit_zero_with_garbled_output :
  let run := exec garbled_tool (convert_file ["music"; "a.flac"] "192k" false) demo_world in
  fst run = inr ERRORED
  /\ FS.exists_ (fs (snd run)) ["music"; "a.opus"] = true
  /\ List.last (trace (snd run)) (Asked [] false)
     = Logged ERROR
         (UnexpectedError ["music"; "a.flac"] (UnicodeDecodeError (String "255"%char ""))).
Proof. vm_compute. auto. Qed.

(** A path whose output name is too long: the check for the output
    raises. *)
Example exists_raises_for_a_long_name :
  FS.path_exists demo_tree [(long_name ++ ".opus")%string]
  = inl (ENAMETOOLONG [(long_name ++ ".opus")%string])
  /\ FS.path_exists demo_tree [long_name] = inr false
  /\ FS.path_exists demo_tree ["music"; "a.flac"; (long_name ++ ".opus")%string] = inr false.
Proof. vm_compute. auto. Qed.

Example scenario_name_too_long :
  let e := main good_tool (set_dry_run demo_args true) demo_sched long_world in
  summary e = Some (1, 0, 1) /\ exit_status e = 1%Z.
Proof. vm_compute. auto. Qed.

(** *** The properties at work *)

Lemma C1_witness :
  summary (main demo_tool demo_args demo_sched demo_world) = Some (2, 2, 1)
  /\ 2 + 2 + 1 = length (gather_flac_files (fs demo_world) (root demo_args)).
Proof.
  assert (H : summary (main demo_tool demo_args demo_sched demo_world) = Some (2, 2, 1))
    by (vm_compute; reflexivity).
  split; [exact H|].
  exact (proj2 (proj2 (proj2 (C1_counters_account_for_every_task demo_tool))
                  demo_args demo_sched demo_world 2 2 1 H)).
Defined.

(** With files found and no worker allowed, the process ends with status
    1 although the root is a directory and no error was counted. *)
Lemma C2_counterexample :
  let e := main demo_tool no_worker_args demo_sched demo_world in
  exit_status e = 1%Z
  /\ FS.is_dir (fs demo_world) (root no_worker_args) = true
  /\ n_errors e = 0
  /\ ~ (exit_status e = 1%Z
        <-> FS.is_dir (fs demo_world) (root no_worker_args) = false \/ n_errors e <> 0).
Proof.
  vm_compute. repeat split; auto.
  intros [H _]. destruct (H eq_refl) as [H' | H']; [discriminate | apply H'; reflexivity].
Qed.

Lemma C2_witness :
  exit_status (main demo_tool demo_args demo_sched demo_world) = 1%Z
  <-> FS.is_dir (fs demo_world) (root demo_args) = false
      \/ n_errors (main demo_tool demo_args demo_sched demo_world) <> 0.
Proof.
  apply (proj2 (C2_exit_status demo_tool demo_args demo_sched demo_world)).
  left. reflexivity.
Defined.


Lemma demo_outputs_differ :
  NoDup (List.map opus_of (gather_flac_files (fs demo_world) (root demo_args))).
Proof.
  vm_compute.
  repeat (apply NoDup_cons; split;
          [ intros Hin;
            repeat (apply elem_of_cons in Hin; destruct Hin as [Hin | Hin]; [discriminate|]);
            inversion Hin
          | ]).
  apply NoDup_nil. exact I.
Qed.


(** After a dry run that ended with status 0 nothing is done, and the
    next run converts again. *)
Lemma C4_counterexample :
  let first := main good_tool (set_dry_run demo_args true) demo_sched demo_world in
  let second := main good_tool demo_args demo_sched (final first) in
  exit_status first = 0%Z
  /\ n_errors first = 0
  /\ fs (final first) = fs demo_world
  /\ found second = Some 5
  /\ n_converted second = 3
  /\ n_skipped second = 2
  /\ ~ (n_converted second = 0 /\ n_skipped second = 5).
Proof. vm_compute. repeat split; auto. intros [H _]. discriminate. Qed.

Lemma good_tool_creates_output : creates_output good_tool.
Proof. intros w flac opus br stdout stderr b H. inversion H. reflexivity. Qed.

Lemma C4_witness :
  let first := main good_tool demo_args demo_sched demo_world in
  let second := main demo_tool (set_dry_run demo_args true) [] (final first) in
  n_converted second = 0 /\ found second = Some (n_skipped second).
Proof.
  destruct (C4_second_run_skips_everything good_tool demo_tool demo_args
              (set_dry_run demo_args true) demo_sched [] demo_world)
    as (H1 & H2 & _).
  - reflexivity.
  - exact good_tool_creates_output.
  - reflexivity.
  - vm_compute. reflexivity.
  - reflexivity.
  - reflexivity.
  - split; [exact H1 | exact H2].
Defined.





Lemma C7_witness :
  exactly_one (false, false, true) = true.
Proof.
  apply (proj1 (C7_exactly_one_outcome demo_tool) ["music"; "c.flac"] "192k" false demo_world).
  vm_compute. reflexivity.
Defined.

Lemma C8_witness :
  exec demo_tool (extract_cover ["music"; "b.flac"] false)
    (mkWorld (FS.Dir [("music", FS.Dir [("b.flac", FS.File); ("b.jpg", FS.File)])]) [])
  = (inr false,
     record (Asked ["music"; "b.jpg"] true)
       (mkWorld (FS.Dir [("music", FS.Dir [("b.flac", FS.File); ("b.jpg", FS.File)])]) [])).
Proof.
  apply (C8_existing_cover_is_a_noop demo_tool ["music"; "b.flac"] ["music"; "b.jpg"]);
    reflexivity.
Defined.

Lemma C9_witness :
  In ["music"; "live"; "e.flac"] (gather_flac_files demo_tree ["music"])
  /\ ~ In ["music"; "song.FLAC"] (gather_flac_files demo_tree ["music"]).
Proof.
  split.
  - apply (proj1 (C9_discovery_is_case_sensitive demo_tree ["music"]) eq_refl).
    split; [reflexivity|]. exists ["live"; "e.flac"].
    repeat split; try discriminate. exists "e". reflexivity.
  - intros Hin.
    apply (proj1 (proj2 (proj2 (proj2 (C9_discovery_is_case_sensitive demo_tree ["music"]))))
             _ Hin).
    reflexivity.
Defined.



Lemma demo_tool_creates_output : creates_output demo_tool.
Proof.
  intros w flac opus br stdout stderr b. unfold demo_tool.
  destruct (List.existsb _ _); intros H; inversion H; reflexivity.
Qed.

Lemma X1_witness :
  PurePath.with_suffix ["music"; "live"; "take.2.flac"] ".opus"
  = inr ["music"; "live"; "take.2.opus"]
  /\ PurePath.with_suffix ["music"; "live"; "take.2.flac"] ".jpg"
     = inr ["music"; "live"; "take.2.jpg"].
Proof. exact (X1_output_names ["music"; "live"; "take.2.flac"] "take.2" eq_refl). Defined.

Lemma X2_witness :
  PurePath.suffix ["music"; "song.opus"] = ".opus"
  /\ PurePath.parent ["music"; "song.opus"] = PurePath.parent ["music"; "song.flac"]
  /\ (forall suffix,
        PurePath.with_suffix ["music"; "song.opus"] suffix
        = PurePath.with_suffix ["music"; "song.flac"] suffix).
Proof.
  apply (X2_with_suffix_round_trip ["music"; "song.flac"] ["music"; "song.opus"] "opus").
  - discriminate.
  - reflexivity.
  - reflexivity.
Defined.

Lemma X3_witness :
  ~ In (opus_of ["music"; "a.flac"]) (gather_flac_files demo_tree ["music"])
  /\ opus_of ["music"; "a.flac"] <> ["music"; "a.flac"]
  /\ PurePath.parent (jpg_of ["music"; "a.flac"]) = ["music"].
Proof.
  destruct (X3_outputs_are_not_inputs demo_tree demo_tree ["music"] ["music"]
              ["music"; "a.flac"]) as (H1 & _ & H3 & _ & _ & _ & H7).
  - vm_compute. left. reflexivity.
  - split; [exact H1 | split; [exact H3 | exact H7]].
Defined.

Lemma X4_witness : NoDup (gather_flac_files demo_tree ["music"]).
Proof. apply X4_gather_reports_no_path_twice. reflexivity. Defined.

Lemma X5_witness :
  PurePath.parent ["music"; ".flac"] = PurePath.parent ["music"; ".flac.flac"]
  /\ ((PurePath.name ["music"; ".flac"] = ".flac"
       /\ PurePath.name ["music"; ".flac.flac"] = ".flac.flac")
      \/ (PurePath.name ["music"; ".flac"] = ".flac.flac"
          /\ PurePath.name ["music"; ".flac.flac"] = ".flac")).
Proof.
  apply (proj1 (X5_distinct_files_distinct_outputs dotfile_tree ["music"])).
  - vm_compute. tauto.
  - vm_compute. tauto.
  - discriminate.
  - left. reflexivity.
Defined.

Lemma X6_witness :
  fst (exec no_cover_tool (extract_cover ["music"; "a.flac"] false) demo_world) = inr false
  /\ spawned (snd (exec no_cover_tool (extract_cover ["music"; "a.flac"] false) demo_world))
     = [cover_cmd ["music"; "a.flac"] ["music"; "a.jpg"]].
Proof.
  destruct (X6_extract_cover_outcome no_cover_tool ["music"; "a.flac"] ["music"; "a.jpg"]
              false demo_world) as (_ & _ & _ & H4 & H5).
  - reflexivity.
  - split; [|exact H5]. rewrite (H4 eq_refl eq_refl). reflexivity.
Defined.



Lemma X9_witness :
  List.last
    (trace (snd (exec demo_tool (convert_file ["music"; "c.flac"] "192k" false) demo_world)))
    (Asked [] false)
  = Logged ERROR (FFmpegStderr "Invalid data found when processing input").
Proof.
  rewrite (X9_convert_file_report demo_tool ["music"; "c.flac"] "192k" demo_world
             ["music"; "c.opus"]).
  - vm_compute. reflexivity.
  - reflexivity.
  - reflexivity.
  - reflexivity.
Defined.


Lemma X11_witness :
  2 = length (List.filter (would_skip (fs demo_world))
                (gather_flac_files (fs demo_world) (root demo_args))).
Proof.
  apply (X11_skipped_is_decided_at_the_start demo_tool demo_args demo_sched demo_world 2 2 1).
  - exact demo_outputs_differ.
  - vm_compute. reflexivity.
Defined.

Lemma X12_witness :
  exists p,
    (p = opus_of [ "music"; (long_name ++ ".flac")%string ]
     \/ p = jpg_of [ "music"; (long_name ++ ".flac")%string ])
    /\ In (Refused p (ENAMETOOLONG [ "music"; (long_name ++ ".opus")%string ]))
         (trace (now (pool_end good_tool demo_args demo_sched long_world))).
Proof.
  destruct (X12_worker_exceptions good_tool demo_args demo_sched long_world 0
              (ENAMETOOLONG [ "music"; (long_name ++ ".opus")%string ]))
    as (_ & _ & p & Hp & Hin & _).
  - vm_compute. repeat (first [left; reflexivity | right]).
  - exists p. split; [exact Hp | exact Hin].
Defined.

Lemma X13_witness :
  FS.exists_ (fs demo_world) ["music"; "a.opus"] = false
  /\ exists flac,
       In flac (gather_flac_files (fs demo_world) (root demo_args))
       /\ (["music"; "a.opus"] = opus_of flac \/ ["music"; "a.opus"] = jpg_of flac).
Proof.
  apply (proj1 (X13_run_adds_outputs_only good_tool demo_args demo_sched demo_world)).
  vm_compute. discriminate.
Defined.

Lemma X14_witness :
  exists flac,
    In flac (gather_flac_files (fs demo_world) (root demo_args))
    /\ ((dry_run demo_args = false
         /\ exists r,
              In (Spawned (transcode_cmd flac (opus_of flac) (bitrate demo_args)) r)
                (trace (final (main demo_tool demo_args demo_sched demo_world)))
              /\ failed r = true)
        \/ exists p exc,
             (p = opus_of flac \/ p = jpg_of flac)
             /\ In (Refused p exc)
                  (trace (final (main demo_tool demo_args demo_sched demo_world)))).
Proof.
  apply (proj2 (X14_results_have_their_cause demo_tool demo_args demo_sched demo_world)).
  - reflexivity.
  - reflexivity.
  - vm_compute. reflexivity.
Defined.

Lemma X15_witness :
  let first := main demo_tool demo_args demo_sched demo_world in
  let second := main good_tool demo_args [] (final first) in
  found second = found first
  /\ n_converted first + n_skipped first <= n_skipped second
  /\ n_converted second + n_errors second <= n_errors first.
Proof.
  apply (X15_second_run_keeps_finished_work demo_tool good_tool demo_args demo_args
           demo_sched [] demo_world).
  - reflexivity.
  - exact demo_tool_creates_output.
  - reflexivity.
  - exact demo_outputs_differ.
  - reflexivity.
  - reflexivity.
  - reflexivity.
Defined.

Lemma X16_witness :
  in_flight
    (List.fold_left (step demo_tool) demo_sched
       (submit 2 (gather_flac_files demo_tree ["music"]) "192k" false demo_world))
  <= 2.
Proof.
  exact (proj1 (X16_pool_size_and_order demo_tool 2 (gather_flac_files demo_tree ["music"])
                  "192k" false demo_world demo_sched)).
Defined.

Lemma X17_witness :
  main demo_tool one_worker_args demo_sched demo_world
  = main demo_tool one_worker_args [] demo_world.
Proof.
  apply (proj2 (proj2 (X17_one_worker_is_the_loop demo_tool [] "192k" false demo_world
                         demo_sched))).
  reflexivity.
Defined.

Lemma X18_witness :
  In ["music"; "live"; "e.flac"] (gather_flac_files demo_tree ["music"; "live"])
  <-> In ["music"; "live"; "e.flac"] (gather_flac_files demo_tree ["music"])
      /\ exists rel, rel <> [] /\ ["music"; "live"; "e.flac"] = ["music"] ++ ["live"] ++ rel.
Proof.
  apply (X18_gather_below demo_tree ["music"] ["live"] ["music"; "live"; "e.flac"]).
  - reflexivity.
  - reflexivity.
Defined.

Lemma X19_witness :
  let argv := transcode_cmd ["music"; "c.flac"] ["music"; "c.opus"] "192k" in
  In argv (spawned demo_world)
  \/ exists flac,
       In flac (gather_flac_files (fs demo_world) (root demo_args))
       /\ (argv = cover_cmd flac (jpg_of flac)
           \/ argv = transcode_cmd flac (opus_of flac) (bitrate demo_args))
       /\ List.hd "" argv = "ffmpeg"
       /\ In (PurePath.str flac) argv.
Proof.
  apply (X19_run_spawns_its_commands_only demo_tool demo_args demo_sched demo_world).
  vm_compute. tauto.
Defined.

Lemma X20_witness :
  trace (final (main demo_tool demo_args demo_sched (mkWorld (FS.Dir []) [])))
  = [Logged ERROR (DirectoryNotFound ["music"])].
Proof.
  apply (proj1 (X20_log_of_a_run demo_tool demo_args demo_sched (mkWorld (FS.Dir []) []))).
  reflexivity.
Defined.

